(** * godb: the storage, index, constraint and join engine

    A shallow embedding of package [engine] (row.go, index.go, table.go,
    constraints.go, crud.go, join.go, database.go) and the properties of its
    specification.

    Go values of type [interface{}] that the engine stores are [nil], [int],
    [string] and [bool]; a [Row] is a [map[string]interface{}]; an [Index] is a
    [map[interface{}][]int]; slices are lists addressed by position.  A Go
    [range] over a map visits the entries in an unspecified order: every such
    loop of the engine touches, per entry, only the object belonging to that
    entry, so it is written as a point-wise map ([map_imap]) or as a fold. *)

From stdpp Require Import gmap strings list fin_maps.
From Stdlib Require Import ZArith.

(** ** Values (interface{})

    [==] on two interface values compares dynamic type and value, which is
    equality of [Value].  A Go [int] is a [Z] here: the engine compares
    integers and never computes with them, so no wrap-around arises. *)

Inductive Value : Type :=
  | VNil
  | VInt (n : Z)
  | VStr (s : string)
  | VBool (b : bool).

#[global] Instance Value_eq_dec : EqDecision Value.
Proof. solve_decision. Defined.

Definition Value_to_sum (v : Value) : unit + Z + string + bool :=
  match v with
  | VNil => inl (inl (inl tt))
  | VInt n => inl (inl (inr n))
  | VStr s => inl (inr s)
  | VBool b => inr b
  end.

Definition Value_of_sum (x : unit + Z + string + bool) : Value :=
  match x with
  | inl (inl (inl _)) => VNil
  | inl (inl (inr n)) => VInt n
  | inl (inr s) => VStr s
  | inr b => VBool b
  end.

#[global] Instance Value_countable : Countable Value.
Proof.
  apply (inj_countable' Value_to_sum Value_of_sum).
  by intros [].
Defined.

(** ** row.go *)

Abbreviation Row := (gmap string Value).

(** [Row.Get]: the value (nil when the key is missing) and the [ok] flag. *)
Definition Row_Get (r : Row) (column : string) : Value * bool :=
  match r !! column with
  | Some val => (val, true)
  | None => (VNil, false)
  end.

Definition Row_Set (r : Row) (column : string) (value : Value) : Row :=
  <[column := value]> r.

Definition Row_Copy (r : Row) : Row := r.

(** ** constraints.go: columns *)

Inductive ColumnType := TypeInt | TypeString | TypeBool.

Record Column := mkColumn {
  Name : string;
  Type_ : ColumnType;
  PrimaryKey : bool;
  Unique : bool;
  NotNull : bool
}.

(** ** errors.go *)

Inductive Error :=
  | ErrTableNotFound (TableName : string)
  | ErrTableAlreadyExists (TableName : string)
  | ErrPrimaryKeyViolation (TableName Key : string) (Val : Value)
  | ErrUniqueViolation (TableName Col : string) (Val : Value)
  | ErrColumnNotFound (TableName ColumnName : string)
  | ErrMissingRequiredColumn (TableName ColumnName : string)
  | ErrMultiplePrimaryKeys (TableName : string).

#[global] Instance Error_eq_dec : EqDecision Error.
Proof. solve_decision. Defined.

(** ** index.go *)

Record Index := mkIndex {
  column : string;
  data : gmap Value (list nat)
}.

Definition NewIndex (col : string) : Index :=
  {| column := col; data := ∅ |}.

Definition Index_Add (idx : Index) (value : Value) (rowIndex : nat) : Index :=
  if decide (value = VNil) then idx
  else {| column := column idx;
          data := <[value := default [] (data idx !! value) ++ [rowIndex]]> (data idx) |}.

Definition Index_Remove (idx : Index) (value : Value) (rowIndex : nat) : Index :=
  if decide (value = VNil) then idx
  else match data idx !! value with
       | None => idx
       | Some indices =>
           let newIndices := filter (λ i, i ≠ rowIndex) indices in
           if decide (length newIndices = 0)
           then {| column := column idx; data := delete value (data idx) |}
           else {| column := column idx; data := <[value := newIndices]> (data idx) |}
       end.

Definition Index_Lookup (idx : Index) (value : Value) : list nat :=
  if decide (value = VNil) then []
  else default [] (data idx !! value).

Definition Index_Update (idx : Index) (oldValue newValue : Value) (rowIndex : nat) : Index :=
  Index_Add (Index_Remove idx oldValue rowIndex) newValue rowIndex.

Definition Index_Has (idx : Index) (value : Value) : bool :=
  if decide (value = VNil) then false
  else bool_decide (is_Some (data idx !! value)).

(** ** table.go *)

Record Table := mkTable {
  name : string;
  schema : list Column;
  rows : list Row;
  primaryKey : string;
  indexes : gmap string Index
}.

Definition hasColumn (t : Table) (columnName : string) : bool :=
  existsb (λ col, bool_decide (Name col = columnName)) (schema t).

(** The loop of [CreateIndex] over the existing rows, [rowIdx] counting up. *)
Fixpoint build_index (idx : Index) (columnName : string) (rowIdx : nat)
    (rs : list Row) : Index :=
  match rs with
  | [] => idx
  | row :: rs' =>
      let idx' := match Row_Get row columnName with
                  | (value, true) => Index_Add idx value rowIdx
                  | (_, false) => idx
                  end in
      build_index idx' columnName (S rowIdx) rs'
  end.

Definition CreateIndex (t : Table) (columnName : string) : Table * option Error :=
  if negb (hasColumn t columnName)
  then (t, Some (ErrColumnNotFound (name t) columnName))
  else match indexes t !! columnName with
       | Some _ => (t, None)
       | None =>
           let idx := build_index (NewIndex columnName) columnName 0 (rows t) in
           ({| name := name t; schema := schema t; rows := rows t;
               primaryKey := primaryKey t;
               indexes := <[columnName := idx]> (indexes t) |}, None)
       end.

(** The loop of [NewTable] over the schema. *)
Fixpoint NewTable_loop (table : Table) (cols : list Column) : Table :=
  match cols with
  | [] => table
  | col :: cols' =>
      let table' :=
        if PrimaryKey col then
          (CreateIndex {| name := name table; schema := schema table;
                          rows := rows table; primaryKey := Name col;
                          indexes := indexes table |} (Name col)).1
        else if Unique col then (CreateIndex table (Name col)).1
        else table in
      NewTable_loop table' cols'
  end.

Definition NewTable (nm : string) (sch : list Column) : Table :=
  NewTable_loop {| name := nm; schema := sch; rows := []; primaryKey := ""%string;
                   indexes := ∅ |} sch.

Definition GetIndex (t : Table) (columnName : string) : option Index :=
  indexes t !! columnName.

Definition scan_has (rs : list Row) (columnName : string) (value : Value) : bool :=
  existsb (λ row, match Row_Get row columnName with
                  | (rowValue, ok) => ok && bool_decide (rowValue = value)
                  end) rs.

Definition hasPrimaryKeyValue (t : Table) (value : Value) : bool :=
  if decide (primaryKey t = ""%string) then false
  else match indexes t !! primaryKey t with
       | Some idx => Index_Has idx value
       | None => scan_has (rows t) (primaryKey t) value
       end.

Definition hasUniqueValue (t : Table) (columnName : string) (value : Value) : bool :=
  match indexes t !! columnName with
  | Some idx => Index_Has idx value
  | None => scan_has (rows t) columnName value
  end.

Definition with_rows_indexes (t : Table) (rs : list Row) (ix : gmap string Index) : Table :=
  {| name := name t; schema := schema t; rows := rs;
     primaryKey := primaryKey t; indexes := ix |}.

Definition addRow (t : Table) (row : Row) : Table * nat :=
  let rowIndex := length (rows t) in
  let ix := map_imap (λ colName idx,
              Some (match Row_Get row colName with
                    | (value, true) => Index_Add idx value rowIndex
                    | (_, false) => idx
                    end)) (indexes t) in
  (with_rows_indexes t (rows t ++ [row]) ix, rowIndex).

(** [updateRow] and [deleteRow] index the slice: out of range Go panics,
    which is [None] here. *)
Definition updateRow (t : Table) (rowIndex : nat) (newRow : Row) : option Table :=
  match rows t !! rowIndex with
  | None => None
  | Some oldRow =>
      let ix := map_imap (λ colName idx,
                  let oldValue := (Row_Get oldRow colName).1 in
                  let newValue := (Row_Get newRow colName).1 in
                  Some (if decide (oldValue ≠ newValue)
                        then Index_Update idx oldValue newValue rowIndex
                        else idx)) (indexes t) in
      Some (with_rows_indexes t (<[rowIndex := newRow]> (rows t)) ix)
  end.

Definition deleteRow (t : Table) (rowIndex : nat) : option Table :=
  match rows t !! rowIndex with
  | None => None
  | Some row =>
      let ix1 := map_imap (λ colName idx,
                   Some (match Row_Get row colName with
                         | (value, true) => Index_Remove idx value rowIndex
                         | (_, false) => idx
                         end)) (indexes t) in
      let lastIndex := length (rows t) - 1 in
      if decide (rowIndex ≠ lastIndex) then
        match rows t !! lastIndex with
        | None => None
        | Some moved =>
            let rows1 := <[rowIndex := moved]> (rows t) in
            let ix2 := map_imap (λ colName idx,
                         Some (match Row_Get moved colName with
                               | (value, true) =>
                                   Index_Add (Index_Remove idx value lastIndex) value rowIndex
                               | (_, false) => idx
                               end)) ix1 in
            Some (with_rows_indexes t (take lastIndex rows1) ix2)
        end
      else Some (with_rows_indexes t (take lastIndex (rows t)) ix1)
  end.

(** ** constraints.go: the constraint checker *)

(** The loop of [ValidateInsert] over the unique columns. *)
Fixpoint insert_unique_loop (t : Table) (row : Row) (cols : list Column) : option Error :=
  match cols with
  | [] => None
  | col :: cols' =>
      if Unique col && bool_decide (Name col ≠ primaryKey t) then
        let '(value, hasValue) := Row_Get row (Name col) in
        if hasValue && hasUniqueValue t (Name col) value
        then Some (ErrUniqueViolation (name t) (Name col) value)
        else insert_unique_loop t row cols'
      else insert_unique_loop t row cols'
  end.

(** The not-null loop, the same in [ValidateInsert] and [ValidateUpdate]. *)
Fixpoint not_null_loop (t : Table) (row : Row) (cols : list Column) : option Error :=
  match cols with
  | [] => None
  | col :: cols' =>
      if NotNull col || PrimaryKey col then
        let '(value, hasValue) := Row_Get row (Name col) in
        if negb hasValue || bool_decide (value = VNil)
        then Some (ErrMissingRequiredColumn (name t) (Name col))
        else not_null_loop t row cols'
      else not_null_loop t row cols'
  end.

Definition insert_pk_check (t : Table) (row : Row) : option Error :=
  if decide (primaryKey t ≠ ""%string) then
    let '(pkValue, hasPK) := Row_Get row (primaryKey t) in
    if negb hasPK then Some (ErrMissingRequiredColumn (name t) (primaryKey t))
    else if hasPrimaryKeyValue t pkValue
         then Some (ErrPrimaryKeyViolation (name t) (primaryKey t) pkValue)
         else None
  else None.

Definition ValidateInsert (t : Table) (row : Row) : option Error :=
  match insert_pk_check t row with
  | Some e => Some e
  | None =>
      match insert_unique_loop t row (schema t) with
      | Some e => Some e
      | None => not_null_loop t row (schema t)
      end
  end.

Fixpoint update_unique_loop (t : Table) (oldRow newRow : Row) (cols : list Column)
    : option Error :=
  match cols with
  | [] => None
  | col :: cols' =>
      if Unique col && bool_decide (Name col ≠ primaryKey t) then
        let oldValue := (Row_Get oldRow (Name col)).1 in
        let '(newValue, hasNewValue) := Row_Get newRow (Name col) in
        if hasNewValue && bool_decide (oldValue ≠ newValue)
           && hasUniqueValue t (Name col) newValue
        then Some (ErrUniqueViolation (name t) (Name col) newValue)
        else update_unique_loop t oldRow newRow cols'
      else update_unique_loop t oldRow newRow cols'
  end.

Definition update_pk_check (t : Table) (oldRow newRow : Row) : option Error :=
  if decide (primaryKey t ≠ ""%string) then
    let oldPK := (Row_Get oldRow (primaryKey t)).1 in
    let newPK := (Row_Get newRow (primaryKey t)).1 in
    if bool_decide (oldPK ≠ newPK) && hasPrimaryKeyValue t newPK
    then Some (ErrPrimaryKeyViolation (name t) (primaryKey t) newPK)
    else None
  else None.

Definition ValidateUpdate (t : Table) (oldRow newRow : Row) : option Error :=
  match update_pk_check t oldRow newRow with
  | Some e => Some e
  | None =>
      match update_unique_loop t oldRow newRow (schema t) with
      | Some e => Some e
      | None => not_null_loop t newRow (schema t)
      end
  end.

(** ** crud.go: conditions *)

Record Condition := mkCondition {
  Cond_Column : string;
  Operator : string;
  Cond_Value : Value
}.

(** [compareValues]: Go's [<] on [int] and the byte-wise [<] on [string];
    every other pair of dynamic types falls through to the final [return 0]. *)
Definition compareValues (a b : Value) : Z :=
  match a, b with
  | VInt av, VInt bv =>
      if (av <? bv)%Z then (-1)%Z else if (av >? bv)%Z then 1%Z else 0%Z
  | VStr av, VStr bv =>
      if String.ltb av bv then (-1)%Z else if String.ltb bv av then 1%Z else 0%Z
  | _, _ => 0%Z
  end.

Definition evaluateCondition (row : Row) (cond : Condition) : bool :=
  let '(value, ok) := Row_Get row (Cond_Column cond) in
  if negb ok then false
  else if decide (Operator cond = "="%string) then bool_decide (value = Cond_Value cond)
  else if decide (Operator cond = "!="%string) then bool_decide (value ≠ Cond_Value cond)
  else if decide (Operator cond = ">"%string)
       then (compareValues value (Cond_Value cond) >? 0)%Z
  else if decide (Operator cond = "<"%string)
       then (compareValues value (Cond_Value cond) <? 0)%Z
  else if decide (Operator cond = ">="%string)
       then (compareValues value (Cond_Value cond) >=? 0)%Z
  else if decide (Operator cond = "<="%string)
       then (compareValues value (Cond_Value cond) <=? 0)%Z
  else false.

(** [condition != nil && !evaluateCondition(row, condition)] *)
Definition skips (condition : option Condition) (row : Row) : bool :=
  match condition with
  | Some cond => negb (evaluateCondition row cond)
  | None => false
  end.

Definition projectRow (row : Row) (columns : list string) (sch : list Column) : Row :=
  if decide (length columns = 0) then Row_Copy row
  else foldl (λ result col,
                match Row_Get row col with
                | (value, true) => Row_Set result col value
                | (_, false) => result
                end) ∅ columns.

(** ** database.go: the registry *)

Record Database := mkDatabase {
  tables : gmap string Table
}.

Inductive result (A : Type) :=
  | Ok (a : A)
  | Err (e : Error).
Arguments Ok {A} a.
Arguments Err {A} e.

Definition NewDatabase : Database := {| tables := ∅ |}.

Definition CreateTable (db : Database) (nm : string) (sch : list Column)
    : Database * option Error :=
  match tables db !! nm with
  | Some _ => (db, Some (ErrTableAlreadyExists nm))
  | None => ({| tables := <[nm := NewTable nm sch]> (tables db) |}, None)
  end.

Definition GetTable (db : Database) (nm : string) : result Table :=
  match tables db !! nm with
  | Some table => Ok table
  | None => Err (ErrTableNotFound nm)
  end.

(** A [*Table] mutated through the pointer held by the registry. *)
Definition store (db : Database) (nm : string) (table : Table) : Database :=
  {| tables := <[nm := table]> (tables db) |}.

(** ** crud.go: Insert, Select, Update, Delete *)

Definition Insert (db : Database) (tableName : string) (row : Row)
    : Database * option Error :=
  match GetTable db tableName with
  | Err e => (db, Some e)
  | Ok table =>
      match ValidateInsert table row with
      | Some e => (db, Some e)
      | None => (store db tableName (addRow table row).1, None)
      end
  end.

Definition candidateIndices (table : Table) (condition : option Condition) : list nat :=
  let scan := seq 0 (length (rows table)) in
  match condition with
  | Some cond =>
      if decide (Operator cond = "="%string) then
        match GetIndex table (Cond_Column cond) with
        | Some idx => Index_Lookup idx (Cond_Value cond)
        | None => scan
        end
      else scan
  | None => scan
  end.

(** The filtering loop of [Select]; [results] is the slice appended to. *)
Fixpoint Select_loop (table : Table) (columns : list string)
    (condition : option Condition) (cands : list nat) (results : list Row) : list Row :=
  match cands with
  | [] => results
  | idx :: cands' =>
      match rows table !! idx with
      | None => Select_loop table columns condition cands' results
      | Some row =>
          if skips condition row
          then Select_loop table columns condition cands' results
          else Select_loop table columns condition cands'
                 (results ++ [projectRow row columns (schema table)])
      end
  end.

Definition Select_table (table : Table) (columns : list string)
    (condition : option Condition) : list Row :=
  Select_loop table columns condition (candidateIndices table condition) [].

Definition Select (db : Database) (tableName : string) (columns : list string)
    (condition : option Condition) : result (list Row) :=
  match GetTable db tableName with
  | Err e => Err e
  | Ok table => Ok (Select_table table columns condition)
  end.

(** [newRow := row.Copy(); for col, val := range updates { newRow.Set(col, val) }] *)
Definition overlay (updates row : Row) : Row :=
  map_fold (λ col val newRow, Row_Set newRow col val) (Row_Copy row) updates.

(** The loop [for i := 0; i < len(table.rows); i++] of [Update].  The bound is
    read again at every turn, so the loop runs on fuel; [None] is a loop that
    has not finished within the fuel, or a panic of [updateRow]. *)
Fixpoint Update_loop (fuel : nat) (table : Table) (updates : Row)
    (condition : option Condition) (i rowsAffected : nat)
    : option (Table * nat * option Error) :=
  match fuel with
  | 0 => None
  | S fuel' =>
      match rows table !! i with
      | None => Some (table, rowsAffected, None)
      | Some row =>
          if skips condition row
          then Update_loop fuel' table updates condition (S i) rowsAffected
          else
            let newRow := overlay updates row in
            match ValidateUpdate table row newRow with
            | Some e => Some (table, rowsAffected, Some e)
            | None =>
                match updateRow table i newRow with
                | None => None
                | Some table' =>
                    Update_loop fuel' table' updates condition (S i) (S rowsAffected)
                end
            end
      end
  end.

Definition Update_table (table : Table) (updates : Row) (condition : option Condition)
    : option (Table * nat * option Error) :=
  Update_loop (S (length (rows table))) table updates condition 0 0.

Definition Update (db : Database) (tableName : string) (updates : Row)
    (condition : option Condition) : option (Database * nat * option Error) :=
  match GetTable db tableName with
  | Err e => Some (db, 0, Some e)
  | Ok table =>
      match Update_table table updates condition with
      | None => None
      | Some (table', n, err) => Some (store db tableName table', n, err)
      end
  end.

(** The loop [for i := len(table.rows) - 1; i >= 0; i--] of [Delete]: [n] is
    [i + 1].  [None] is a panic of the slice accesses. *)
Fixpoint Delete_loop (n : nat) (table : Table) (condition : option Condition)
    (rowsAffected : nat) : option (Table * nat) :=
  match n with
  | 0 => Some (table, rowsAffected)
  | S i =>
      match rows table !! i with
      | None => None
      | Some row =>
          if skips condition row
          then Delete_loop i table condition rowsAffected
          else match deleteRow table i with
               | None => None
               | Some table' => Delete_loop i table' condition (S rowsAffected)
               end
      end
  end.

Definition Delete_table (table : Table) (condition : option Condition)
    : option (Table * nat) :=
  Delete_loop (length (rows table)) table condition 0.

Definition Delete (db : Database) (tableName : string) (condition : option Condition)
    : option (Database * nat * option Error) :=
  match GetTable db tableName with
  | Err e => Some (db, 0, Some e)
  | Ok table =>
      match Delete_table table condition with
      | None => None
      | Some (table', n) => Some (store db tableName table', n, None)
      end
  end.

(** ** join.go *)

Record JoinCondition := mkJoinCondition {
  LeftColumn : string;
  RightColumn : string
}.

(** [fmt.Sprintf("%s.%s", table, col)] *)
Definition qualify (table col : string) : string :=
  String.append table (String.append "." col).

Definition mergeRows (left right : Row) (leftTable rightTable : string) : Row :=
  let result := map_fold (λ col val result, Row_Set result (qualify leftTable col) val)
                  ∅ left in
  map_fold (λ col val result, Row_Set result (qualify rightTable col) val)
    result right.

(** The linear scan of the right table, [i] counting the position. *)
Fixpoint scan_matching (rightRows : list Row) (rightColumn : string)
    (leftValue : Value) (i : nat) (matching : list nat) : list nat :=
  match rightRows with
  | [] => matching
  | rightRow :: rest =>
      let '(rightValue, ok) := Row_Get rightRow rightColumn in
      scan_matching rest rightColumn leftValue (S i)
        (if ok && bool_decide (rightValue = leftValue)
         then matching ++ [i] else matching)
  end.

Definition project_joined (joinedRow : Row) (selectColumns : list string) : Row :=
  if decide (0 < length selectColumns) then
    foldl (λ projectedRow col,
             match Row_Get joinedRow col with
             | (value, true) => Row_Set projectedRow col value
             | (_, false) => projectedRow
             end) ∅ selectColumns
  else joinedRow.

(** The loop over [matchingRightIndices]. *)
Fixpoint join_emit (right : Table) (leftRow : Row) (leftTable rightTable : string)
    (selectColumns : list string) (matching : list nat) (results : list Row)
    : list Row :=
  match matching with
  | [] => results
  | rightIdx :: rest =>
      match rows right !! rightIdx with
      | None => join_emit right leftRow leftTable rightTable selectColumns rest results
      | Some rightRow =>
          let joinedRow := mergeRows leftRow rightRow leftTable rightTable in
          join_emit right leftRow leftTable rightTable selectColumns rest
            (results ++ [project_joined joinedRow selectColumns])
      end
  end.

(** The loop over the rows of the left table. *)
Fixpoint join_loop (leftRows : list Row) (right : Table) (rightIndex : option Index)
    (leftTable rightTable : string) (condition : JoinCondition)
    (selectColumns : list string) (results : list Row) : list Row :=
  match leftRows with
  | [] => results
  | leftRow :: rest =>
      let '(leftValue, ok) := Row_Get leftRow (LeftColumn condition) in
      if negb ok || bool_decide (leftValue = VNil)
      then join_loop rest right rightIndex leftTable rightTable condition
             selectColumns results
      else
        let matching :=
          match rightIndex with
          | Some idx => Index_Lookup idx leftValue
          | None => scan_matching (rows right) (RightColumn condition) leftValue 0 []
          end in
        join_loop rest right rightIndex leftTable rightTable condition selectColumns
          (join_emit right leftRow leftTable rightTable selectColumns matching results)
  end.

Definition InnerJoin (db : Database) (leftTable rightTable : string)
    (condition : JoinCondition) (selectColumns : list string) : result (list Row) :=
  match GetTable db leftTable with
  | Err e => Err e
  | Ok ltab =>
      match GetTable db rightTable with
      | Err e => Err e
      | Ok rtab =>
          if negb (hasColumn ltab (LeftColumn condition))
          then Err (ErrColumnNotFound leftTable (LeftColumn condition))
          else if negb (hasColumn rtab (RightColumn condition))
          then Err (ErrColumnNotFound rightTable (RightColumn condition))
          else Ok (join_loop (rows ltab) rtab
                     (GetIndex rtab (RightColumn condition))
                     leftTable rightTable condition selectColumns [])
      end
  end.

(** ** database.go: the reader/writer lock [mu]

    The lock calls of each entry point, in program order, together with the
    accesses to the registry map and to a table's rows and indexes that
    happen between them.  [GetTable] releases the reader lock when it
    returns (its [defer]); the callers in crud.go go on without a lock. *)

Inductive Event :=
  | EvLock
  | EvUnlock
  | EvRLock
  | EvRUnlock
  | EvRegistryRead
  | EvRegistryWrite
  | EvTableRead (tableName : string)
  | EvTableWrite (tableName : string).

Record RWMutex := mkRWMutex {
  writer : bool;
  readers : nat
}.

Definition mu_step (mu : RWMutex) (e : Event) : RWMutex :=
  match e with
  | EvLock => {| writer := true; readers := readers mu |}
  | EvUnlock => {| writer := false; readers := readers mu |}
  | EvRLock => {| writer := writer mu; readers := S (readers mu) |}
  | EvRUnlock => {| writer := writer mu; readers := pred (readers mu) |}
  | _ => mu
  end.

Definition is_write (e : Event) : bool :=
  match e with
  | EvRegistryWrite | EvTableWrite _ => true
  | _ => false
  end.

(** Every write of the trace happens while the writer lock is held. *)
Fixpoint writes_hold_writer_lock (mu : RWMutex) (tr : list Event) : bool :=
  match tr with
  | [] => true
  | e :: tr' =>
      (if is_write e then writer mu else true)
      && writes_hold_writer_lock (mu_step mu e) tr'
  end.

Definition unlocked : RWMutex := {| writer := false; readers := 0 |}.

Definition GetTable_events : list Event := [EvRLock; EvRegistryRead; EvRUnlock].

Definition CreateTable_events (db : Database) (nm : string) : list Event :=
  [EvLock; EvRegistryRead]
  ++ match tables db !! nm with
     | Some _ => []
     | None => [EvRegistryWrite]
     end
  ++ [EvUnlock].

Definition Insert_events (db : Database) (tableName : string) (row : Row) : list Event :=
  GetTable_events
  ++ match GetTable db tableName with
     | Err _ => []
     | Ok table =>
         EvTableRead tableName ::
         match ValidateInsert table row with
         | Some _ => []
         | None => [EvTableWrite tableName]
         end
     end.

Definition Update_events (db : Database) (tableName : string) (updates : Row)
    (condition : option Condition) : list Event :=
  GetTable_events
  ++ match GetTable db tableName with
     | Err _ => []
     | Ok table =>
         EvTableRead tableName ::
         match Update_table table updates condition with
         | Some (_, n, _) => replicate n (EvTableWrite tableName)
         | None => []
         end
     end.

Definition Delete_events (db : Database) (tableName : string)
    (condition : option Condition) : list Event :=
  GetTable_events
  ++ match GetTable db tableName with
     | Err _ => []
     | Ok table =>
         EvTableRead tableName ::
         match Delete_table table condition with
         | Some (_, n) => replicate n (EvTableWrite tableName)
         | None => []
         end
     end.

(** [table, _ := db.GetTable(name); table.CreateIndex(col)], as server.go does. *)
Definition CreateIndex_events (db : Database) (tableName columnName : string)
    : list Event :=
  GetTable_events
  ++ match GetTable db tableName with
     | Err _ => []
     | Ok table =>
         EvTableRead tableName ::
         if hasColumn table columnName && bool_decide (indexes table !! columnName = None)
         then [EvTableWrite tableName] else []
     end.

(** ** Index consistency *)

(** The row at position [p] holds the non-null value [v] in column [c]. *)
Definition row_holds (rs : list Row) (p : nat) (c : string) (v : Value) : Prop :=
  v ≠ VNil ∧ ∃ r, rs !! p = Some r ∧ r !! c = Some v.

(** A bucket is the set of the positions holding its value: nothing is
    missing, nothing is stale, nothing is listed twice. *)
Definition index_consistent (rs : list Row) (c : string) (idx : Index) : Prop :=
  ∀ v, NoDup (Index_Lookup idx v)
       ∧ ∀ p, p ∈ Index_Lookup idx v ↔ row_holds rs p c v.

(** The same with an arbitrary description [P] of the buckets' contents, for
    the states between two steps of a mutator. *)
Definition bucket_spec (idx : Index) (P : nat → Value → Prop) : Prop :=
  ∀ v, NoDup (Index_Lookup idx v) ∧ ∀ p, p ∈ Index_Lookup idx v ↔ P p v.

Definition table_consistent (t : Table) : Prop :=
  ∀ c idx, indexes t !! c = Some idx → index_consistent (rows t) c idx.

(** The tables that the mutators of table.go can produce. *)
Inductive reachable : Table → Prop :=
  | reach_new nm sch : reachable (NewTable nm sch)
  | reach_addRow t row : reachable t → reachable (addRow t row).1
  | reach_updateRow t p row t' :
      reachable t → updateRow t p row = Some t' → reachable t'
  | reach_deleteRow t p t' :
      reachable t → deleteRow t p = Some t' → reachable t'
  | reach_CreateIndex t c : reachable t → reachable (CreateIndex t c).1.

(** ** Vocabulary of the statements *)

(** The row is one that [Update] and [Delete] act on: it satisfies the
    condition, or there is no condition. *)
Definition matches (condition : option Condition) (row : Row) : bool :=
  negb (skips condition row).

(** What a successful turn of the [Update] loop leaves at a position. *)
Definition updated (updates : Row) (condition : option Condition) (row : Row) : Row :=
  if matches condition row then overlay updates row else row.

(** The left row's join value is non-null and equal to the right row's. *)
Definition join_related (condition : JoinCondition) (l r : Row) : bool :=
  match l !! LeftColumn condition with
  | Some v => bool_decide (v ≠ VNil) && bool_decide (r !! RightColumn condition = Some v)
  | None => false
  end.

(** The pairs of a left and a right row that an equality join relates. *)
Definition join_pairs (leftRows rightRows : list Row) (condition : JoinCondition)
    : list (Row * Row) :=
  l ← leftRows; r ← rightRows;
  if join_related condition l r then [(l, r)] else [].

(** A join-output key of the form [tableName.columnName]. *)
Definition qualified (leftTable rightTable : string) (key : string) : Prop :=
  ∃ col, key = qualify leftTable col ∨ key = qualify rightTable col.

(** The two dynamic types that [compareValues] orders. *)
Definition orderable (a b : Value) : bool :=
  match a, b with
  | VInt _, VInt _ | VStr _, VStr _ => true
  | _, _ => false
  end.

(** The table's primary key is a declared primary-key column with an index. *)
Definition pk_declared (t : Table) : Prop :=
  primaryKey t ≠ ""%string →
  is_Some (indexes t !! primaryKey t)
  ∧ ∃ col, col ∈ schema t ∧ Name col = primaryKey t ∧ PrimaryKey col = true.

(** ** Sample data *)

Definition col_id : Column := mkColumn "id" TypeInt true false false.
Definition col_name : Column := mkColumn "name" TypeString false false true.
Definition col_email : Column := mkColumn "email" TypeString false true false.

Definition users_schema : list Column := [col_id; col_name; col_email].

Definition alice : Row :=
  {[ "id"%string := VInt 1; "name"%string := VStr "alice";
     "email"%string := VStr "a@x" ]}.
Definition bob : Row :=
  {[ "id"%string := VInt 2; "name"%string := VStr "bob";
     "email"%string := VStr "b@x" ]}.
Definition carol : Row :=
  {[ "id"%string := VInt 3; "name"%string := VStr "carol";
     "email"%string := VStr "c@x" ]}.

Definition users0 : Table := NewTable "users" users_schema.
Definition users1 : Table := (addRow users0 alice).1.
Definition users2 : Table := (addRow users1 bob).1.
Definition users3 : Table := (addRow users2 carol).1.

Definition sample_db : Database := {| tables := {[ "users"%string := users3 ]} |}.

Definition cond_name_bob : Condition := mkCondition "name" "=" (VStr "bob").

(** A table with a nullable column and a row that stores an explicit nil. *)
Definition accounts_schema : list Column :=
  [col_id; mkColumn "email" TypeString false false false].
Definition anon : Row := {[ "id"%string := VInt 1; "email"%string := VNil ]}.
Definition accounts_scan : Table := (addRow (NewTable "accounts" accounts_schema) anon).1.
Definition accounts_indexed : Table := (CreateIndex accounts_scan "email").1.
Definition cond_email_nil : Condition := mkCondition "email" "=" VNil.
Definition cond_id_1 : Condition := mkCondition "id" "=" (VInt 1).

Definition email_to_alice : Row := {[ "email"%string := VStr "a@x" ]}.

(** The post/user scenario of the specification. *)
Definition posts_schema : list Column :=
  [col_id; mkColumn "user_id" TypeInt false false false].
Definition post1 : Row := {[ "id"%string := VInt 10; "user_id"%string := VInt 1 ]}.
Definition post2 : Row := {[ "id"%string := VInt 11; "user_id"%string := VInt 1 ]}.
Definition post3 : Row := {[ "id"%string := VInt 12; "user_id"%string := VNil ]}.
Definition posts3 : Table :=
  (addRow (addRow (addRow (NewTable "posts" posts_schema) post1).1 post2).1 post3).1.
Definition blog_db : Database :=
  {| tables := {[ "users"%string := users3; "posts"%string := posts3 ]} |}.
Definition posts_users : JoinCondition := mkJoinCondition "user_id" "id".

Definition two_pk_schema : list Column :=
  [col_id; col_name; mkColumn "code" TypeString true false false].

(** A row with an explicit nil primary key that repeats alice's e-mail. *)
Definition nil_pk_row : Row :=
  {[ "id"%string := VNil; "name"%string := VStr "dup";
     "email"%string := VStr "a@x" ]}.
Definition no_pk_row : Row :=
  {[ "name"%string := VStr "dup"; "email"%string := VStr "a@x" ]}.
Definition dave : Row :=
  {[ "id"%string := VInt 4; "name"%string := VStr "dave";
     "email"%string := VStr "d@x" ]}.

Definition age30 : Row := {[ "age"%string := VInt 30 ]}.
Definition flag_row : Row := {[ "ok"%string := VBool true ]}.
Definition no_age : Row := {[ "id"%string := VInt 7 ]}.
Definition cond_age_ne : Condition := mkCondition "age" "!=" (VInt 30).

(** ** database.go: the rest of the registry *)

Definition DropTable (db : Database) (nm : string) : Database * option Error :=
  match tables db !! nm with
  | None => (db, Some (ErrTableNotFound nm))
  | Some _ => ({| tables := delete nm (tables db) |}, None)
  end.

(** [for name := range db.tables { names = append(names, name) }]: the order
    is that of the map iteration, which Go leaves unspecified. *)
Definition ListTables (db : Database) : list string :=
  map_fold (λ nm _ names, names ++ [nm]) [] (tables db).

Definition TableExists (db : Database) (nm : string) : bool :=
  bool_decide (is_Some (tables db !! nm)).

(** ** Vocabulary of the further statements *)

(** No bucket is empty and nil is no key: what [Add] and [Remove] maintain. *)
Definition index_wf (idx : Index) : Prop :=
  data idx !! VNil = None ∧ ∀ v l, data idx !! v = Some l → l ≠ [].

Definition table_wf (t : Table) : Prop :=
  ∀ c idx, indexes t !! c = Some idx → index_wf idx.

(** The indexes that [Add], [Remove] and [Update] build from an empty one. *)
Inductive index_reachable : Index → Prop :=
  | ireach_new col : index_reachable (NewIndex col)
  | ireach_Add idx v p : index_reachable idx → index_reachable (Index_Add idx v p)
  | ireach_Remove idx v p : index_reachable idx → index_reachable (Index_Remove idx v p)
  | ireach_Update idx v w p :
      index_reachable idx → index_reachable (Index_Update idx v w p).

(** The tables that the entry points of crud.go produce: rows enter through
    [ValidateInsert] and change through [ValidateUpdate]. *)
Inductive api_reachable : Table → Prop :=
  | api_new nm sch : api_reachable (NewTable nm sch)
  | api_Insert t row :
      api_reachable t → ValidateInsert t row = None →
      api_reachable (addRow t row).1
  | api_Update t updates condition t' n e :
      api_reachable t → Update_table t updates condition = Some (t', n, e) →
      api_reachable t'
  | api_Delete t condition t' n :
      api_reachable t → Delete_table t condition = Some (t', n) →
      api_reachable t'
  | api_CreateIndex t c : api_reachable t → api_reachable (CreateIndex t c).1.

(** The non-null value of a row in a column, if it has one. *)
Definition value_of (c : string) (r : Row) : option Value :=
  match r !! c with
  | Some v => if decide (v = VNil) then None else Some v
  | None => None
  end.

(** The non-null values of a column, in storage order. *)
Definition col_values (c : string) (rs : list Row) : list Value :=
  omap (value_of c) rs.

(** The columns whose values the constraint checker keeps distinct: the
    primary key, and the unique columns that the unique loops look at. *)
Definition enforced_unique (t : Table) (c : string) : Prop :=
  (c = primaryKey t ∧ c ≠ ""%string)
  ∨ (c ≠ primaryKey t
     ∧ ∃ col, col ∈ schema t ∧ Name col = c ∧ Unique col = true).

(** The columns that the not-null loop looks at. *)
Definition required (t : Table) (c : string) : Prop :=
  ∃ col, col ∈ schema t ∧ Name col = c
         ∧ (NotNull col = true ∨ PrimaryKey col = true).

(** What the constraint checker is there to keep: distinct non-null values
    in the enforced columns, a non-null value in every required column. *)
Definition constraints_hold (t : Table) : Prop :=
  (∀ c, enforced_unique t c → NoDup (col_values c (rows t)))
  ∧ (∀ c r, required t c → r ∈ rows t → is_Some (value_of c r)).

(** ** The specification's side of Update and InnerJoin

    These are written from the specification's words, not from the code, so
    that the statements about [Update] and [InnerJoin] say what a row must
    contain and in which state a row is validated. *)

(** What [Update] must leave at a position it has passed: the updates laid
    over the old row when the row matches, the old row otherwise. *)
Definition overlaid (updates : Row) (condition : option Condition) (row : Row) : Row :=
  if matches condition row then updates ∪ row else row.

(** The table in which the row at position [j] is looked at: every matching
    row below [j] has been replaced, by one [updateRow] each, and nothing else
    has happened. *)
Definition after_updates (t : Table) (updates : Row) (condition : option Condition)
    (j : nat) : option Table :=
  foldl (λ ot p,
           t0 ← ot;
           match rows t !! p with
           | Some row =>
               if matches condition row then updateRow t0 p (updates ∪ row)
               else Some t0
           | None => Some t0
           end) (Some t) (seq 0 j).

(** Every matching row below [j] passes [ValidateUpdate] in the table in
    which it is looked at. *)
Definition validated_before (t : Table) (updates : Row)
    (condition : option Condition) (j : nat) : Prop :=
  ∀ i row s,
    i < j → rows t !! i = Some row → matches condition row = true →
    after_updates t updates condition i = Some s →
    ValidateUpdate s row (updates ∪ row) = None.

(** [tableName.columnName] *)
Definition qualified_name (tableName columnName : string) : string :=
  String.append tableName (String.append "." columnName).

(** The merged row of a pair: every column of either row under its qualified
    name, the right row's value where two qualified names coincide. *)
Definition merged (leftTable rightTable : string) (l r : Row) : Row :=
  kmap (M2 := gmap string) (qualified_name rightTable) r
  ∪ kmap (M2 := gmap string) (qualified_name leftTable) l.

(** The row cut down to the selected names, whole if none is selected. *)
Definition projection (selectColumns : list string) (m : Row) : Row :=
  if decide (selectColumns = []) then m
  else filter (λ kv, kv.1 ∈ selectColumns) m.

(** * Properties *)

Ltac list_len :=
  repeat first [rewrite length_app | rewrite length_take | rewrite length_insert
               | progress simpl];
  lia.

(** ** Index operations *)

Section index_ops.
Implicit Types (idx : Index) (v w : Value) (p q : nat).

Lemma Lookup_NewIndex c v : Index_Lookup (NewIndex c) v = [].
Proof. unfold Index_Lookup, NewIndex. case_decide; [done|]. simpl. by rewrite lookup_empty. Qed.

Lemma Lookup_Add idx v q w :
  Index_Lookup (Index_Add idx v q) w =
    if decide (v ≠ VNil ∧ w = v) then Index_Lookup idx w ++ [q]
    else Index_Lookup idx w.
Proof.
  unfold Index_Lookup, Index_Add.
  destruct (decide (v ≠ VNil ∧ w = v)) as [[Hv ->]|Hn].
  - rewrite !decide_False by done. simpl. by rewrite lookup_insert_eq.
  - destruct (decide (v = VNil)) as [->|Hv]; [done|].
    destruct (decide (w = VNil)) as [->|Hw]; [done|].
    simpl. rewrite lookup_insert_ne; [done|]. naive_solver.
Qed.

Lemma Lookup_Remove idx v q w :
  Index_Lookup (Index_Remove idx v q) w =
    if decide (w = v) then filter (λ i, i ≠ q) (Index_Lookup idx w)
    else Index_Lookup idx w.
Proof.
  unfold Index_Lookup, Index_Remove.
  destruct (decide (w = v)) as [->|Hne].
  - destruct (decide (v = VNil)) as [->|Hv]; [done|].
    destruct (data idx !! v) as [indices|] eqn:Hd; simpl; [|by rewrite Hd].
    destruct (decide (length _ = 0)) as [Hlen|Hlen]; simpl.
    + rewrite lookup_delete_eq. simpl.
      by apply nil_length_inv in Hlen as ->.
    + by rewrite lookup_insert_eq.
  - destruct (decide (v = VNil)) as [->|Hv]; [done|].
    destruct (decide (w = VNil)) as [->|Hw]; [done|].
    destruct (data idx !! v) as [indices|] eqn:Hd; simpl; [|done].
    destruct (decide (length _ = 0)); simpl.
    + by rewrite lookup_delete_ne.
    + by rewrite lookup_insert_ne.
Qed.

Lemma elem_of_Lookup_Add idx v q w p :
  p ∈ Index_Lookup (Index_Add idx v q) w ↔
    p ∈ Index_Lookup idx w ∨ (v ≠ VNil ∧ w = v ∧ p = q).
Proof.
  rewrite Lookup_Add. case_decide as H.
  - rewrite elem_of_app, list_elem_of_singleton. naive_solver.
  - naive_solver.
Qed.

Lemma elem_of_Lookup_Remove idx v q w p :
  p ∈ Index_Lookup (Index_Remove idx v q) w ↔
    p ∈ Index_Lookup idx w ∧ ¬ (w = v ∧ p = q).
Proof.
  rewrite Lookup_Remove. case_decide as H.
  - rewrite list_elem_of_filter. naive_solver.
  - naive_solver.
Qed.

Lemma NoDup_Lookup_Add idx v q w :
  NoDup (Index_Lookup idx w) → q ∉ Index_Lookup idx v →
  NoDup (Index_Lookup (Index_Add idx v q) w).
Proof.
  intros Hnd Hq. rewrite Lookup_Add. case_decide as H; [|done].
  destruct H as [_ ->]. apply NoDup_app. split_and!; [done| |apply NoDup_singleton].
  intros x Hx ->%list_elem_of_singleton. done.
Qed.

Lemma NoDup_Lookup_Remove idx v q w :
  NoDup (Index_Lookup idx w) → NoDup (Index_Lookup (Index_Remove idx v q) w).
Proof.
  intros Hnd. rewrite Lookup_Remove. case_decide; [|done]. by apply NoDup_filter.
Qed.

End index_ops.

(** ** Buckets under [Add] and [Remove] *)

Section bucket_spec.
Implicit Types (idx : Index) (P Q : nat → Value → Prop).

Lemma bucket_spec_iff idx P Q :
  bucket_spec idx P → (∀ p v, P p v ↔ Q p v) → bucket_spec idx Q.
Proof.
  intros HP HPQ v. destruct (HP v) as [Hnd Hin]. split; [done|].
  intros p. by rewrite Hin.
Qed.

Lemma bucket_spec_Add idx P v q :
  bucket_spec idx P → ¬ P q v →
  bucket_spec (Index_Add idx v q) (λ p w, P p w ∨ (v ≠ VNil ∧ w = v ∧ p = q)).
Proof.
  intros HP Hq w. split.
  - apply NoDup_Lookup_Add; [apply HP|]. by rewrite (proj2 (HP v)).
  - intros p. rewrite elem_of_Lookup_Add. by rewrite (proj2 (HP w)).
Qed.

Lemma bucket_spec_Remove idx P v q :
  bucket_spec idx P →
  bucket_spec (Index_Remove idx v q) (λ p w, P p w ∧ ¬ (w = v ∧ p = q)).
Proof.
  intros HP w. split.
  - apply NoDup_Lookup_Remove, HP.
  - intros p. rewrite elem_of_Lookup_Remove. by rewrite (proj2 (HP w)).
Qed.

Lemma bucket_spec_NewIndex c : bucket_spec (NewIndex c) (λ _ _, False).
Proof.
  intros v. rewrite Lookup_NewIndex. split; [constructor|].
  intros p. by rewrite elem_of_nil.
Qed.
End bucket_spec.

(** ** Which rows hold a value, under the slice operations *)

Section row_holds.
Implicit Types (rs : list Row) (r : Row) (c : string) (v : Value) (p : nat).

Lemma row_holds_lt rs p c v : row_holds rs p c v → p < length rs.
Proof. intros (_ & r & Hr & _). by eapply lookup_lt_Some. Qed.

Lemma row_holds_at rs p r c v :
  rs !! p = Some r → row_holds rs p c v ↔ v ≠ VNil ∧ r !! c = Some v.
Proof. intros Hr. unfold row_holds. rewrite Hr. naive_solver. Qed.

Lemma row_holds_snoc rs r p c v :
  row_holds (rs ++ [r]) p c v ↔
    row_holds rs p c v ∨ (p = length rs ∧ v ≠ VNil ∧ r !! c = Some v).
Proof.
  unfold row_holds. destruct (decide (p < length rs)) as [Hlt|Hge].
  - rewrite lookup_app_l by done. naive_solver lia.
  - rewrite lookup_app_r by lia. rewrite (lookup_ge_None_2 rs p) by lia.
    destruct (decide (p = length rs)) as [->|Hne].
    + rewrite Nat.sub_diag. simpl. naive_solver.
    + destruct (p - length rs) as [|k] eqn:Hk; [lia|]. simpl.
      rewrite lookup_nil. naive_solver.
Qed.

Lemma row_holds_insert rs p0 r p c v :
  p0 < length rs →
  row_holds (<[p0 := r]> rs) p c v ↔
    (p ≠ p0 ∧ row_holds rs p c v) ∨ (p = p0 ∧ v ≠ VNil ∧ r !! c = Some v).
Proof.
  intros Hlt. unfold row_holds. destruct (decide (p = p0)) as [->|Hne].
  - rewrite list_lookup_insert_eq by done. naive_solver.
  - rewrite list_lookup_insert_ne by done. naive_solver.
Qed.

Lemma row_holds_take rs n p c v :
  row_holds (take n rs) p c v ↔ p < n ∧ row_holds rs p c v.
Proof.
  unfold row_holds. destruct (decide (p < n)) as [Hlt|Hge].
  - rewrite lookup_take_lt by done. naive_solver.
  - rewrite lookup_take_ge by lia. naive_solver.
Qed.

Lemma Row_Get_fst r c v :
  v ≠ VNil → r !! c = Some v ↔ (Row_Get r c).1 = v.
Proof.
  intros Hv. unfold Row_Get. destruct (r !! c); simpl; naive_solver.
Qed.
End row_holds.

(** ** The mutators of table.go keep every index consistent *)

Section consistency.
Implicit Types (t : Table) (rs : list Row) (idx : Index) (c : string).

(** One turn of the index loop of [addRow] (and of [CreateIndex]). *)
Lemma index_consistent_snoc rs c idx row :
  index_consistent rs c idx →
  index_consistent (rs ++ [row]) c
    (match Row_Get row c with
     | (value, true) => Index_Add idx value (length rs)
     | (_, false) => idx
     end).
Proof.
  intros Hidx. unfold Row_Get. destruct (row !! c) as [value|] eqn:Hrow.
  - eapply bucket_spec_iff.
    + apply (bucket_spec_Add _ _ value (length rs) Hidx).
      intros H%row_holds_lt. lia.
    + intros p v. simpl. rewrite row_holds_snoc. naive_solver.
  - eapply bucket_spec_iff; [exact Hidx|].
    intros p v. simpl. rewrite row_holds_snoc. naive_solver.
Qed.

Lemma build_index_consistent pre rs c idx :
  index_consistent pre c idx →
  index_consistent (pre ++ rs) c (build_index idx c (length pre) rs).
Proof.
  revert pre idx. induction rs as [|row rs IH]; intros pre idx Hidx; simpl.
  - by rewrite app_nil_r.
  - replace (pre ++ row :: rs) with ((pre ++ [row]) ++ rs)
      by (by rewrite <- app_assoc).
    replace (S (length pre)) with (length (pre ++ [row]))
      by (rewrite length_app; simpl; lia).
    apply IH. apply (index_consistent_snoc pre c idx row Hidx).
Qed.

Lemma index_consistent_update rs c idx p0 oldRow newRow :
  rs !! p0 = Some oldRow →
  index_consistent rs c idx →
  index_consistent (<[p0 := newRow]> rs) c
    (if decide ((Row_Get oldRow c).1 ≠ (Row_Get newRow c).1)
     then Index_Update idx (Row_Get oldRow c).1 (Row_Get newRow c).1 p0
     else idx).
Proof.
  intros Hold Hidx. pose proof (lookup_lt_Some _ _ _ Hold) as Hlt.
  assert (Hat : ∀ v, row_holds rs p0 c v ↔ v ≠ VNil ∧ (Row_Get oldRow c).1 = v).
  { intros v. rewrite (row_holds_at rs p0 oldRow c v Hold).
    split; intros [Hv H]; (split; [done|]); by apply Row_Get_fst. }
  case_decide as Hne.
  - unfold Index_Update. eapply bucket_spec_iff.
    + apply bucket_spec_Add; [apply bucket_spec_Remove; exact Hidx|]. simpl. naive_solver.
    + intros p v. simpl. rewrite row_holds_insert by done.
      split.
      * intros [[Hp Hn]|(Hnew & -> & ->)].
        -- left. split; [|done]. intros ->. apply Hat in Hp. naive_solver.
        -- right. split_and!; [done..|]. by apply Row_Get_fst.
      * intros [[Hp Hh]|(-> & Hv & Hnew)].
        -- left. naive_solver.
        -- right. apply Row_Get_fst in Hnew; [|done]. naive_solver.
  - eapply bucket_spec_iff; [exact Hidx|].
    intros p v. simpl. rewrite row_holds_insert by done.
    destruct (decide (p = p0)) as [->|Hp]; [|naive_solver].
    rewrite Hat. split.
    + intros [Hv Ho]. right. split_and!; [done..|].
      apply Row_Get_fst; [done|]. congruence.
    + intros [[? _]|(_ & Hv & Hnew)]; [done|]. split; [done|].
      apply Row_Get_fst in Hnew; [|done]. congruence.
Qed.

(** The first index loop of [deleteRow]: the deleted position leaves. *)
Lemma bucket_spec_delete_first rs c idx p0 row :
  rs !! p0 = Some row →
  index_consistent rs c idx →
  bucket_spec
    (match Row_Get row c with
     | (value, true) => Index_Remove idx value p0
     | (_, false) => idx
     end)
    (λ p v, row_holds rs p c v ∧ p ≠ p0).
Proof.
  intros Hrow Hidx. unfold Row_Get. destruct (row !! c) as [value|] eqn:Hc.
  - eapply bucket_spec_iff; [apply bucket_spec_Remove; exact Hidx|].
    intros p v. simpl. split.
    + intros [Hh Hn]. split; [done|]. intros ->.
      apply (row_holds_at rs p0 row c v Hrow) in Hh. naive_solver.
    + naive_solver.
  - eapply bucket_spec_iff; [exact Hidx|].
    intros p v. simpl. split; [|naive_solver].
    intros Hh. split; [done|]. intros ->.
    apply (row_holds_at rs p0 row c v Hrow) in Hh. naive_solver.
Qed.

(** The second index loop of [deleteRow]: the last row moves to [p0]. *)
Lemma index_consistent_delete_move rs c idx p0 moved :
  p0 ≠ length rs - 1 → p0 < length rs →
  rs !! (length rs - 1) = Some moved →
  bucket_spec idx (λ p v, row_holds rs p c v ∧ p ≠ p0) →
  index_consistent (take (length rs - 1) (<[p0 := moved]> rs)) c
    (match Row_Get moved c with
     | (value, true) => Index_Add (Index_Remove idx value (length rs - 1)) value p0
     | (_, false) => idx
     end).
Proof.
  intros Hne Hlt Hlast Hidx.
  assert (Hat : ∀ v, row_holds rs (length rs - 1) c v ↔ v ≠ VNil ∧ moved !! c = Some v)
    by (intros v; by apply row_holds_at).
  unfold Row_Get. destruct (moved !! c) as [value|] eqn:Hc.
  - eapply bucket_spec_iff.
    + apply bucket_spec_Add; [apply bucket_spec_Remove; exact Hidx|]. simpl. naive_solver.
    + intros p v. simpl. rewrite row_holds_take, row_holds_insert by done.
      split.
      * intros [[[Hh Hp] Hn]|(Hv & -> & ->)].
        -- pose proof (row_holds_lt _ _ _ _ Hh).
           assert (p ≠ length rs - 1); [|naive_solver lia].
           intros ->. apply Hat in Hh. naive_solver.
        -- split; [lia|]. right. naive_solver.
      * intros [Hp [[Hpp Hh]|(-> & Hv & Hm)]].
        -- left. naive_solver lia.
        -- right. naive_solver.
  - eapply bucket_spec_iff; [exact Hidx|].
    intros p v. simpl. rewrite row_holds_take, row_holds_insert by done.
    split.
    + intros [Hh Hp]. pose proof (row_holds_lt _ _ _ _ Hh).
      assert (p ≠ length rs - 1); [|naive_solver lia].
      intros ->. apply Hat in Hh. naive_solver.
    + naive_solver.
Qed.

Lemma index_consistent_delete_last rs c idx :
  bucket_spec idx (λ p v, row_holds rs p c v ∧ p ≠ length rs - 1) →
  index_consistent (take (length rs - 1) rs) c idx.
Proof.
  intros Hidx. eapply bucket_spec_iff; [exact Hidx|].
  intros p v. simpl. rewrite row_holds_take. split.
  - intros [Hh Hp]. pose proof (row_holds_lt _ _ _ _ Hh). naive_solver lia.
  - naive_solver lia.
Qed.

Lemma addRow_consistent t row :
  table_consistent t → table_consistent (addRow t row).1.
Proof.
  intros Ht c idx'. simpl. rewrite map_lookup_imap.
  destruct (indexes t !! c) as [idx|] eqn:Hidx; simpl; [|done].
  intros [= <-]. apply index_consistent_snoc. by apply Ht.
Qed.

Lemma updateRow_consistent t p0 newRow t' :
  table_consistent t → updateRow t p0 newRow = Some t' → table_consistent t'.
Proof.
  intros Ht. unfold updateRow.
  destruct (rows t !! p0) as [oldRow|] eqn:Hold; [|done].
  intros [= <-] c idx'. simpl. rewrite map_lookup_imap.
  destruct (indexes t !! c) as [idx|] eqn:Hidx; simpl; [|done].
  intros [= <-]. apply index_consistent_update; [done|]. by apply Ht.
Qed.

Lemma deleteRow_consistent t p0 t' :
  table_consistent t → deleteRow t p0 = Some t' → table_consistent t'.
Proof.
  intros Ht. unfold deleteRow.
  destruct (rows t !! p0) as [row|] eqn:Hrow; [|done].
  pose proof (lookup_lt_Some _ _ _ Hrow) as Hlt.
  case_decide as Hne.
  - destruct (rows t !! (length (rows t) - 1)) as [moved|] eqn:Hmoved; [|done].
    intros [= <-] c idx'. simpl. rewrite !map_lookup_imap.
    destruct (indexes t !! c) as [idx|] eqn:Hidx; simpl; [|done].
    intros [= <-]. apply index_consistent_delete_move; [done..|].
    apply bucket_spec_delete_first; [done|]. by apply Ht.
  - subst p0.
    intros [= <-] c idx'. simpl. rewrite map_lookup_imap.
    destruct (indexes t !! c) as [idx|] eqn:Hidx; simpl; [|done].
    intros [= <-]. apply index_consistent_delete_last.
    apply bucket_spec_delete_first; [done|]. by apply Ht.
Qed.

Lemma CreateIndex_consistent t c :
  table_consistent t → table_consistent (CreateIndex t c).1.
Proof.
  intros Ht. unfold CreateIndex.
  destruct (negb (hasColumn t c)); [done|].
  destruct (indexes t !! c) as [idx0|] eqn:Hidx0; [done|].
  intros c' idx'. simpl. destruct (decide (c = c')) as [<-|Hne].
  - rewrite lookup_insert_eq. intros [= <-].
    apply (build_index_consistent [] (rows t) c (NewIndex c)).
    eapply bucket_spec_iff; [apply bucket_spec_NewIndex|].
    intros p v. simpl. split; [done|]. intros H%row_holds_lt. simpl in H. lia.
  - rewrite lookup_insert_ne by done. apply Ht.
Qed.

Lemma NewTable_loop_consistent table cols :
  table_consistent table → table_consistent (NewTable_loop table cols).
Proof.
  revert table. induction cols as [|col cols IH]; intros table Ht; simpl; [done|].
  apply IH. destruct (PrimaryKey col).
  - apply CreateIndex_consistent. exact Ht.
  - destruct (Unique col); [by apply CreateIndex_consistent|done].
Qed.

Lemma NewTable_consistent nm sch : table_consistent (NewTable nm sch).
Proof. apply NewTable_loop_consistent. intros c idx. simpl. by rewrite lookup_empty. Qed.

Lemma reachable_consistent t : reachable t → table_consistent t.
Proof.
  induction 1 as [nm sch|t row _ IH|t p row t' _ IH Hu|t p t' _ IH Hd|t c _ IH].
  - apply NewTable_consistent.
  - by apply addRow_consistent.
  - by eapply updateRow_consistent.
  - by eapply deleteRow_consistent.
  - by apply CreateIndex_consistent.
Qed.

Lemma deleteRow_length t p0 t' :
  deleteRow t p0 = Some t' → length (rows t') = length (rows t) - 1.
Proof.
  unfold deleteRow. destruct (rows t !! p0) as [row|] eqn:Hrow; [|done].
  pose proof (lookup_lt_Some _ _ _ Hrow) as Hlt.
  case_decide.
  - destruct (rows t !! (length (rows t) - 1)); [|done].
    intros [= <-]. simpl. rewrite length_take, length_insert. lia.
  - intros [= <-]. simpl. rewrite length_take. lia.
Qed.
End consistency.

(** ** C1: index consistency *)

(** C1.  Every table that [NewTable], [addRow], [updateRow], [deleteRow] and
    [CreateIndex] can produce keeps its indexes consistent with its rows: for
    an index on column [c] and a position [p] below the number of rows, [p]
    is in [Lookup v] exactly when the row at [p] holds the non-null value [v]
    in column [c]; and after any [deleteRow] (in particular one that moves the
    last row into the vacated position) no bucket lists the old last
    position. *)
Theorem index_consistency_invariant (t : Table) :
  reachable t →
  (∀ c idx v p,
     indexes t !! c = Some idx → p < length (rows t) →
     p ∈ Index_Lookup idx v ↔
       ∃ r, rows t !! p = Some r ∧ r !! c = Some v ∧ v ≠ VNil)
  ∧ (∀ p0 t' c idx v,
       deleteRow t p0 = Some t' → indexes t' !! c = Some idx →
       length (rows t) - 1 ∉ Index_Lookup idx v).
Proof.
  intros Hreach. split.
  - intros c idx v p Hidx _.
    destruct (reachable_consistent t Hreach c idx Hidx v) as [_ Hin].
    rewrite Hin. unfold row_holds. naive_solver.
  - intros p0 t' c idx v Hdel Hidx Hin.
    assert (Ht' : table_consistent t').
    { eapply deleteRow_consistent; [|exact Hdel]. by apply reachable_consistent. }
    apply (Ht' c idx Hidx v) in Hin. apply row_holds_lt in Hin.
    apply deleteRow_length in Hdel. lia.
Qed.

Lemma index_consistency_invariant_witness :
  reachable users2
  ∧ (1 ∈ Index_Lookup (default (NewIndex "") (indexes users2 !! "email"%string))
           (VStr "b@x")
     ↔ ∃ r, rows users2 !! 1 = Some r
            ∧ r !! "email"%string = Some (VStr "b@x") ∧ VStr "b@x" ≠ VNil).
Proof.
  assert (Hreach : reachable users2) by (do 2 apply reach_addRow; apply reach_new).
  split; [exact Hreach|].
  apply (proj1 (index_consistency_invariant users2 Hreach) "email"%string).
  - vm_compute. reflexivity.
  - vm_compute. lia.
Defined.

(** Swap-remove on the sample table: carol moves from position 2 to 0, and
    the index on [id] follows. *)
Example deleteRow_swap_run :
  ∃ t' idx,
    deleteRow users3 0 = Some t'
    ∧ rows t' = [carol; bob]
    ∧ indexes t' !! "id"%string = Some idx
    ∧ Index_Lookup idx (VInt 3) = [0]
    ∧ Index_Lookup idx (VInt 2) = [1]
    ∧ Index_Lookup idx (VInt 1) = [].
Proof. eexists _, _. split_and!; vm_compute; reflexivity. Qed.

Example Insert_duplicate_primary_key_run :
  Insert sample_db "users" (<["email"%string := VStr "z@x"]> alice)
  = (sample_db, Some (ErrPrimaryKeyViolation "users" "id" (VInt 1))).
Proof. vm_compute. reflexivity. Qed.

(** ** Delete: backwards iteration over swap-remove *)

Section delete.
Implicit Types (t : Table) (pre kept : list Row) (row : Row).

(** [deleteRow] at the end of [pre] keeps [pre] and permutes what follows. *)
Lemma deleteRow_rows t pre row kept :
  rows t = pre ++ row :: kept →
  ∃ t' kept', deleteRow t (length pre) = Some t'
              ∧ rows t' = pre ++ kept' ∧ kept' ≡ₚ kept.
Proof.
  intros Hrows. unfold deleteRow. rewrite Hrows, list_lookup_middle by done.
  destruct kept as [|k kept0 _] using rev_ind.
  - rewrite decide_False by list_len.
    eexists _, []. split; [done|]. simpl. split; [|done].
    replace (length (pre ++ [row]) - 1) with (length pre) by list_len.
    by rewrite take_app_length, app_nil_r.
  - rewrite decide_True by list_len.
    assert (Hlast : length (pre ++ row :: kept0 ++ [k]) - 1
                    = length (pre ++ row :: kept0)) by list_len.
    rewrite Hlast.
    replace (pre ++ row :: kept0 ++ [k]) with ((pre ++ row :: kept0) ++ [k])
      by (by rewrite <- app_assoc).
    rewrite list_lookup_middle by done.
    eexists _, (k :: kept0). split; [done|]. simpl. split.
    + rewrite <- app_assoc. simpl.
      rewrite insert_app_r_alt by done. rewrite Nat.sub_diag. simpl.
      replace (pre ++ k :: kept0 ++ [k]) with ((pre ++ k :: kept0) ++ [k])
        by (by rewrite <- app_assoc).
      replace (length (pre ++ row :: kept0)) with (length (pre ++ k :: kept0))
        by list_len.
      by rewrite take_app_length.
    + by rewrite Permutation_app_comm.
Qed.

(** The loop, started below a suffix [kept] of rows that were looked at and
    left in the table. *)
Lemma Delete_loop_spec condition pre : ∀ t kept rowsAffected,
  rows t = pre ++ kept →
  ∃ t',
    Delete_loop (length pre) t condition rowsAffected
      = Some (t', rowsAffected + length (filter (λ r, matches condition r = true) pre))
    ∧ rows t' ≡ₚ filter (λ r, matches condition r = false) pre ++ kept.
Proof.
  induction pre as [|row pre IH] using rev_ind; intros t kept n Hrows.
  - exists t. simpl. rewrite Nat.add_0_r. by rewrite Hrows.
  - rewrite length_app, Nat.add_1_r. simpl.
    rewrite <- app_assoc in Hrows. simpl in Hrows.
    rewrite Hrows, list_lookup_middle by done.
    rewrite !filter_app, !filter_cons, !filter_nil. unfold matches.
    destruct (skips condition row) eqn:Hskip; simpl.
    + destruct (IH t (row :: kept) n Hrows) as (t' & Hloop & Hperm).
      exists t'. rewrite Hloop. unfold matches. rewrite app_nil_r.
      split; [done|]. by rewrite Hperm, <- app_assoc.
    + destruct (deleteRow_rows t pre row kept Hrows)
        as (t1 & kept1 & Hdel & Hrows1 & Hkept).
      rewrite Hdel.
      destruct (IH t1 kept1 (S n) Hrows1) as (t' & Hloop & Hperm).
      exists t'. rewrite Hloop. unfold matches. split.
      * rewrite length_app. simpl. do 2 f_equal. lia.
      * by rewrite Hperm, Hkept, app_nil_r.
Qed.

Lemma Delete_table_spec t condition :
  ∃ t',
    Delete_table t condition
      = Some (t', length (filter (λ r, matches condition r = true) (rows t)))
    ∧ rows t' ≡ₚ filter (λ r, matches condition r = false) (rows t).
Proof.
  destruct (Delete_loop_spec condition (rows t) t [] 0) as (t' & Hloop & Hperm).
  { by rewrite app_nil_r. }
  exists t'. unfold Delete_table. rewrite Hloop. split; [done|].
  by rewrite Hperm, app_nil_r.
Qed.

Lemma length_filter_matches condition (rs : list Row) :
  length (filter (λ r, matches condition r = false) rs)
  = length rs - length (filter (λ r, matches condition r = true) rs).
Proof.
  induction rs as [|r rs IH]; [done|].
  rewrite !filter_cons. pose proof (length_filter (λ r, matches condition r = true) rs).
  destruct (matches condition r); simpl; lia.
Qed.
End delete.

(** ** Candidate positions and the rows they denote *)

Section positions.
Implicit Types (rs pre : list Row) (m : list nat).

Lemma omap_lookup_seq_app pre rs :
  omap (λ p, (pre ++ rs) !! p) (seq (length pre) (length rs)) = rs.
Proof.
  revert pre. induction rs as [|r rs IH]; intros pre; [done|].
  simpl. rewrite list_lookup_middle by done. f_equal.
  specialize (IH (pre ++ [r])).
  rewrite <- app_assoc, length_app, Nat.add_1_r in IH. exact IH.
Qed.

Lemma omap_lookup_seq rs : omap (λ p, rs !! p) (seq 0 (length rs)) = rs.
Proof. apply (omap_lookup_seq_app [] rs). Qed.

Lemma omap_lookup_filter_seq_app (test : Row → bool) pre rs :
  omap (λ p, (pre ++ rs) !! p)
    (filter (λ p, from_option test false ((pre ++ rs) !! p) = true)
       (seq (length pre) (length rs)))
  = filter (λ r, test r = true) rs.
Proof.
  revert pre. induction rs as [|r rs IH]; intros pre; [done|].
  simpl. rewrite !filter_cons.
  specialize (IH (pre ++ [r])).
  rewrite <- app_assoc, length_app, Nat.add_1_r in IH. simpl in IH.
  rewrite list_lookup_middle by done. simpl.
  destruct (test r) eqn:Htest; simpl.
  - rewrite list_lookup_middle by done. f_equal. exact IH.
  - exact IH.
Qed.

(** A duplicate-free bucket listing exactly the positions of the rows that
    pass [test] denotes those rows, up to order. *)
Lemma bucket_rows_Permutation (test : Row → bool) rs m :
  NoDup m →
  (∀ p, p ∈ m ↔ ∃ r, rs !! p = Some r ∧ test r = true) →
  omap (λ p, rs !! p) m ≡ₚ filter (λ r, test r = true) rs.
Proof.
  intros Hnd Hin.
  rewrite <- (omap_lookup_filter_seq_app test [] rs). simpl.
  apply omap_Permutation. apply NoDup_Permutation; [done| |].
  - apply NoDup_filter, NoDup_seq.
  - intros p. rewrite Hin, list_elem_of_filter, elem_of_seq.
    split.
    + intros (r & Hr & Ht). rewrite Hr. simpl. split; [done|].
      apply lookup_lt_Some in Hr. lia.
    + intros [Ht _]. destruct (rs !! p) as [r|]; [eauto|done].
Qed.
End positions.

(** ** Select *)

Section select.
Implicit Types (t : Table) (cond : Condition).

Lemma Select_loop_spec t columns condition cands : ∀ results,
  Select_loop t columns condition cands results
  = results ++ map (λ r, projectRow r columns (schema t))
                 (filter (λ r, matches condition r = true)
                    (omap (λ p, rows t !! p) cands)).
Proof.
  induction cands as [|idx cands IH]; intros results; simpl.
  - by rewrite app_nil_r.
  - destruct (rows t !! idx) as [row|]; [|apply IH].
    destruct (skips condition row) eqn:Hs.
    + rewrite filter_cons, decide_False; [apply IH|].
      unfold matches. by rewrite Hs.
    + rewrite filter_cons, decide_True by (unfold matches; by rewrite Hs).
      rewrite IH. simpl. by rewrite <- app_assoc.
Qed.

Lemma Select_table_scan t columns condition :
  (∀ cond, condition = Some cond → Operator cond = "="%string →
           indexes t !! Cond_Column cond = None) →
  Select_table t columns condition
  = map (λ r, projectRow r columns (schema t))
      (filter (λ r, matches condition r = true) (rows t)).
Proof.
  intros Hno. unfold Select_table. rewrite Select_loop_spec. simpl.
  assert (candidateIndices t condition = seq 0 (length (rows t))) as ->.
  { unfold candidateIndices, GetIndex. destruct condition as [cond|]; [|done].
    case_decide as Hop; [|done]. by rewrite (Hno cond). }
  by rewrite omap_lookup_seq.
Qed.

Lemma Select_table_all t : Select_table t [] None = rows t.
Proof.
  rewrite Select_table_scan by done.
  induction (rows t) as [|r rs IH]; [done|].
  rewrite filter_cons_True by done. simpl. by rewrite IH.
Qed.

(** With operator [=] and a non-null value, a row satisfies the condition
    exactly when it holds that value. *)
Lemma evaluateCondition_eq row cond :
  Operator cond = "="%string →
  evaluateCondition row cond
  = bool_decide (row !! Cond_Column cond = Some (Cond_Value cond)).
Proof.
  intros Hop. unfold evaluateCondition, Row_Get.
  destruct (row !! Cond_Column cond) as [value|]; simpl.
  - rewrite Hop. simpl. apply bool_decide_ext. naive_solver.
  - done.
Qed.
End select.

(** ** C6: Delete *)

(** C6.  [Delete] removes exactly the rows that match the condition in the
    state before the call (all rows when the condition is nil) and returns
    their number [N]; the table then holds [originalCount - N] rows, the
    non-matching ones, so an unconditional [Select] returns that many rows and
    none of them satisfies the condition.  The loop never panics. *)
Theorem Delete_removes_exactly_matching db tableName t condition :
  GetTable db tableName = Ok t →
  ∃ t' N,
    Delete db tableName condition = Some (store db tableName t', N, None)
    ∧ N = length (filter (λ r, matches condition r = true) (rows t))
    ∧ rows t' ≡ₚ filter (λ r, matches condition r = false) (rows t)
    ∧ length (rows t') = length (rows t) - N
    ∧ Forall (λ r, matches condition r = false) (rows t')
    ∧ (condition = None → rows t' = [])
    ∧ Select (store db tableName t') tableName [] None = Ok (rows t').
Proof.
  intros Hget. destruct (Delete_table_spec t condition) as (t' & Hdel & Hperm).
  exists t', (length (filter (λ r, matches condition r = true) (rows t))).
  unfold Delete. rewrite Hget, Hdel. split_and!; [done..| | | |].
  - by rewrite Hperm, length_filter_matches.
  - rewrite Hperm. apply list.Forall_forall. intros r Hr.
    by apply list_elem_of_filter in Hr as [? _].
  - intros ->. apply Permutation_nil_r. rewrite Hperm.
    clear. induction (rows t) as [|r rs IH]; [done|]. by rewrite filter_cons_False.
  - unfold Select, GetTable, store. simpl. rewrite lookup_insert_eq.
    by rewrite Select_table_all.
Qed.

Lemma Delete_removes_exactly_matching_witness :
  GetTable sample_db "users" = Ok users3
  ∧ ∃ t' N,
      Delete sample_db "users" (Some cond_name_bob)
        = Some (store sample_db "users" t', N, None)
      ∧ N = length (filter (λ r, matches (Some cond_name_bob) r = true) (rows users3))
      ∧ rows t' ≡ₚ filter (λ r, matches (Some cond_name_bob) r = false) (rows users3)
      ∧ length (rows t') = length (rows users3) - N
      ∧ Forall (λ r, matches (Some cond_name_bob) r = false) (rows t')
      ∧ (Some cond_name_bob = None → rows t' = [])
      ∧ Select (store sample_db "users" t') "users" [] None = Ok (rows t').
Proof.
  split; [reflexivity|].
  apply (Delete_removes_exactly_matching sample_db "users" users3). reflexivity.
Defined.

(** ** C5: index fast path against full scan *)

Section select_equivalence.
Implicit Types (t : Table) (cond : Condition).

Lemma matches_eq cond (r : Row) :
  Operator cond = "="%string →
  matches (Some cond) r = true ↔ r !! Cond_Column cond = Some (Cond_Value cond).
Proof.
  intros Hop. unfold matches, skips. rewrite negb_involutive.
  rewrite evaluateCondition_eq by done. apply bool_decide_eq_true.
Qed.

(** Under the invariant, both paths select the rows that hold the value. *)
Lemma Select_table_eq t columns cond :
  table_consistent t → Operator cond = "="%string → Cond_Value cond ≠ VNil →
  Select_table t columns (Some cond)
  ≡ₚ map (λ r, projectRow r columns (schema t))
       (filter (λ r, r !! Cond_Column cond = Some (Cond_Value cond)) (rows t)).
Proof.
  intros Ht Hop Hv. unfold Select_table. rewrite Select_loop_spec. simpl.
  apply fmap_Permutation.
  rewrite <- (list_filter_iff _ _ (rows t) (λ r, matches_eq cond r Hop)).
  unfold candidateIndices, GetIndex. rewrite decide_True by done.
  destruct (indexes t !! Cond_Column cond) as [idx|] eqn:Hidx.
  - destruct (Ht _ _ Hidx (Cond_Value cond)) as [Hnd Hin].
    rewrite (bucket_rows_Permutation (matches (Some cond)) (rows t)); [|done|].
    + by rewrite list_filter_filter_r.
    + intros p. rewrite Hin. unfold row_holds.
      split.
      * intros (_ & r & Hr & Hc). exists r. split; [done|]. by apply matches_eq.
      * intros (r & Hr & Hm). split; [done|]. exists r. split; [done|].
        by apply matches_eq.
  - by rewrite omap_lookup_seq.
Qed.
End select_equivalence.

(** Where the two paths of [Select] do agree: in a state whose indexes are
    consistent, for a condition with operator [=] and a non-null value, the
    result is the same, up to order, whether or not there is an index on the
    condition's column: the projections of exactly the rows whose value in
    that column is the condition's value. *)
Theorem Select_index_scan_equivalence t1 t2 columns cond :
  table_consistent t1 → table_consistent t2 →
  rows t1 = rows t2 → schema t1 = schema t2 →
  Operator cond = "="%string → Cond_Value cond ≠ VNil →
  Select_table t1 columns (Some cond) ≡ₚ Select_table t2 columns (Some cond)
  ∧ Select_table t1 columns (Some cond)
    ≡ₚ map (λ r, projectRow r columns (schema t1))
         (filter (λ r, r !! Cond_Column cond = Some (Cond_Value cond)) (rows t1)).
Proof.
  intros Ht1 Ht2 Hrows Hschema Hop Hv.
  pose proof (Select_table_eq t1 columns cond Ht1 Hop Hv) as H1.
  pose proof (Select_table_eq t2 columns cond Ht2 Hop Hv) as H2.
  split; [|done]. rewrite H1, H2. by rewrite Hrows, Hschema.
Qed.

Lemma accounts_scan_reachable : reachable accounts_scan.
Proof. apply reach_addRow, reach_new. Qed.

Lemma accounts_indexed_reachable : reachable accounts_indexed.
Proof. apply reach_CreateIndex, accounts_scan_reachable. Qed.

Lemma Select_index_scan_equivalence_witness :
  table_consistent accounts_indexed ∧ table_consistent accounts_scan
  ∧ rows accounts_indexed = rows accounts_scan
  ∧ schema accounts_indexed = schema accounts_scan
  ∧ Operator cond_id_1 = "="%string ∧ Cond_Value cond_id_1 ≠ VNil
  ∧ Select_table accounts_indexed [] (Some cond_id_1)
    ≡ₚ Select_table accounts_scan [] (Some cond_id_1)
  ∧ Select_table accounts_indexed [] (Some cond_id_1)
    ≡ₚ map (λ r, projectRow r [] (schema accounts_indexed))
         (filter (λ r, r !! Cond_Column cond_id_1 = Some (Cond_Value cond_id_1))
            (rows accounts_indexed)).
Proof.
  assert (H1 := reachable_consistent _ accounts_indexed_reachable).
  assert (H2 := reachable_consistent _ accounts_scan_reachable).
  split_and!; [exact H1|exact H2|reflexivity|reflexivity|reflexivity|discriminate|..];
    apply (Select_index_scan_equivalence accounts_indexed accounts_scan [] cond_id_1);
    (exact H1 || exact H2 || reflexivity || discriminate).
Defined.

(** C5 (the code at the failing input).  Two tables with the same rows and
    consistent indexes, one with an index on [email] and one without, and the
    condition [email = nil]: the scan returns the row that stores an explicit
    nil, the index path returns nothing, because [Lookup] answers nothing for
    nil.  [InnerJoin] skips a nil join value before it chooses between index
    and scan, so its two paths agree; [Select] has no such guard. *)
Lemma Select_index_scan_differ_on_nil :
  table_consistent accounts_indexed ∧ table_consistent accounts_scan
  ∧ rows accounts_indexed = rows accounts_scan
  ∧ is_Some (indexes accounts_indexed !! Cond_Column cond_email_nil)
  ∧ indexes accounts_scan !! Cond_Column cond_email_nil = None
  ∧ Operator cond_email_nil = "="%string
  ∧ Select_table accounts_indexed [] (Some cond_email_nil) = []
  ∧ Select_table accounts_scan [] (Some cond_email_nil) = [anon]
  ∧ ¬ (∀ r, r ∈ Select_table accounts_indexed [] (Some cond_email_nil)
            ↔ r ∈ Select_table accounts_scan [] (Some cond_email_nil)).
Proof.
  split_and!.
  - apply reachable_consistent, accounts_indexed_reachable.
  - apply reachable_consistent, accounts_scan_reachable.
  - reflexivity.
  - vm_compute. eauto.
  - vm_compute. reflexivity.
  - reflexivity.
  - vm_compute. reflexivity.
  - vm_compute. reflexivity.
  - intros H. specialize (H anon).
    assert (Hs : Select_table accounts_scan [] (Some cond_email_nil) = [anon])
      by (vm_compute; reflexivity).
    assert (Hi : Select_table accounts_indexed [] (Some cond_email_nil) = [])
      by (vm_compute; reflexivity).
    rewrite Hs, Hi in H. apply (not_elem_of_nil anon). apply H.
    apply list_elem_of_singleton. reflexivity.
Qed.

(** ** C4: Update *)

Section update.
Implicit Types (t : Table) (pre post : list Row) (row : Row).

Lemma overlay_lookup (updates row : Row) (k : string) :
  overlay updates row !! k
  = match updates !! k with Some v => Some v | None => row !! k end.
Proof.
  unfold overlay, Row_Copy, Row_Set.
  apply (map_fold_weak_ind (λ newRow (m : Row),
    newRow !! k = match m !! k with Some v => Some v | None => row !! k end)).
  - by rewrite lookup_empty.
  - intros col val m newRow Hcol IH. destruct (decide (col = k)) as [->|Hne].
    + by rewrite !lookup_insert_eq.
    + by rewrite !lookup_insert_ne.
Qed.

Lemma updateRow_rows t pre row post newRow :
  rows t = pre ++ row :: post →
  ∃ t', updateRow t (length pre) newRow = Some t'
        ∧ rows t' = pre ++ newRow :: post.
Proof.
  intros Hrows. unfold updateRow. rewrite Hrows, list_lookup_middle by done.
  eexists. split; [done|]. simpl.
  rewrite insert_app_r_alt by done. by rewrite Nat.sub_diag.
Qed.

Lemma updated_skip updates condition row :
  skips condition row = true → updated updates condition row = row.
Proof. intros H. unfold updated, matches. by rewrite H. Qed.

Lemma updated_match updates condition row :
  skips condition row = false →
  updated updates condition row = overlay updates row.
Proof. intros H. unfold updated, matches. by rewrite H. Qed.

(** The loop at position [length pre], with enough fuel for what is left. *)
Lemma Update_loop_spec updates condition post : ∀ fuel t pre n,
  rows t = pre ++ post → length post < fuel →
  ∃ t' n' e,
    Update_loop fuel t updates condition (length pre) n = Some (t', n', e)
    ∧ match e with
      | None =>
          rows t' = pre ++ map (updated updates condition) post
          ∧ n' = n + length (filter (λ r, matches condition r = true) post)
      | Some err =>
          ∃ done_ row rest,
            post = done_ ++ row :: rest
            ∧ matches condition row = true
            ∧ ValidateUpdate t' row (overlay updates row) = Some err
            ∧ rows t' = pre ++ map (updated updates condition) done_ ++ row :: rest
            ∧ n' = n + length (filter (λ r, matches condition r = true) done_)
      end.
Proof.
  induction post as [|row post IH]; intros fuel t pre n Hrows Hfuel.
  - destruct fuel as [|fuel]; [simpl in Hfuel; lia|]. simpl.
    rewrite lookup_ge_None_2 by (rewrite Hrows; list_len).
    exists t, n, None. split; [done|]. split; [done|]. simpl. lia.
  - destruct fuel as [|fuel]; [simpl in Hfuel; lia|]. simpl in Hfuel. simpl.
    rewrite Hrows, list_lookup_middle by done.
    assert (HS : S (length pre) = length (pre ++ [row])) by list_len.
    destruct (skips condition row) eqn:Hskip.
    + assert (Hrows' : rows t = (pre ++ [row]) ++ post) by (by rewrite <- app_assoc).
      destruct (IH fuel t (pre ++ [row]) n Hrows' ltac:(lia))
        as (t' & n' & e & Hloop & Hres).
      rewrite HS, Hloop. exists t', n', e. split; [done|].
      rewrite filter_cons_False by (unfold matches; by rewrite Hskip).
      destruct e as [err|].
      * destruct Hres as (done_ & row' & rest & -> & Hm & Hv & Hr & Hn).
        exists (row :: done_), row', rest. split_and!; [done..| |].
        -- rewrite Hr, <- app_assoc. simpl. by rewrite updated_skip.
        -- by rewrite filter_cons_False by (unfold matches; by rewrite Hskip).
      * destruct Hres as [Hr Hn]. split; [|done].
        rewrite Hr, <- app_assoc. simpl. by rewrite updated_skip.
    + destruct (ValidateUpdate t row (overlay updates row)) as [err|] eqn:Hval.
      * exists t, n, (Some err). split; [done|].
        exists [], row, post. split_and!; [done| |done..|simpl; lia].
        unfold matches. by rewrite Hskip.
      * destruct (updateRow_rows t pre row post (overlay updates row) Hrows)
          as (t1 & Hupd & Hrows1).
        rewrite Hupd.
        assert (Hrows1' : rows t1 = (pre ++ [overlay updates row]) ++ post)
          by (by rewrite <- app_assoc).
        destruct (IH fuel t1 (pre ++ [overlay updates row]) (S n) Hrows1' ltac:(lia))
          as (t' & n' & e & Hloop & Hres).
        replace (S (length pre)) with (length (pre ++ [overlay updates row]))
          by list_len.
        rewrite Hloop. exists t', n', e. split; [done|].
        rewrite filter_cons_True by (unfold matches; by rewrite Hskip).
        destruct e as [err|].
        -- destruct Hres as (done_ & row' & rest & -> & Hm & Hv & Hr & Hn).
           exists (row :: done_), row', rest. split_and!; [done..| |].
           ++ rewrite Hr, <- app_assoc. simpl. by rewrite updated_match.
           ++ rewrite filter_cons_True by (unfold matches; by rewrite Hskip).
              simpl. lia.
        -- destruct Hres as [Hr Hn]. split; [|simpl; lia].
           rewrite Hr, <- app_assoc. simpl. by rewrite updated_match.
Qed.
End update.

Section update_trace.
Implicit Types (t s : Table) (pre post : list Row) (row : Row).

Lemma overlay_union (updates row : Row) : overlay updates row = updates ∪ row.
Proof.
  apply map_eq. intros k. rewrite overlay_lookup, lookup_union.
  by destruct (updates !! k), (row !! k).
Qed.

Lemma after_updates_S t updates condition j :
  after_updates t updates condition (S j)
  = s ← after_updates t updates condition j;
    match rows t !! j with
    | Some row =>
        if matches condition row then updateRow s j (updates ∪ row) else Some s
    | None => Some s
    end.
Proof. unfold after_updates. by rewrite seq_S, foldl_app. Qed.

Lemma validated_before_S t updates condition j :
  validated_before t updates condition j →
  (∀ row s, rows t !! j = Some row → matches condition row = true →
            after_updates t updates condition j = Some s →
            ValidateUpdate s row (updates ∪ row) = None) →
  validated_before t updates condition (S j).
Proof.
  intros Hbefore Hj i row s Hi Hrow Hm Hs.
  destruct (decide (i = j)) as [->|Hne]; [by eapply Hj|].
  eapply Hbefore; [|done..]. lia.
Qed.

(** The loop at position [length pre], in the table that the updates of the
    rows before it have left. *)
Lemma Update_loop_trace t updates condition post : ∀ fuel s pre n,
  rows t = pre ++ post →
  after_updates t updates condition (length pre) = Some s →
  rows s = map (overlaid updates condition) pre ++ post →
  validated_before t updates condition (length pre) →
  length post < fuel →
  ∃ t' n' e done_ rest,
    Update_loop fuel s updates condition (length pre) n = Some (t', n', e)
    ∧ post = done_ ++ rest
    ∧ after_updates t updates condition (length pre + length done_) = Some t'
    ∧ rows t' = map (overlaid updates condition) (pre ++ done_) ++ rest
    ∧ n' = n + length (filter (λ r, matches condition r = true) done_)
    ∧ validated_before t updates condition (length pre + length done_)
    ∧ match e with
      | Some err =>
          ∃ row rest', rest = row :: rest' ∧ matches condition row = true
                       ∧ ValidateUpdate t' row (updates ∪ row) = Some err
      | None => rest = []
      end.
Proof.
  induction post as [|row post IH]; intros fuel s pre n Hrows Hs Hrs Hval Hfuel.
  - destruct fuel as [|fuel]; [simpl in Hfuel; lia|]. simpl.
    rewrite lookup_ge_None_2 by (rewrite Hrs, length_app, length_map; simpl; lia).
    exists s, n, None, [], []. rewrite Nat.add_0_r, !app_nil_r in *. simpl.
    split_and!; [done..|lia|done|done].
  - destruct fuel as [|fuel]; [simpl in Hfuel; lia|]. simpl in Hfuel. simpl.
    assert (Hlen : length pre = length (map (overlaid updates condition) pre))
      by (by rewrite length_map).
    assert (Hj : rows t !! length pre = Some row)
      by (by rewrite Hrows, list_lookup_middle).
    assert (Hsj : rows s !! length pre = Some row)
      by (rewrite Hrs, Hlen; by apply list_lookup_middle).
    rewrite Hsj.
    assert (Hrows' : ∀ x : Row, pre ++ row :: post = (pre ++ [row]) ++ post)
      by (intros; by rewrite <- app_assoc).
    assert (HS : S (length pre) = length (pre ++ [row])) by list_len.
    destruct (skips condition row) eqn:Hskip.
    + assert (Hm : matches condition row = false)
        by (unfold matches; by rewrite Hskip).
      destruct (IH fuel s (pre ++ [row]) n) as
        (t' & n' & e & done_ & rest & Hloop & Hpost & Hafter & Hr & Hn & Hv & He).
      * by rewrite <- app_assoc.
      * rewrite <- HS, after_updates_S, Hs. simpl. by rewrite Hj, Hm.
      * rewrite map_app, <- app_assoc. simpl.
        assert (overlaid updates condition row = row) as ->
          by (unfold overlaid; by rewrite Hm).
        done.
      * rewrite <- HS. apply validated_before_S; [done|].
        intros row' s' Hrow'. rewrite Hj in Hrow'. injection Hrow' as <-. congruence.
      * lia.
      * rewrite HS, Hloop. exists t', n', e, (row :: done_), rest.
        rewrite <- HS in Hafter, Hv.
        replace (length pre + length (row :: done_))
          with (S (length pre) + length done_) by (simpl; lia).
        split_and!; [done|by rewrite Hpost|done| | |done|done].
        -- rewrite Hr. by rewrite <- app_assoc.
        -- rewrite filter_cons_False by congruence. done.
    + assert (Hm : matches condition row = true)
        by (unfold matches; by rewrite Hskip).
      rewrite overlay_union.
      destruct (ValidateUpdate s row (updates ∪ row)) as [err|] eqn:Hvalid.
      * exists s, n, (Some err), [], (row :: post).
        rewrite Nat.add_0_r, app_nil_r. simpl.
        split_and!; [done..|lia|done|]. by exists row, post.
      * destruct (updateRow_rows s (map (overlaid updates condition) pre) row post
                    (updates ∪ row) Hrs) as (s1 & Hupd & Hrows1).
        rewrite <- Hlen in Hupd. rewrite Hupd.
        destruct (IH fuel s1 (pre ++ [row]) (S n)) as
          (t' & n' & e & done_ & rest & Hloop & Hpost & Hafter & Hr & Hn & Hv & He).
        -- by rewrite <- app_assoc.
        -- rewrite <- HS, after_updates_S, Hs. simpl. by rewrite Hj, Hm.
        -- rewrite Hrows1, map_app, <- app_assoc. simpl.
           assert (overlaid updates condition row = updates ∪ row) as ->
             by (unfold overlaid; by rewrite Hm).
           done.
        -- rewrite <- HS. apply validated_before_S; [done|].
           intros row' s' Hrow' _ Hs'. rewrite Hj in Hrow'. injection Hrow' as <-.
           congruence.
        -- lia.
        -- rewrite HS, Hloop. exists t', n', e, (row :: done_), rest.
           rewrite <- HS in Hafter, Hv.
           replace (length pre + length (row :: done_))
             with (S (length pre) + length done_) by (simpl; lia).
           split_and!; [done|by rewrite Hpost|done| | |done|done].
           ++ rewrite Hr. by rewrite <- app_assoc.
           ++ rewrite filter_cons_True by done. simpl. lia.
Qed.

Lemma Update_table_trace t updates condition :
  ∃ t' n e done_ rest,
    Update_table t updates condition = Some (t', n, e)
    ∧ rows t = done_ ++ rest
    ∧ after_updates t updates condition (length done_) = Some t'
    ∧ rows t' = map (overlaid updates condition) done_ ++ rest
    ∧ n = length (filter (λ r, matches condition r = true) done_)
    ∧ validated_before t updates condition (length done_)
    ∧ match e with
      | Some err =>
          ∃ row rest', rest = row :: rest' ∧ matches condition row = true
                       ∧ ValidateUpdate t' row (updates ∪ row) = Some err
      | None => rest = []
      end.
Proof.
  destruct (Update_loop_trace t updates condition (rows t)
              (S (length (rows t))) t [] 0)
    as (t' & n & e & done_ & rest & Hloop & Hpost & Hafter & Hr & Hn & Hv & He);
    [done|done|done|intros i row s Hi; simpl in Hi; lia|lia|].
  exists t', n, e, done_, rest. by split_and!.
Qed.
End update_trace.

(** C4.  [Update] always returns, and the number of rows never changes.  It
    has then passed a prefix [done_] of the rows: every matching row of the
    prefix passed [ValidateUpdate] in the table as the earlier updates of
    this call had left it, and now carries the updates laid over its old
    value; the other rows of the prefix and all rows after it carry their old
    values; the count is the number of matching rows of the prefix.  Without
    an error the prefix is the whole table.  With an error the next row
    matches and its validation, in that table, gives the error returned.

    So (second part) when the k-th matching row, at the end of a prefix whose
    matching rows all pass validation, fails it, [Update] returns that error
    with the count [k-1] of the matching rows before it; these keep their new
    values without rollback, the failing row and all later rows keep their
    old values, and the number of rows is unchanged. *)
Theorem Update_partial_failure db tableName t updates condition :
  GetTable db tableName = Ok t →
  (∃ t' n e done_ rest,
     Update db tableName updates condition = Some (store db tableName t', n, e)
     ∧ length (rows t') = length (rows t)
     ∧ rows t = done_ ++ rest
     ∧ after_updates t updates condition (length done_) = Some t'
     ∧ rows t' = map (overlaid updates condition) done_ ++ rest
     ∧ n = length (filter (λ r, matches condition r = true) done_)
     ∧ validated_before t updates condition (length done_)
     ∧ match e with
       | Some err =>
           ∃ row rest', rest = row :: rest' ∧ matches condition row = true
                        ∧ ValidateUpdate t' row (updates ∪ row) = Some err
       | None => rest = []
       end)
  ∧ (∀ done_ row rest s err,
       rows t = done_ ++ row :: rest →
       matches condition row = true →
       after_updates t updates condition (length done_) = Some s →
       validated_before t updates condition (length done_) →
       ValidateUpdate s row (updates ∪ row) = Some err →
       Update db tableName updates condition
       = Some (store db tableName s,
               length (filter (λ r, matches condition r = true) done_),
               Some err)
       ∧ rows s = map (overlaid updates condition) done_ ++ row :: rest
       ∧ length (rows s) = length (rows t)).
Proof.
  intros Hget.
  destruct (Update_table_trace t updates condition)
    as (t' & n & e & done' & rest' & Hupd & Hrows & Hafter & Hr & Hn & Hv & He).
  assert (Hlen : length (rows t') = length (rows t))
    by (rewrite Hr, Hrows, !length_app, length_map; done).
  split.
  - exists t', n, e, done', rest'. unfold Update. rewrite Hget, Hupd.
    by split_and!.
  - intros done_ row rest s err Hdec Hm Hs Hvb Hfail.
    assert (Hj : rows t !! length done_ = Some row)
      by (by rewrite Hdec, list_lookup_middle).
    destruct (Nat.lt_trichotomy (length done') (length done_)) as [Hlt|[Heq|Hgt]].
    + exfalso. destruct e as [err'|].
      * destruct He as (row' & rest'' & -> & Hm' & Hfail').
        assert (ValidateUpdate t' row' (updates ∪ row') = None); [|congruence].
        apply (Hvb (length done') row' t' Hlt); [|done..].
        by rewrite Hrows, list_lookup_middle.
      * subst rest'. rewrite app_nil_r in Hrows.
        apply lookup_lt_Some in Hj. rewrite Hrows in Hj. lia.
    + assert (done' = done_ ∧ rest' = row :: rest) as [-> ->].
      { rewrite Hrows in Hdec. by apply app_inj_1 in Hdec. }
      rewrite Hafter in Hs. injection Hs as <-.
      destruct e as [err'|]; [|done].
      destruct He as (row' & rest'' & [= <- <-] & _ & Hfail').
      rewrite Hfail in Hfail'. injection Hfail' as <-.
      unfold Update. rewrite Hget, Hupd, Hn. done.
    + exfalso.
      assert (ValidateUpdate s row (updates ∪ row) = None); [|congruence].
      by apply (Hv (length done_) row s Hgt).
Qed.

Lemma Update_partial_failure_witness :
  GetTable sample_db "users" = Ok users3
  ∧ (∃ t' n e done_ rest,
      Update sample_db "users" email_to_alice None
        = Some (store sample_db "users" t', n, e)
      ∧ length (rows t') = length (rows users3)
      ∧ rows users3 = done_ ++ rest
      ∧ after_updates users3 email_to_alice None (length done_) = Some t'
      ∧ rows t' = map (overlaid email_to_alice None) done_ ++ rest
      ∧ n = length (filter (λ r, matches None r = true) done_)
      ∧ validated_before users3 email_to_alice None (length done_)
      ∧ match e with
        | Some err =>
            ∃ row rest', rest = row :: rest' ∧ matches None row = true
                         ∧ ValidateUpdate t' row (email_to_alice ∪ row) = Some err
        | None => rest = []
        end)
  ∧ ∃ s, after_updates users3 email_to_alice None 1 = Some s
         ∧ validated_before users3 email_to_alice None 1
         ∧ ValidateUpdate s bob (email_to_alice ∪ bob)
           = Some (ErrUniqueViolation "users" "email" (VStr "a@x"))
         ∧ Update sample_db "users" email_to_alice None
           = Some (store sample_db "users" s,
                   length (filter (λ r, matches None r = true) [alice]),
                   Some (ErrUniqueViolation "users" "email" (VStr "a@x")))
         ∧ rows s = map (overlaid email_to_alice None) [alice] ++ bob :: [carol]
         ∧ length (rows s) = length (rows users3).
Proof.
  split; [reflexivity|]. split.
  - apply (proj1 (Update_partial_failure sample_db "users" users3 email_to_alice
                    None eq_refl)).
  - assert (Hvb : validated_before users3 email_to_alice None 1).
    { intros i row s Hi Hrow _ Hs. assert (i = 0) as -> by lia.
      injection Hs as <-. injection Hrow as <-. vm_compute. reflexivity. }
    eexists. split; [vm_compute; reflexivity|]. split; [exact Hvb|].
    split; [vm_compute; reflexivity|].
    apply (proj2 (Update_partial_failure sample_db "users" users3 email_to_alice
                    None eq_refl) [alice] bob [carol]);
      [reflexivity|reflexivity|vm_compute; reflexivity|exact Hvb
      |vm_compute; reflexivity].
Defined.

(** The run of the witness: the first row is updated, the second fails. *)
Example Update_sample_run :
  ∃ t', Update sample_db "users" email_to_alice None
        = Some (store sample_db "users" t', 1,
                Some (ErrUniqueViolation "users" "email" (VStr "a@x")))
        ∧ rows t' = [alice; bob; carol].
Proof. eexists. split; vm_compute; reflexivity. Qed.

(** ** C7: InnerJoin *)

Section projection.
Implicit Types (row : Row) (columns : list string).

Lemma project_fold_lookup row columns k : ∀ acc : Row,
  foldl (λ result col, match Row_Get row col with
                       | (value, true) => Row_Set result col value
                       | (_, false) => result
                       end) acc columns !! k
  = if decide (k ∈ columns)
    then match row !! k with Some v => Some v | None => acc !! k end
    else acc !! k.
Proof.
  induction columns as [|col columns IH]; intros acc; simpl.
  - done.
  - rewrite IH. unfold Row_Get, Row_Set.
    destruct (decide (k = col)) as [->|Hne].
    + rewrite (decide_True (P := col ∈ col :: columns)) by left.
      destruct (row !! col) as [v|] eqn:Hv.
      * rewrite lookup_insert_eq. by case_decide.
      * by case_decide.
    + destruct (decide (k ∈ columns)) as [Hin|Hnin].
      * rewrite decide_True by (by right).
        destruct (row !! col); simpl; [by rewrite lookup_insert_ne|done].
      * rewrite decide_False by (intros [?|?]%elem_of_cons; done).
        destruct (row !! col); simpl; [by rewrite lookup_insert_ne|done].
Qed.
End projection.

Section join.
Implicit Types (l r : Row) (cond : JoinCondition).

Lemma mergeRows_keys l r leftTable rightTable key :
  is_Some (mergeRows l r leftTable rightTable !! key) →
  qualified leftTable rightTable key.
Proof.
  unfold mergeRows, Row_Set.
  apply (map_fold_weak_ind (λ result (m : Row),
    is_Some (result !! key) → qualified leftTable rightTable key)).
  - apply (map_fold_weak_ind (λ result (m : Row),
      is_Some (result !! key) → qualified leftTable rightTable key)).
    + rewrite lookup_empty. by intros [? ?].
    + intros col val m result _ IH.
      destruct (decide (qualify leftTable col = key)) as [<-|Hne].
      * intros _. exists col. by left.
      * by rewrite lookup_insert_ne.
  - intros col val m result _ IH.
    destruct (decide (qualify rightTable col = key)) as [<-|Hne].
    + intros _. exists col. by right.
    + by rewrite lookup_insert_ne.
Qed.

Lemma project_joined_keys (joinedRow : Row) selectColumns key :
  is_Some (project_joined joinedRow selectColumns !! key) →
  is_Some (joinedRow !! key).
Proof.
  unfold project_joined. case_decide as Hlen; [clear Hlen|done].
  assert (Hgen : ∀ acc : Row,
    (is_Some (acc !! key) → is_Some (joinedRow !! key)) →
    is_Some (foldl (λ projectedRow col,
               match Row_Get joinedRow col with
               | (value, true) => Row_Set projectedRow col value
               | (_, false) => projectedRow
               end) acc selectColumns !! key) →
    is_Some (joinedRow !! key)).
  { induction selectColumns as [|col cols IH]; intros acc Hacc; [exact Hacc|].
    simpl. apply IH. unfold Row_Get, Row_Set.
    destruct (joinedRow !! col) as [value|] eqn:Hcol; [|done].
    destruct (decide (col = key)) as [<-|Hne].
    - intros _. by rewrite Hcol.
    - by rewrite lookup_insert_ne. }
  apply Hgen. rewrite lookup_empty. by intros [? ?].
Qed.

Lemma join_emit_spec right l leftTable rightTable selectColumns matching :
  ∀ results,
  join_emit right l leftTable rightTable selectColumns matching results
  = results
    ++ map (λ r, project_joined (mergeRows l r leftTable rightTable) selectColumns)
         (omap (λ p, rows right !! p) matching).
Proof.
  induction matching as [|rightIdx rest IH]; intros results; simpl.
  - by rewrite app_nil_r.
  - destruct (rows right !! rightIdx) as [rightRow|]; [|apply IH].
    rewrite IH, <- app_assoc. done.
Qed.

Lemma scan_matching_spec rightColumn leftValue rs : ∀ pre matching,
  scan_matching rs rightColumn leftValue (length pre) matching
  = matching
    ++ filter (λ p, from_option (λ r, bool_decide (r !! rightColumn = Some leftValue))
                      false ((pre ++ rs) !! p) = true)
         (seq (length pre) (length rs)).
Proof.
  induction rs as [|r rs IH]; intros pre matching; simpl.
  - by rewrite app_nil_r.
  - specialize (IH (pre ++ [r])).
    rewrite <- app_assoc, length_app, Nat.add_1_r in IH. simpl in IH.
    rewrite filter_cons, list_lookup_middle by done. simpl.
    unfold Row_Get. destruct (r !! rightColumn) as [rightValue|] eqn:Hr; simpl.
    + destruct (decide (rightValue = leftValue)) as [->|Hne].
      * rewrite !bool_decide_eq_true_2 by done. simpl.
        rewrite IH, <- app_assoc. done.
      * rewrite !bool_decide_eq_false_2 by congruence. simpl. apply IH.
    + apply IH.
Qed.

Lemma join_related_Some cond l r v :
  l !! LeftColumn cond = Some v → v ≠ VNil →
  join_related cond l r = bool_decide (r !! RightColumn cond = Some v).
Proof.
  intros Hl Hv. unfold join_related. rewrite Hl.
  by rewrite bool_decide_eq_true_2.
Qed.

Lemma join_related_spec cond l r :
  join_related cond l r = true ↔
    ∃ v, v ≠ VNil ∧ l !! LeftColumn cond = Some v ∧ r !! RightColumn cond = Some v.
Proof.
  unfold join_related. destruct (l !! LeftColumn cond) as [v|]; [|naive_solver].
  rewrite andb_true_iff, !bool_decide_eq_true. naive_solver.
Qed.

(** The rows of the right table that the matching positions denote. *)
Lemma matching_rows right cond l v :
  (∀ idx, GetIndex right (RightColumn cond) = Some idx →
          index_consistent (rows right) (RightColumn cond) idx) →
  l !! LeftColumn cond = Some v → v ≠ VNil →
  omap (λ p, rows right !! p)
    (match GetIndex right (RightColumn cond) with
     | Some idx => Index_Lookup idx v
     | None => scan_matching (rows right) (RightColumn cond) v 0 []
     end)
  ≡ₚ filter (λ r, join_related cond l r = true) (rows right).
Proof.
  intros Hcons Hl Hv.
  rewrite (list_filter_iff _
             (λ r, bool_decide (r !! RightColumn cond = Some v) = true)).
  2:{ intros r. by rewrite (join_related_Some cond l r v). }
  destruct (GetIndex right (RightColumn cond)) as [idx|].
  - destruct (Hcons idx eq_refl v) as [Hnd Hin].
    apply bucket_rows_Permutation; [done|].
    intros p. rewrite Hin. unfold row_holds.
    setoid_rewrite bool_decide_eq_true. naive_solver.
  - rewrite (scan_matching_spec _ _ (rows right) [] []). simpl.
    by rewrite (omap_lookup_filter_seq_app _ [] (rows right)).
Qed.

Lemma join_pairs_cons l leftRows rightRows cond :
  join_pairs (l :: leftRows) rightRows cond
  = map (pair l) (filter (λ r, join_related cond l r = true) rightRows)
    ++ join_pairs leftRows rightRows cond.
Proof.
  unfold join_pairs. simpl. f_equal.
  induction rightRows as [|r rs IH]; [done|]. rewrite filter_cons. simpl.
  destruct (join_related cond l r); simpl; by rewrite <- IH.
Qed.

Lemma join_related_no_value cond l (rs : list Row) :
  l !! LeftColumn cond = None ∨ l !! LeftColumn cond = Some VNil →
  filter (λ r, join_related cond l r = true) rs = [].
Proof.
  intros Hl. induction rs as [|r rs IH]; [done|].
  rewrite filter_cons_False; [done|].
  unfold join_related. by destruct Hl as [-> | ->].
Qed.

Lemma join_loop_spec right cond leftTable rightTable selectColumns leftRows :
  (∀ idx, GetIndex right (RightColumn cond) = Some idx →
          index_consistent (rows right) (RightColumn cond) idx) →
  ∀ results,
  join_loop leftRows right (GetIndex right (RightColumn cond))
    leftTable rightTable cond selectColumns results
  ≡ₚ results
     ++ map (λ lr, project_joined (mergeRows lr.1 lr.2 leftTable rightTable)
                     selectColumns)
          (join_pairs leftRows (rows right) cond).
Proof.
  intros Hcons. induction leftRows as [|l leftRows IH]; intros results.
  - simpl. by rewrite app_nil_r.
  - rewrite join_pairs_cons, map_app, map_map. simpl.
    unfold Row_Get. destruct (l !! LeftColumn cond) as [v|] eqn:Hl; simpl.
    + destruct (decide (v = VNil)) as [->|Hv].
      * rewrite bool_decide_eq_true_2 by done. rewrite IH.
        rewrite join_related_no_value by auto. done.
      * rewrite bool_decide_eq_false_2 by done.
        rewrite IH, join_emit_spec.
        rewrite (matching_rows right cond l v Hcons Hl Hv).
        by rewrite <- app_assoc.
    + rewrite IH. rewrite join_related_no_value by auto. done.
Qed.

Lemma elem_of_join_pairs leftRows rightRows cond l r :
  (l, r) ∈ join_pairs leftRows rightRows cond ↔
    l ∈ leftRows ∧ r ∈ rightRows
    ∧ ∃ v, v ≠ VNil ∧ l !! LeftColumn cond = Some v
           ∧ r !! RightColumn cond = Some v.
Proof.
  unfold join_pairs. rewrite list_elem_of_bind. 
  setoid_rewrite list_elem_of_bind. rewrite <- join_related_spec. split.
  - intros (l' & (r' & Hin & Hr) & Hl).
    destruct (join_related cond l' r') eqn:Hrel; [|by apply elem_of_nil in Hin].
    apply list_elem_of_singleton in Hin as [= -> ->]. done.
  - intros (Hl & Hr & Hrel). exists l. split; [|done]. exists r. split; [|done].
    rewrite Hrel. by apply list_elem_of_singleton.
Qed.
End join.

Section join_spec.
Implicit Types (l r m : Row) (T : string).

#[global] Instance qualified_name_inj T : Inj (=) (=) (qualified_name T).
Proof.
  intros c1 c2. unfold qualified_name. induction T as [|a T IH]; simpl.
  - intros H. by injection H.
  - intros H. injection H as H. by apply IH.
Qed.

(** One loop of [mergeRows] renames the keys of its row and lays the result
    over what was there. *)
Lemma qualify_fold_union T (init m : Row) :
  map_fold (λ col val result, Row_Set result (qualify T col) val) init m
  = kmap (M2 := gmap string) (qualified_name T) m ∪ init.
Proof.
  unfold Row_Set.
  apply (map_fold_weak_ind (λ result (m0 : Row),
    result = kmap (M2 := gmap string) (qualified_name T) m0 ∪ init)).
  - by rewrite kmap_empty, (left_id_L ∅ (∪)).
  - intros col val m0 result Hcol ->.
    rewrite kmap_insert, <- insert_union_l; [done|apply qualified_name_inj].
Qed.

Lemma mergeRows_merged l r leftTable rightTable :
  mergeRows l r leftTable rightTable = merged leftTable rightTable l r.
Proof.
  unfold mergeRows, merged. rewrite !qualify_fold_union.
  by rewrite (right_id_L ∅ (∪)).
Qed.

Lemma project_joined_projection m selectColumns :
  project_joined m selectColumns = projection selectColumns m.
Proof.
  unfold project_joined, projection.
  destruct selectColumns as [|col cols]; [done|].
  rewrite decide_True by (simpl; lia). rewrite decide_False by done.
  apply map_eq. intros k. rewrite project_fold_lookup, lookup_empty.
  apply option_eq. intros v. rewrite map_lookup_filter_Some. simpl.
  case_decide; destruct (m !! k); naive_solver.
Qed.
End join_spec.

(** C7.  For two existing tables whose join columns are in their schemas, the
    right table's indexes being consistent, [InnerJoin] returns, up to order,
    one row per pair of a left row and a right row such that the left join
    value is non-null and equal to the right join value, and that row is the
    merged row of the pair: every left column under [leftTable.column], every
    right column under [rightTable.column], cut down to the selected names if
    any are given.  A left row whose join value is null or absent is in no
    pair, and every key of every output row is of the form
    [tableName.columnName]. *)
Theorem InnerJoin_correct db leftTable rightTable cond selectColumns ltab rtab :
  GetTable db leftTable = Ok ltab →
  GetTable db rightTable = Ok rtab →
  hasColumn ltab (LeftColumn cond) = true →
  hasColumn rtab (RightColumn cond) = true →
  table_consistent rtab →
  ∃ res,
    InnerJoin db leftTable rightTable cond selectColumns = Ok res
    ∧ res ≡ₚ map (λ lr, projection selectColumns
                          (merged leftTable rightTable lr.1 lr.2))
               (join_pairs (rows ltab) (rows rtab) cond)
    ∧ (∀ l r, (l, r) ∈ join_pairs (rows ltab) (rows rtab) cond ↔
         l ∈ rows ltab ∧ r ∈ rows rtab
         ∧ ∃ v, v ≠ VNil ∧ l !! LeftColumn cond = Some v
                ∧ r !! RightColumn cond = Some v)
    ∧ (∀ row key, row ∈ res → is_Some (row !! key) →
         ∃ col, key = String.append leftTable (String.append "." col)
                ∨ key = String.append rightTable (String.append "." col)).
Proof.
  intros Hl Hr Hlc Hrc Hcons.
  assert (Hperm := join_loop_spec rtab cond leftTable rightTable selectColumns
                     (rows ltab) (λ idx Hidx, Hcons _ idx Hidx) []).
  simpl in Hperm.
  assert (Hspec : ∀ lr : Row * Row,
            project_joined (mergeRows lr.1 lr.2 leftTable rightTable) selectColumns
            = projection selectColumns (merged leftTable rightTable lr.1 lr.2))
    by (intros lr; by rewrite mergeRows_merged, project_joined_projection).
  eexists. unfold InnerJoin. rewrite Hl, Hr, Hlc, Hrc. simpl.
  split; [reflexivity|]. split; [|split].
  - rewrite Hperm. by rewrite (map_ext _ _ Hspec).
  - intros l r. apply elem_of_join_pairs.
  - intros row key Hin Hkey. rewrite Hperm in Hin.
    apply list_elem_of_fmap in Hin as ([l r] & -> & _). simpl in Hkey.
    by eapply mergeRows_keys, project_joined_keys.
Qed.

Lemma users3_reachable : reachable users3.
Proof. do 3 apply reach_addRow. apply reach_new. Qed.

Lemma InnerJoin_correct_witness :
  GetTable blog_db "posts" = Ok posts3
  ∧ GetTable blog_db "users" = Ok users3
  ∧ hasColumn posts3 (LeftColumn posts_users) = true
  ∧ hasColumn users3 (RightColumn posts_users) = true
  ∧ table_consistent users3
  ∧ ∃ res,
      InnerJoin blog_db "posts" "users" posts_users [] = Ok res
      ∧ res ≡ₚ map (λ lr, projection [] (merged "posts" "users" lr.1 lr.2))
                 (join_pairs (rows posts3) (rows users3) posts_users)
      ∧ (∀ l r, (l, r) ∈ join_pairs (rows posts3) (rows users3) posts_users ↔
           l ∈ rows posts3 ∧ r ∈ rows users3
           ∧ ∃ v, v ≠ VNil ∧ l !! LeftColumn posts_users = Some v
                  ∧ r !! RightColumn posts_users = Some v)
      ∧ (∀ row key, row ∈ res → is_Some (row !! key) →
           ∃ col, key = String.append "posts" (String.append "." col)
                  ∨ key = String.append "users" (String.append "." col)).
Proof.
  assert (Hc := reachable_consistent _ users3_reachable).
  split_and!; [reflexivity..|exact Hc|].
  apply (InnerJoin_correct blog_db "posts" "users" posts_users [] posts3 users3);
    (reflexivity || exact Hc).
Defined.

(** The merged row of the first post and its user, as the specification
    describes it. *)
Example merged_sample :
  merged "posts" "users" post1 alice
  = {[ "posts.id"%string := VInt 10; "posts.user_id"%string := VInt 1;
       "users.id"%string := VInt 1; "users.name"%string := VStr "alice";
       "users.email"%string := VStr "a@x" ]}.
Proof. vm_compute. reflexivity. Qed.

(** The run of the witness: two posts of user 1, each merged with that user;
    the post whose [user_id] is nil yields nothing. *)
Example InnerJoin_sample_run :
  InnerJoin blog_db "posts" "users" posts_users ["posts.id"; "users.name"]%string
  = Ok [ {[ "posts.id"%string := VInt 10; "users.name"%string := VStr "alice" ]};
         {[ "posts.id"%string := VInt 11; "users.name"%string := VStr "alice" ]} ].
Proof. vm_compute. reflexivity. Qed.

(** ** C8: several primary-key columns *)

Section new_table.
Implicit Types (t table : Table) (cols : list Column).

Lemma CreateIndex_primaryKey t c : primaryKey (CreateIndex t c).1 = primaryKey t.
Proof.
  unfold CreateIndex. destruct (negb (hasColumn t c)); [done|].
  by destruct (indexes t !! c).
Qed.

Lemma CreateIndex_schema t c : schema (CreateIndex t c).1 = schema t.
Proof.
  unfold CreateIndex. destruct (negb (hasColumn t c)); [done|].
  by destruct (indexes t !! c).
Qed.

Lemma CreateIndex_indexes_mono t c c' :
  is_Some (indexes t !! c') → is_Some (indexes (CreateIndex t c).1 !! c').
Proof.
  unfold CreateIndex. destruct (negb (hasColumn t c)); [done|].
  destruct (indexes t !! c) eqn:Hc; [done|]. simpl.
  destruct (decide (c = c')) as [->|Hne].
  - by rewrite lookup_insert_eq.
  - by rewrite lookup_insert_ne.
Qed.

Lemma CreateIndex_indexed t c :
  hasColumn t c = true → is_Some (indexes (CreateIndex t c).1 !! c).
Proof.
  intros Hc. unfold CreateIndex. rewrite Hc. simpl.
  destruct (indexes t !! c) eqn:Hidx; simpl; [by rewrite Hidx|].
  by rewrite lookup_insert_eq.
Qed.

Lemma NewTable_loop_primaryKey cols : ∀ table,
  primaryKey (NewTable_loop table cols)
  = from_option Name (primaryKey table)
      (last (filter (λ c, PrimaryKey c = true) cols)).
Proof.
  induction cols as [|col cols IH]; intros table; [done|].
  simpl. rewrite IH, filter_cons.
  destruct (PrimaryKey col) eqn:Hpk; simpl.
  - rewrite CreateIndex_primaryKey. simpl. rewrite last_cons.
    by destruct (last (filter _ cols)).
  - destruct (Unique col); [by rewrite CreateIndex_primaryKey|done].
Qed.
End new_table.

(** C8.  A schema with two or more primary-key columns is accepted by
    [CreateTable] when the name is free, and the table's [primaryKey] is the
    name of the last primary-key column of the schema. *)
Theorem CreateTable_multiple_primary_keys db nm sch :
  tables db !! nm = None →
  2 ≤ length (filter (λ c, PrimaryKey c = true) sch) →
  ∃ db' t lastpk,
    CreateTable db nm sch = (db', None)
    ∧ tables db' !! nm = Some t
    ∧ last (filter (λ c, PrimaryKey c = true) sch) = Some lastpk
    ∧ primaryKey t = Name lastpk.
Proof.
  intros Hfree Hlen. unfold CreateTable. rewrite Hfree.
  destruct (last (filter (λ c, PrimaryKey c = true) sch)) as [lastpk|] eqn:Hlast.
  - eexists _, _, lastpk. split; [done|]. simpl. rewrite lookup_insert_eq.
    split; [done|]. split; [done|].
    unfold NewTable. by rewrite NewTable_loop_primaryKey, Hlast.
  - apply last_None in Hlast. rewrite Hlast in Hlen. simpl in Hlen. lia.
Qed.

Lemma CreateTable_multiple_primary_keys_witness :
  tables NewDatabase !! "t"%string = None
  ∧ 2 ≤ length (filter (λ c, PrimaryKey c = true) two_pk_schema)
  ∧ ∃ db' t lastpk,
      CreateTable NewDatabase "t" two_pk_schema = (db', None)
      ∧ tables db' !! "t"%string = Some t
      ∧ last (filter (λ c, PrimaryKey c = true) two_pk_schema) = Some lastpk
      ∧ primaryKey t = Name lastpk.
Proof.
  split; [reflexivity|]. split; [vm_compute; lia|].
  apply (CreateTable_multiple_primary_keys NewDatabase "t" two_pk_schema).
  - reflexivity.
  - vm_compute. lia.
Defined.

Example CreateTable_two_pk_run :
  primaryKey (NewTable "t" two_pk_schema) = "code"%string.
Proof. reflexivity. Qed.

(** ** C3: the primary-key check of ValidateInsert *)

Section validate_insert.
Implicit Types (t table : Table) (row : Row) (cols : list Column).

Lemma hasColumn_elem_of t (col : Column) :
  col ∈ schema t → hasColumn t (Name col) = true.
Proof.
  intros Hin. unfold hasColumn. apply existsb_exists. exists col.
  split; [by apply list_elem_of_In|]. by apply bool_decide_eq_true_2.
Qed.

Lemma pk_declared_preserved t t' :
  schema t' = schema t → primaryKey t' = primaryKey t →
  (∀ c, is_Some (indexes t !! c) → is_Some (indexes t' !! c)) →
  pk_declared t → pk_declared t'.
Proof.
  intros Hs Hp Hi Ht. unfold pk_declared. rewrite Hs, Hp. intros Hne.
  destruct (Ht Hne) as [Hidx Hcol]. split; [by apply Hi|done].
Qed.

Lemma imap_Some_is_Some (f : string → Index → Index) (m : gmap string Index) c :
  is_Some (m !! c) → is_Some (map_imap (λ k idx, Some (f k idx)) m !! c).
Proof. intros [idx Hidx]. rewrite map_lookup_imap, Hidx. simpl. eauto. Qed.

Lemma NewTable_loop_pk_declared cols : ∀ table,
  (∀ col, col ∈ cols → col ∈ schema table) →
  pk_declared table → pk_declared (NewTable_loop table cols).
Proof.
  induction cols as [|col cols IH]; intros table Hsub Hpk; [done|].
  simpl. assert (Hcol : col ∈ schema table) by (apply Hsub; left).
  destruct (PrimaryKey col) eqn:Hflag.
  - apply IH.
    + intros c Hc. rewrite CreateIndex_schema. simpl. apply Hsub. by right.
    + intros Hne. rewrite CreateIndex_primaryKey, CreateIndex_schema. simpl.
      split; [|by exists col].
      apply CreateIndex_indexed. by apply (hasColumn_elem_of
        {| name := name table; schema := schema table; rows := rows table;
           primaryKey := Name col; indexes := indexes table |}).
  - destruct (Unique col).
    + apply IH.
      * intros c Hc. rewrite CreateIndex_schema. apply Hsub. by right.
      * apply (pk_declared_preserved table); [apply CreateIndex_schema
          |apply CreateIndex_primaryKey| |exact Hpk].
        intros c. apply CreateIndex_indexes_mono.
    + apply IH; [|done]. intros c Hc. apply Hsub. by right.
Qed.

Lemma reachable_pk_declared t : reachable t → pk_declared t.
Proof.
  induction 1 as [nm sch|t row _ IH|t p row t' _ IH Hu|t p t' _ IH Hd|t c _ IH].
  - apply NewTable_loop_pk_declared; [done|]. intros Hne. by simpl in Hne.
  - apply (pk_declared_preserved t); [done|done| |exact IH].
    intros c. simpl. apply imap_Some_is_Some.
  - unfold updateRow in Hu. destruct (rows t !! p); [|done].
    injection Hu as <-. apply (pk_declared_preserved t); [done|done| |exact IH].
    intros c. simpl. apply imap_Some_is_Some.
  - unfold deleteRow in Hd. destruct (rows t !! p); [|done].
    case_decide.
    + destruct (rows t !! (length (rows t) - 1)); [|done].
      injection Hd as <-. apply (pk_declared_preserved t); [done|done| |exact IH].
      intros c Hc. simpl. by do 2 apply imap_Some_is_Some.
    + injection Hd as <-. apply (pk_declared_preserved t); [done|done| |exact IH].
      intros c. simpl. apply imap_Some_is_Some.
  - apply (pk_declared_preserved t); [apply CreateIndex_schema
      |apply CreateIndex_primaryKey| |exact IH].
    intros c'. apply CreateIndex_indexes_mono.
Qed.

(** The not-null phase rejects a row lacking a value for a required column. *)
Lemma not_null_loop_fails t row cols (col : Column) :
  col ∈ cols → PrimaryKey col = true →
  row !! Name col = Some VNil ∨ row !! Name col = None →
  is_Some (not_null_loop t row cols).
Proof.
  intros Hin Hflag Hrow. induction cols as [|c cols IH]; [by apply elem_of_nil in Hin|].
  simpl. apply elem_of_cons in Hin as [<-|Hin].
  - rewrite Hflag, orb_true_r. unfold Row_Get.
    destruct Hrow as [-> | ->]; simpl; eauto.
  - destruct (NotNull c || PrimaryKey c); [|by apply IH].
    destruct (Row_Get row (Name c)) as [value hasValue].
    destruct (negb hasValue || bool_decide (value = VNil)); [eauto|by apply IH].
Qed.

Lemma insert_pk_check_absent t row :
  primaryKey t ≠ ""%string → row !! primaryKey t = None →
  insert_pk_check t row = Some (ErrMissingRequiredColumn (name t) (primaryKey t)).
Proof.
  intros Hne Hrow. unfold insert_pk_check, Row_Get.
  rewrite decide_True by done. by rewrite Hrow.
Qed.

Lemma insert_pk_check_nil t row :
  is_Some (indexes t !! primaryKey t) → row !! primaryKey t = Some VNil →
  insert_pk_check t row = None.
Proof.
  intros [idx Hidx] Hrow. unfold insert_pk_check, Row_Get.
  case_decide as Hne; [|done]. rewrite Hrow. simpl.
  unfold hasPrimaryKeyValue. rewrite decide_False by done. by rewrite Hidx.
Qed.
End validate_insert.

(** C3 (as amended).  In a table with a primary key, a row that lacks the
    primary-key column is rejected by the first check, with
    [MissingRequiredColumn] naming that column, whatever the unique columns
    hold.  A row that maps the primary-key column to nil passes the first
    check: it is still rejected, but by the later phases, the unique checks
    first and the not-null checks after them. *)
Theorem ValidateInsert_missing_primary_key t row :
  reachable t → primaryKey t ≠ ""%string →
  (row !! primaryKey t = None →
     ValidateInsert t row = Some (ErrMissingRequiredColumn (name t) (primaryKey t)))
  ∧ (row !! primaryKey t = Some VNil →
       is_Some (ValidateInsert t row)
       ∧ ValidateInsert t row
         = match insert_unique_loop t row (schema t) with
           | Some e => Some e
           | None => not_null_loop t row (schema t)
           end).
Proof.
  intros Hreach Hne. split.
  - intros Hrow. unfold ValidateInsert. by rewrite insert_pk_check_absent.
  - intros Hrow. destruct (reachable_pk_declared t Hreach Hne) as [Hidx (col & Hin & Hname & Hflag)].
    unfold ValidateInsert. rewrite insert_pk_check_nil by done.
    split; [|done].
    destruct (insert_unique_loop t row (schema t)); [eauto|].
    apply (not_null_loop_fails t row (schema t) col); [done..|].
    left. by rewrite Hname.
Qed.

Lemma users1_reachable : reachable users1.
Proof. apply reach_addRow, reach_new. Qed.

Lemma ValidateInsert_missing_primary_key_witness :
  reachable users1 ∧ primaryKey users1 ≠ ""%string
  ∧ (no_pk_row !! primaryKey users1 = None →
       ValidateInsert users1 no_pk_row
       = Some (ErrMissingRequiredColumn (name users1) (primaryKey users1)))
  ∧ (nil_pk_row !! primaryKey users1 = Some VNil →
       is_Some (ValidateInsert users1 nil_pk_row)).
Proof.
  assert (Hne : primaryKey users1 ≠ ""%string) by (vm_compute; discriminate).
  split; [exact users1_reachable|]. split; [exact Hne|]. split.
  - apply (ValidateInsert_missing_primary_key users1 no_pk_row users1_reachable Hne).
  - intros Hrow.
    apply (ValidateInsert_missing_primary_key users1 nil_pk_row users1_reachable Hne).
    exact Hrow.
Defined.

(** C3 as stated fails for a primary key that is present but nil: the row
    below also repeats an existing e-mail, and the error is the
    [UniqueViolation], not [MissingRequiredColumn]. *)
Lemma ValidateInsert_nil_primary_key_unique_first :
  reachable users1
  ∧ primaryKey users1 = "id"%string
  ∧ nil_pk_row !! primaryKey users1 = Some VNil
  ∧ ValidateInsert users1 nil_pk_row
    = Some (ErrUniqueViolation "users" "email" (VStr "a@x"))
  ∧ ValidateInsert users1 nil_pk_row
    ≠ Some (ErrMissingRequiredColumn (name users1) (primaryKey users1)).
Proof.
  split; [exact users1_reachable|].
  split; [reflexivity|]. split; [reflexivity|].
  split; [vm_compute; reflexivity|]. vm_compute. discriminate.
Qed.

(** ** C2: ordering operators on values that are not ordered *)

Section compare.
Implicit Types (a b : Value) (row : Row) (cond : Condition).

Lemma compareValues_unordered a b : orderable a b = false → compareValues a b = 0%Z.
Proof. by destruct a, b. Qed.

(** What the code does for a pair that is not ordered: [>] and [<] are
    false; [>=] and [<=] are true as soon as the row has the column. *)
Lemma evaluateCondition_unordered_strict row cond value :
  row !! Cond_Column cond = Some value →
  orderable value (Cond_Value cond) = false →
  Operator cond = ">"%string ∨ Operator cond = "<"%string →
  evaluateCondition row cond = false.
Proof.
  intros Hrow Hord Hop. unfold evaluateCondition, Row_Get. rewrite Hrow. simpl.
  rewrite (compareValues_unordered _ _ Hord).
  destruct Hop as [-> | ->]; reflexivity.
Qed.

Lemma evaluateCondition_unordered_weak row cond value :
  row !! Cond_Column cond = Some value →
  orderable value (Cond_Value cond) = false →
  Operator cond = ">="%string ∨ Operator cond = "<="%string →
  evaluateCondition row cond = true.
Proof.
  intros Hrow Hord Hop. unfold evaluateCondition, Row_Get. rewrite Hrow. simpl.
  rewrite (compareValues_unordered _ _ Hord).
  destruct Hop as [-> | ->]; reflexivity.
Qed.
End compare.

(** C2 (the code at the failing inputs).  An integer against a string, and
    two booleans: [compareValues] answers 0, so [>=] and [<=] hold, while [>]
    and [<] do not. *)
Theorem evaluateCondition_unordered_ge_le_match :
  evaluateCondition age30 (mkCondition "age" ">=" (VStr "thirty")) = true
  ∧ evaluateCondition age30 (mkCondition "age" "<=" (VStr "thirty")) = true
  ∧ evaluateCondition flag_row (mkCondition "ok" ">=" (VBool false)) = true
  ∧ evaluateCondition flag_row (mkCondition "ok" "<=" (VBool false)) = true
  ∧ evaluateCondition age30 (mkCondition "age" ">" (VStr "thirty")) = false
  ∧ evaluateCondition age30 (mkCondition "age" "<" (VStr "thirty")) = false.
Proof. repeat split; reflexivity. Qed.

(** ** C9: the writer lock *)

Section locking.
(** The registry is written under the writer lock. *)
Lemma CreateTable_holds_writer_lock db nm :
  writes_hold_writer_lock unlocked (CreateTable_events db nm) = true.
Proof. unfold CreateTable_events. by destruct (tables db !! nm). Qed.

(** A successful [Insert] writes the table after [GetTable] has released
    the reader lock, holding no lock at all. *)
Lemma Insert_writes_unlocked db tableName row :
  (Insert db tableName row).2 = None →
  writes_hold_writer_lock unlocked (Insert_events db tableName row) = false.
Proof.
  unfold Insert, Insert_events. destruct (GetTable db tableName) as [table|e]; [|done].
  by destruct (ValidateInsert table row).
Qed.
End locking.

(** C9 (the code at the failing input).  Inserting a valid row writes the
    table's rows and indexes while the writer lock is not held: the only lock
    [Insert] takes is the reader lock inside [GetTable], released before the
    write.  [CreateTable], in contrast, writes under the writer lock. *)
Theorem Insert_mutates_without_writer_lock :
  (Insert sample_db "users" dave).2 = None
  ∧ Insert_events sample_db "users" dave
    = [EvRLock; EvRegistryRead; EvRUnlock; EvTableRead "users"; EvTableWrite "users"]
  ∧ writes_hold_writer_lock unlocked (Insert_events sample_db "users" dave) = false
  ∧ writes_hold_writer_lock unlocked
      (Delete_events sample_db "users" (Some cond_name_bob)) = false
  ∧ writes_hold_writer_lock unlocked
      (Update_events sample_db "users" {[ "name"%string := VStr "x" ]} None) = false
  ∧ writes_hold_writer_lock unlocked
      (CreateIndex_events sample_db "users" "name") = false
  ∧ writes_hold_writer_lock unlocked (CreateTable_events sample_db "posts") = true.
Proof. repeat split; vm_compute; reflexivity. Qed.

(** ** C10: a row without the condition's column *)

Section missing_column.
Implicit Types (t : Table) (row : Row) (cond : Condition).

Lemma evaluateCondition_missing row cond :
  row !! Cond_Column cond = None → evaluateCondition row cond = false.
Proof. intros Hrow. unfold evaluateCondition, Row_Get. by rewrite Hrow. Qed.

Lemma Update_table_skipped t updates condition t' n e p row :
  Update_table t updates condition = Some (t', n, e) →
  rows t !! p = Some row → skips condition row = true →
  rows t' !! p = Some row.
Proof.
  intros Hupd Hp Hskip.
  destruct (Update_loop_spec updates condition (rows t) (S (length (rows t))) t [] 0)
    as (t1 & n1 & e1 & Hloop & Hres); [done|lia|].
  change (length (@nil Row)) with 0 in Hloop.
  unfold Update_table in Hupd. rewrite Hloop in Hupd. injection Hupd as -> -> ->.
  assert (Hmap : ∀ l : list Row, l !! p = Some row →
            map (updated updates condition) l !! p = Some row).
  { intros l Hl. rewrite list_lookup_fmap, Hl. simpl. by rewrite updated_skip. }
  destruct e as [err|].
  - destruct Hres as (done_ & row' & rest & Hrows & _ & _ & Hr & _).
    simpl in Hr. rewrite Hr. rewrite Hrows in Hp.
    destruct (decide (p < length done_)) as [Hlt|Hge].
    + rewrite lookup_app_l in Hp by done.
      rewrite lookup_app_l by (by rewrite length_map). by apply Hmap.
    + rewrite lookup_app_r in Hp by lia.
      rewrite lookup_app_r by (rewrite length_map; lia). by rewrite length_map.
  - destruct Hres as [Hr _]. simpl in Hr. rewrite Hr. by apply Hmap.
Qed.

Lemma Delete_table_skipped t condition t' n row :
  Delete_table t condition = Some (t', n) → skips condition row = true →
  length (filter (λ r, r = row) (rows t')) = length (filter (λ r, r = row) (rows t)).
Proof.
  intros Hdel Hskip. destruct (Delete_table_spec t condition) as (t1 & Hd & Hperm).
  rewrite Hd in Hdel. injection Hdel as -> _.
  rewrite Hperm. rewrite list_filter_filter_l; [done|].
  intros r ->. unfold matches. by rewrite Hskip.
Qed.
End missing_column.

(** C10.  A row that does not have the condition's column satisfies no
    condition, whatever the operator, [!=] included.  So the loop of [Select]
    passes over such a row without appending a result, [Update] leaves it in
    place unchanged, and [Delete] keeps every copy of it. *)
Theorem missing_column_never_matches row cond :
  row !! Cond_Column cond = None →
  evaluateCondition row cond = false
  ∧ (∀ t columns p cands results,
       rows t !! p = Some row →
       Select_loop t columns (Some cond) (p :: cands) results
       = Select_loop t columns (Some cond) cands results)
  ∧ (∀ t updates t' n e p,
       Update_table t updates (Some cond) = Some (t', n, e) →
       rows t !! p = Some row → rows t' !! p = Some row)
  ∧ (∀ t t' n,
       Delete_table t (Some cond) = Some (t', n) →
       length (filter (λ r, r = row) (rows t'))
       = length (filter (λ r, r = row) (rows t))).
Proof.
  intros Hrow. pose proof (evaluateCondition_missing row cond Hrow) as Heval.
  assert (Hskip : skips (Some cond) row = true) by (simpl; by rewrite Heval).
  split_and!.
  - done.
  - intros t columns p cands results Hp. simpl. by rewrite Hp, Heval.
  - intros t updates t' n e p Hupd Hp. by eapply Update_table_skipped.
  - intros t t' n Hdel. by eapply Delete_table_skipped.
Qed.

Lemma missing_column_never_matches_witness :
  no_age !! Cond_Column cond_age_ne = None
  ∧ evaluateCondition no_age cond_age_ne = false.
Proof.
  split; [reflexivity|].
  apply (missing_column_never_matches no_age cond_age_ne). reflexivity.
Defined.

(** * Further properties of the engine *)

(** ** index.go: buckets are never empty, nil is never a key *)

Section index_wf.
Implicit Types (idx : Index) (v w : Value) (p q : nat).

Lemma filter_keeps_all {A} (P : A → Prop) `{!∀ x, Decision (P x)} (l : list A) :
  (∀ x, x ∈ l → P x) → filter P l = l.
Proof.
  induction l as [|x l IH]; intros Hall; [done|].
  rewrite filter_cons_True by (apply Hall; left).
  f_equal. apply IH. intros y Hy. apply Hall. by right.
Qed.

Lemma filter_drops_all {A} (P : A → Prop) `{!∀ x, Decision (P x)} (l : list A) :
  (∀ x, x ∈ l → ¬ P x) → filter P l = [].
Proof.
  induction l as [|x l IH]; intros Hall; [done|].
  rewrite filter_cons_False by (apply Hall; left).
  apply IH. intros y Hy. apply Hall. by right.
Qed.

Lemma index_wf_NewIndex c : index_wf (NewIndex c).
Proof. split; [done|]. intros v l. simpl. by rewrite lookup_empty. Qed.

Lemma index_wf_Add idx v p : index_wf idx → index_wf (Index_Add idx v p).
Proof.
  intros [Hnil Hne]. unfold Index_Add. case_decide as Hv; [done|]. split; simpl.
  - by rewrite lookup_insert_ne.
  - intros w l. destruct (decide (v = w)) as [<-|Hvw].
    + rewrite lookup_insert_eq. intros [= <-]. by destruct (default [] (data idx !! v)).
    + rewrite lookup_insert_ne by done. apply Hne.
Qed.

Lemma index_wf_Remove idx v p : index_wf idx → index_wf (Index_Remove idx v p).
Proof.
  intros [Hnil Hne]. unfold Index_Remove. case_decide as Hv; [done|].
  destruct (data idx !! v) as [indices|] eqn:Hd; [|done].
  destruct (decide (length (filter (λ i, i ≠ p) indices) = 0)) as [Hlen|Hlen];
    split; simpl.
  - by rewrite lookup_delete_ne.
  - intros w l. destruct (decide (v = w)) as [<-|Hvw].
    + by rewrite lookup_delete_eq.
    + rewrite lookup_delete_ne by done. apply Hne.
  - by rewrite lookup_insert_ne.
  - intros w l. destruct (decide (v = w)) as [<-|Hvw].
    + rewrite lookup_insert_eq. intros [= <-] Hnil'. by rewrite Hnil' in Hlen.
    + rewrite lookup_insert_ne by done. apply Hne.
Qed.

Lemma index_reachable_wf idx : index_reachable idx → index_wf idx.
Proof.
  induction 1.
  - apply index_wf_NewIndex.
  - by apply index_wf_Add.
  - by apply index_wf_Remove.
  - by apply index_wf_Add, index_wf_Remove.
Qed.

Lemma Index_Has_Lookup_wf idx v :
  index_wf idx → Index_Has idx v = true ↔ Index_Lookup idx v ≠ [].
Proof.
  intros [Hnil Hne]. unfold Index_Has, Index_Lookup. case_decide as Hv; [done|].
  rewrite bool_decide_eq_true. destruct (data idx !! v) as [l|] eqn:Hd; simpl.
  - split; [intros _; by eapply Hne|eauto].
  - split; [by intros [? ?]|done].
Qed.

Lemma Index_Remove_Add_wf idx v p :
  index_wf idx → p ∉ Index_Lookup idx v →
  Index_Remove (Index_Add idx v p) v p = idx.
Proof.
  intros [Hnil Hne] Hp. unfold Index_Lookup in Hp. unfold Index_Add, Index_Remove.
  destruct (decide (v = VNil)) as [Hv|Hv]; [done|]. simpl.
  rewrite lookup_insert_eq, filter_app, filter_cons_False, filter_nil, app_nil_r
    by (intros H; by apply H).
  assert (Hfilter : filter (λ i, i ≠ p) (default [] (data idx !! v))
                    = default [] (data idx !! v)).
  { apply filter_keeps_all. intros i Hi ->. done. }
  rewrite Hfilter. destruct idx as [col dat]. simpl in *.
  destruct (dat !! v) as [l|] eqn:Hd; simpl.
  - rewrite decide_False.
    2:{ intros Hl. apply nil_length_inv in Hl. by eapply Hne. }
    f_equal. rewrite insert_insert_eq. by apply insert_id.
  - f_equal. rewrite delete_insert_eq. by apply delete_id.
Qed.
End index_wf.

(** X1.  In an index built by [Add], [Remove] and [Update] from an empty one,
    [Has] answers true exactly for the values whose [Lookup] is not empty:
    [Remove] drops the bucket it empties and nil is never a key. *)
Theorem Index_Has_iff_Lookup idx v :
  index_reachable idx → Index_Has idx v = true ↔ Index_Lookup idx v ≠ [].
Proof. intros H. by apply Index_Has_Lookup_wf, index_reachable_wf. Qed.

Lemma Index_Has_iff_Lookup_witness :
  index_reachable (Index_Remove (Index_Add (NewIndex "id") (VInt 1) 0) (VInt 1) 0)
  ∧ (Index_Has (Index_Remove (Index_Add (NewIndex "id") (VInt 1) 0) (VInt 1) 0)
       (VInt 1) = true
     ↔ Index_Lookup (Index_Remove (Index_Add (NewIndex "id") (VInt 1) 0) (VInt 1) 0)
         (VInt 1) ≠ []).
Proof.
  assert (H : index_reachable
                (Index_Remove (Index_Add (NewIndex "id") (VInt 1) 0) (VInt 1) 0))
    by (do 2 constructor).
  split; [exact H|]. apply (Index_Has_iff_Lookup _ (VInt 1) H).
Defined.

(** X2.  [Remove] undoes [Add]: adding a position that the value's bucket does
    not list and removing it again gives back the very same index, the bucket
    being deleted again if [Add] had created it. *)
Theorem Index_Remove_Add idx v p :
  index_reachable idx → p ∉ Index_Lookup idx v →
  Index_Remove (Index_Add idx v p) v p = idx.
Proof. intros H. by apply Index_Remove_Add_wf, index_reachable_wf. Qed.

Lemma Index_Remove_Add_witness :
  index_reachable (Index_Add (NewIndex "id") (VInt 1) 0)
  ∧ (1 ∉ Index_Lookup (Index_Add (NewIndex "id") (VInt 1) 0) (VInt 2))
  ∧ Index_Remove (Index_Add (Index_Add (NewIndex "id") (VInt 1) 0) (VInt 2) 1)
      (VInt 2) 1
    = Index_Add (NewIndex "id") (VInt 1) 0.
Proof.
  assert (H : index_reachable (Index_Add (NewIndex "id") (VInt 1) 0))
    by (do 2 constructor).
  assert (Hp : 1 ∉ Index_Lookup (Index_Add (NewIndex "id") (VInt 1) 0) (VInt 2))
    by (vm_compute; apply not_elem_of_nil).
  split; [exact H|]. split; [exact Hp|].
  apply (Index_Remove_Add _ (VInt 2) 1 H Hp).
Defined.

(** X3.  [Update] moves one position from the bucket of the old value to the
    bucket of the new one and touches nothing else; a nil old value removes
    nothing and a nil new value adds nothing. *)
Theorem Index_Update_Lookup idx oldValue newValue q w p :
  p ∈ Index_Lookup (Index_Update idx oldValue newValue q) w ↔
    (p ∈ Index_Lookup idx w ∧ ¬ (w = oldValue ∧ p = q))
    ∨ (newValue ≠ VNil ∧ w = newValue ∧ p = q).
Proof.
  unfold Index_Update. by rewrite elem_of_Lookup_Add, elem_of_Lookup_Remove.
Qed.

(** ** table.go: what the mutators keep, beyond consistency *)

Section table_wf.
Implicit Types (t : Table) (idx : Index) (c : string).

Lemma build_index_wf c rs : ∀ idx n, index_wf idx → index_wf (build_index idx c n rs).
Proof.
  induction rs as [|row rs IH]; intros idx n Hidx; [done|].
  simpl. apply IH. destruct (Row_Get row c) as [value [|]]; [|done].
  by apply index_wf_Add.
Qed.

Lemma table_wf_imap (f : string → Index → Index) (m : gmap string Index) :
  (∀ c idx, index_wf idx → index_wf (f c idx)) →
  (∀ c idx, m !! c = Some idx → index_wf idx) →
  ∀ c idx, map_imap (λ k i, Some (f k i)) m !! c = Some idx → index_wf idx.
Proof.
  intros Hf Hm c idx. rewrite map_lookup_imap.
  destruct (m !! c) as [idx0|] eqn:Hc; simpl; [|done].
  intros [= <-]. apply Hf. by eapply Hm.
Qed.

Lemma addRow_wf t row : table_wf t → table_wf (addRow t row).1.
Proof.
  intros Ht. unfold table_wf. simpl.
  apply (table_wf_imap (λ colName idx, match Row_Get row colName with
                                       | (value, true) => Index_Add idx value _
                                       | (_, false) => idx
                                       end)); [|exact Ht].
  intros c idx Hidx. destruct (Row_Get row c) as [value [|]]; [|done].
  by apply index_wf_Add.
Qed.

Lemma updateRow_wf t p newRow t' :
  table_wf t → updateRow t p newRow = Some t' → table_wf t'.
Proof.
  intros Ht. unfold updateRow. destruct (rows t !! p) as [oldRow|]; [|done].
  intros [= <-]. unfold table_wf. simpl.
  apply (table_wf_imap (λ colName idx,
           if decide ((Row_Get oldRow colName).1 ≠ (Row_Get newRow colName).1)
           then Index_Update idx (Row_Get oldRow colName).1
                  (Row_Get newRow colName).1 p
           else idx)); [|exact Ht].
  intros c idx Hidx. case_decide; [|done].
  by apply index_wf_Add, index_wf_Remove.
Qed.

Lemma deleteRow_wf t p t' : table_wf t → deleteRow t p = Some t' → table_wf t'.
Proof.
  intros Ht. unfold deleteRow. destruct (rows t !! p) as [row|]; [|done].
  assert (H1 : ∀ c idx,
    map_imap (λ colName idx, Some (match Row_Get row colName with
                                   | (value, true) => Index_Remove idx value p
                                   | (_, false) => idx
                                   end)) (indexes t) !! c = Some idx → index_wf idx).
  { apply (table_wf_imap (λ colName idx, match Row_Get row colName with
                                         | (value, true) => Index_Remove idx value p
                                         | (_, false) => idx
                                         end)); [|exact Ht].
    intros c idx Hidx. destruct (Row_Get row c) as [value [|]]; [|done].
    by apply index_wf_Remove. }
  case_decide.
  - destruct (rows t !! (length (rows t) - 1)) as [moved|]; [|done].
    intros [= <-]. unfold table_wf. simpl.
    apply (table_wf_imap (λ colName idx,
             match Row_Get moved colName with
             | (value, true) => Index_Add (Index_Remove idx value _) value p
             | (_, false) => idx
             end)); [|exact H1].
    intros c idx Hidx. destruct (Row_Get moved c) as [value [|]]; [|done].
    by apply index_wf_Add, index_wf_Remove.
  - intros [= <-]. exact H1.
Qed.

Lemma CreateIndex_wf t c : table_wf t → table_wf (CreateIndex t c).1.
Proof.
  intros Ht. unfold CreateIndex. destruct (negb (hasColumn t c)); [done|].
  destruct (indexes t !! c) eqn:Hc; [done|].
  intros c' idx'. simpl. destruct (decide (c = c')) as [<-|Hne].
  - rewrite lookup_insert_eq. intros [= <-]. apply build_index_wf, index_wf_NewIndex.
  - rewrite lookup_insert_ne by done. apply Ht.
Qed.

Lemma NewTable_loop_wf cols : ∀ table,
  table_wf table → table_wf (NewTable_loop table cols).
Proof.
  induction cols as [|col cols IH]; intros table Ht; [done|].
  simpl. apply IH. destruct (PrimaryKey col).
  - apply CreateIndex_wf. exact Ht.
  - destruct (Unique col); [by apply CreateIndex_wf|done].
Qed.

Lemma reachable_wf t : reachable t → table_wf t.
Proof.
  induction 1 as [nm sch|t row _ IH|t p row t' _ IH Hu|t p t' _ IH Hd|t c _ IH].
  - apply NewTable_loop_wf. intros c idx. simpl. by rewrite lookup_empty.
  - by apply addRow_wf.
  - by eapply updateRow_wf.
  - by eapply deleteRow_wf.
  - by apply CreateIndex_wf.
Qed.

(** Whatever holds before the loop of [Update] and survives a validated
    [updateRow] holds for the table that the loop returns. *)
Lemma Update_loop_inv (J : Table → Prop) updates condition :
  (∀ t i old t',
     J t → rows t !! i = Some old →
     ValidateUpdate t old (overlay updates old) = None →
     updateRow t i (overlay updates old) = Some t' → J t') →
  ∀ fuel t i n t' n' e,
    J t → Update_loop fuel t updates condition i n = Some (t', n', e) → J t'.
Proof.
  intros Hstep. induction fuel as [|fuel IH]; intros t i n t' n' e HJ; [done|].
  simpl. destruct (rows t !! i) as [row|] eqn:Hrow; [|by intros [= <- _ _]].
  destruct (skips condition row); [by apply IH|].
  destruct (ValidateUpdate t row (overlay updates row)) eqn:Hval;
    [by intros [= <- _ _]|].
  destruct (updateRow t i (overlay updates row)) as [t1|] eqn:Hupd; [|done].
  apply IH. by eapply Hstep.
Qed.

Lemma Delete_loop_inv (J : Table → Prop) condition :
  (∀ t i t', J t → deleteRow t i = Some t' → J t') →
  ∀ n t k t' k', J t → Delete_loop n t condition k = Some (t', k') → J t'.
Proof.
  intros Hstep. induction n as [|n IH]; intros t k t' k' HJ; simpl.
  - by intros [= <- _].
  - destruct (rows t !! n) as [row|]; [|done].
    destruct (skips condition row); [by apply IH|].
    destruct (deleteRow t n) as [t1|] eqn:Hdel; [|done].
    apply IH. by eapply Hstep.
Qed.

Lemma api_reachable_reachable t : api_reachable t → reachable t.
Proof.
  induction 1 as [nm sch|t row _ IH _|t u c t' n e _ IH Hu|t c t' n _ IH Hd|t c _ IH].
  - apply reach_new.
  - by apply reach_addRow.
  - eapply (Update_loop_inv reachable); [|exact IH|exact Hu].
    intros t0 i old t1 Ht0 _ _ Hupd. by eapply reach_updateRow.
  - eapply (Delete_loop_inv reachable); [|exact IH|exact Hd].
    intros t0 i t1 Ht0 Hdel. by eapply reach_deleteRow.
  - by apply reach_CreateIndex.
Qed.
End table_wf.

(** ** table.go: existence checks, index creation, round trips *)

Section table_more.
Implicit Types (t : Table) (idx : Index) (c : string) (v : Value).

Lemma scan_has_spec (rs : list Row) c v :
  scan_has rs c v = true ↔ ∃ r, r ∈ rs ∧ r !! c = Some v.
Proof.
  unfold scan_has. rewrite existsb_exists. split.
  - intros (r & Hin%list_elem_of_In & Hr). exists r. split; [done|].
    unfold Row_Get in Hr. destruct (r !! c) as [rv|]; [|done].
    simpl in Hr. apply bool_decide_eq_true in Hr. by subst.
  - intros (r & Hin & Hr). exists r. split; [by apply list_elem_of_In|].
    unfold Row_Get. rewrite Hr. simpl. by apply bool_decide_eq_true.
Qed.

Lemma Index_Has_spec (rs : list Row) c idx v :
  index_consistent rs c idx → index_wf idx →
  Index_Has idx v = true ↔ v ≠ VNil ∧ ∃ r, r ∈ rs ∧ r !! c = Some v.
Proof.
  intros Hcons Hwf. rewrite Index_Has_Lookup_wf by done.
  destruct (Hcons v) as [_ Hin]. split.
  - intros Hne. destruct (Index_Lookup idx v) as [|p l] eqn:Hl; [done|].
    destruct (proj1 (Hin p)) as (Hv & r & Hr & Hc); [left|].
    split; [done|]. exists r. split; [|done]. by eapply list_elem_of_lookup_2.
  - intros (Hv & r & Hr & Hc). apply list_elem_of_lookup_1 in Hr as [p Hp].
    assert (p ∈ Index_Lookup idx v) as Hp' by (apply Hin; split; eauto).
    intros Hnil. rewrite Hnil in Hp'. by apply elem_of_nil in Hp'.
Qed.

Lemma hasUniqueValue_reachable t c v :
  table_consistent t → table_wf t → v ≠ VNil →
  hasUniqueValue t c v = true ↔ ∃ r, r ∈ rows t ∧ r !! c = Some v.
Proof.
  intros Hc Hwf Hv. unfold hasUniqueValue.
  destruct (indexes t !! c) as [idx|] eqn:Hidx.
  - rewrite (Index_Has_spec (rows t) c idx v) by eauto. naive_solver.
  - apply scan_has_spec.
Qed.

Lemma hasPrimaryKeyValue_reachable t v :
  table_consistent t → table_wf t → v ≠ VNil → primaryKey t ≠ ""%string →
  hasPrimaryKeyValue t v = true ↔ ∃ r, r ∈ rows t ∧ r !! primaryKey t = Some v.
Proof.
  intros Hc Hwf Hv Hpk. unfold hasPrimaryKeyValue. rewrite decide_False by done.
  by apply (hasUniqueValue_reachable t (primaryKey t) v).
Qed.

Lemma build_index_snoc c row : ∀ rs idx n,
  build_index idx c n (rs ++ [row])
  = match Row_Get row c with
    | (value, true) => Index_Add (build_index idx c n rs) value (n + length rs)
    | (_, false) => build_index idx c n rs
    end.
Proof.
  induction rs as [|r rs IH]; intros idx n; simpl.
  - by rewrite Nat.add_0_r.
  - rewrite IH. by replace (S n + length rs) with (n + S (length rs)) by lia.
Qed.

Lemma CreateIndex_rows t c : rows (CreateIndex t c).1 = rows t.
Proof.
  unfold CreateIndex. destruct (negb (hasColumn t c)); [done|].
  by destruct (indexes t !! c).
Qed.

Lemma CreateIndex_name t c : name (CreateIndex t c).1 = name t.
Proof.
  unfold CreateIndex. destruct (negb (hasColumn t c)); [done|].
  by destruct (indexes t !! c).
Qed.

Lemma CreateIndex_indexes t c c' :
  hasColumn t c = true →
  is_Some (indexes (CreateIndex t c).1 !! c') ↔ is_Some (indexes t !! c') ∨ c' = c.
Proof.
  intros Hc. unfold CreateIndex. rewrite Hc. simpl.
  destruct (indexes t !! c) as [idx|] eqn:Hidx; simpl.
  - split; [by left|]. intros [H| ->]; [done|]. by rewrite Hidx.
  - destruct (decide (c = c')) as [<-|Hne].
    + rewrite lookup_insert_eq. naive_solver.
    + rewrite lookup_insert_ne by done. naive_solver.
Qed.

Lemma hasColumn_spec t c :
  hasColumn t c = true ↔ ∃ col, col ∈ schema t ∧ Name col = c.
Proof.
  unfold hasColumn. rewrite existsb_exists. split.
  - intros (col & Hin%list_elem_of_In & Hn%bool_decide_eq_true). eauto.
  - intros (col & Hin & Hn). exists col. split; [by apply list_elem_of_In|].
    by apply bool_decide_eq_true.
Qed.

Lemma NewTable_loop_fields cols : ∀ table,
  name (NewTable_loop table cols) = name table
  ∧ schema (NewTable_loop table cols) = schema table
  ∧ rows (NewTable_loop table cols) = rows table.
Proof.
  induction cols as [|col cols IH]; intros table; [done|].
  simpl. destruct (IH (if PrimaryKey col
                       then (CreateIndex {| name := name table; schema := schema table;
                                            rows := rows table; primaryKey := Name col;
                                            indexes := indexes table |} (Name col)).1
                       else if Unique col then (CreateIndex table (Name col)).1
                       else table)) as (-> & -> & ->).
  destruct (PrimaryKey col); [|destruct (Unique col)];
    by rewrite ?CreateIndex_name, ?CreateIndex_schema, ?CreateIndex_rows.
Qed.

Lemma NewTable_loop_indexes cols c : ∀ table,
  (∀ col, col ∈ cols → col ∈ schema table) →
  is_Some (indexes (NewTable_loop table cols) !! c) ↔
    is_Some (indexes table !! c)
    ∨ ∃ col, col ∈ cols ∧ Name col = c
             ∧ (PrimaryKey col = true ∨ Unique col = true).
Proof.
  induction cols as [|col cols IH]; intros table Hsub.
  - simpl. split; [by left|]. intros [H|(col & Hin & _)]; [done|].
    by apply elem_of_nil in Hin.
  - assert (Hcol : col ∈ schema table) by (apply Hsub; left).
    assert (Hsub' : ∀ col0, col0 ∈ cols → col0 ∈ schema table)
      by (intros ? ?; apply Hsub; by right).
    simpl. rewrite IH.
    2:{ intros col0 Hin. destruct (PrimaryKey col); [|destruct (Unique col)];
          rewrite ?CreateIndex_schema; simpl; by apply Hsub'. }
    destruct (PrimaryKey col) eqn:Hpk.
    + rewrite CreateIndex_indexes
        by (apply hasColumn_spec; simpl; by exists col).
      simpl. split.
      * intros [[H| ->]|(col0 & Hin & Hn & Hf)].
        -- by left.
        -- right. exists col. split_and!; [left|done|by left].
        -- right. exists col0. split_and!; [by right|done..].
      * intros [H|(col0 & Hin & Hn & Hf)]; [by left; left|].
        apply elem_of_cons in Hin as [->|Hin]; [left; by right|].
        right. by exists col0.
    + destruct (Unique col) eqn:Hun.
      * rewrite CreateIndex_indexes by (apply hasColumn_spec; by exists col).
        split.
        -- intros [[H| ->]|(col0 & Hin & Hn & Hf)].
           ++ by left.
           ++ right. exists col. split_and!; [left|done|by right].
           ++ right. exists col0. split_and!; [by right|done..].
        -- intros [H|(col0 & Hin & Hn & Hf)]; [by left; left|].
           apply elem_of_cons in Hin as [->|Hin]; [left; by right|].
           right. by exists col0.
      * split.
        -- intros [H|(col0 & Hin & Hn & Hf)]; [by left|].
           right. exists col0. split_and!; [by right|done..].
        -- intros [H|(col0 & Hin & Hn & Hf)]; [by left|].
           apply elem_of_cons in Hin as [->|Hin].
           ++ destruct Hf; congruence.
           ++ right. by exists col0.
Qed.
End table_more.

(** X4.  On a table that the mutators produced, the existence checks of the
    constraint checker are exact for a non-null value: [hasUniqueValue] is
    true exactly when some stored row holds the value in the column, whether
    it consults an index or scans; and so is [hasPrimaryKeyValue] for the
    primary-key column. *)
Theorem existence_checks_exact t c v :
  reachable t → v ≠ VNil →
  (hasUniqueValue t c v = true ↔ ∃ r, r ∈ rows t ∧ r !! c = Some v)
  ∧ (primaryKey t ≠ ""%string →
     hasPrimaryKeyValue t v = true ↔ ∃ r, r ∈ rows t ∧ r !! primaryKey t = Some v).
Proof.
  intros Hreach Hv.
  pose proof (reachable_consistent t Hreach) as Hc.
  pose proof (reachable_wf t Hreach) as Hwf.
  split; [by apply hasUniqueValue_reachable|].
  intros Hpk. by apply hasPrimaryKeyValue_reachable.
Qed.

Lemma existence_checks_exact_witness :
  reachable users2 ∧ VStr "b@x" ≠ VNil
  ∧ (hasUniqueValue users2 "email" (VStr "b@x") = true
     ↔ ∃ r, r ∈ rows users2 ∧ r !! "email"%string = Some (VStr "b@x")).
Proof.
  assert (Hreach : reachable users2) by (do 2 apply reach_addRow; apply reach_new).
  split; [exact Hreach|]. split; [discriminate|].
  apply (existence_checks_exact users2 "email" (VStr "b@x") Hreach). discriminate.
Defined.

(** X5.  [NewTable] returns an empty table with the given name and schema,
    and with an index on exactly the columns declared primary key or
    unique. *)
Theorem NewTable_indexes nm sch c :
  name (NewTable nm sch) = nm
  ∧ schema (NewTable nm sch) = sch
  ∧ rows (NewTable nm sch) = []
  ∧ (is_Some (indexes (NewTable nm sch) !! c) ↔
       ∃ col, col ∈ sch ∧ Name col = c
              ∧ (PrimaryKey col = true ∨ Unique col = true)).
Proof.
  unfold NewTable.
  destruct (NewTable_loop_fields sch
              {| name := nm; schema := sch; rows := []; primaryKey := "";
                 indexes := ∅ |}) as (-> & -> & ->).
  split_and!; [done..|].
  rewrite NewTable_loop_indexes by done. simpl. rewrite lookup_empty.
  split; [intros [[? ?]|H]; done|by right].
Qed.

(** X6.  [CreateIndex] fails exactly when the column is not in the schema,
    with [ColumnNotFound] naming table and column, and then changes nothing;
    it never touches name, schema, rows or primary key; and asking again for
    the same index changes nothing more and answers the same. *)
Theorem CreateIndex_edges t c :
  ((CreateIndex t c).2 = (if hasColumn t c then None
                          else Some (ErrColumnNotFound (name t) c)))
  ∧ (hasColumn t c = false → (CreateIndex t c).1 = t)
  ∧ (is_Some (indexes t !! c) → (CreateIndex t c).1 = t)
  ∧ name (CreateIndex t c).1 = name t
  ∧ schema (CreateIndex t c).1 = schema t
  ∧ rows (CreateIndex t c).1 = rows t
  ∧ primaryKey (CreateIndex t c).1 = primaryKey t
  ∧ CreateIndex (CreateIndex t c).1 c = CreateIndex t c.
Proof.
  split_and!.
  - unfold CreateIndex. destruct (hasColumn t c); [|done]. simpl.
    by destruct (indexes t !! c).
  - intros H. unfold CreateIndex. by rewrite H.
  - intros [idx H]. unfold CreateIndex. destruct (negb (hasColumn t c)); [done|].
    by rewrite H.
  - apply CreateIndex_name.
  - apply CreateIndex_schema.
  - apply CreateIndex_rows.
  - apply CreateIndex_primaryKey.
  - unfold CreateIndex at 2 3. destruct (hasColumn t c) eqn:Hc; simpl.
    + destruct (indexes t !! c) as [idx|] eqn:Hidx; simpl.
      * unfold CreateIndex. by rewrite Hc, Hidx.
      * unfold CreateIndex, hasColumn. simpl. fold (hasColumn t c).
        by rewrite Hc, lookup_insert_eq.
    + unfold CreateIndex. by rewrite Hc.
Qed.

(** X7.  Backfilling agrees with incremental maintenance: creating an index
    after a row was added gives the same table as creating it first and
    adding the row afterwards. *)
Theorem CreateIndex_addRow_commute t row c :
  (CreateIndex (addRow t row).1 c).1 = (addRow (CreateIndex t c).1 row).1.
Proof.
  unfold CreateIndex, hasColumn. simpl. fold (hasColumn t c).
  destruct (hasColumn t c); simpl; [|done].
  rewrite map_lookup_imap. destruct (indexes t !! c) as [idx|] eqn:Hidx; simpl.
  - done.
  - unfold addRow, with_rows_indexes. simpl. f_equal.
    rewrite map_imap_insert. f_equal.
    rewrite build_index_snoc. by destruct (Row_Get row c) as [value [|]].
Qed.

Section round_trips.
Implicit Types (t : Table) (row : Row).

Lemma with_rows_indexes_id t : with_rows_indexes t (rows t) (indexes t) = t.
Proof. by destruct t. Qed.

Lemma updateRow_same_row t p row :
  rows t !! p = Some row → updateRow t p row = Some t.
Proof.
  intros Hrow. unfold updateRow. rewrite Hrow. f_equal.
  rewrite list_insert_id by done.
  etrans; [|apply with_rows_indexes_id]. f_equal.
  etrans; [|apply map_imap_Some]. apply map_imap_ext.
  intros k. destruct (indexes t !! k); simpl; [|done].
  by rewrite decide_False by (intros H; by apply H).
Qed.

Lemma overlay_empty row : overlay ∅ row = row.
Proof. unfold overlay. by rewrite map_fold_empty. Qed.
End round_trips.

(** X8.  [deleteRow] undoes [addRow]: on a table that the mutators produced,
    deleting the position that [addRow] returned gives back the table as it
    was, rows and every index bucket. *)
Theorem deleteRow_addRow t row :
  reachable t →
  deleteRow (addRow t row).1 (addRow t row).2 = Some t.
Proof.
  intros Hreach.
  pose proof (reachable_consistent t Hreach) as Hc.
  pose proof (reachable_wf t Hreach) as Hwf.
  unfold deleteRow. simpl.
  rewrite (list_lookup_middle (rows t) [] row (length (rows t))) by done.
  rewrite decide_False by list_len.
  f_equal. etrans; [|apply with_rows_indexes_id].
  unfold with_rows_indexes. simpl. f_equal.
  - replace (length (rows t ++ [row]) - 1) with (length (rows t)) by list_len.
    by rewrite take_app_length.
  - apply map_eq. intros k. rewrite !map_lookup_imap.
    destruct (indexes t !! k) as [idx|] eqn:Hidx; simpl; [|done].
    f_equal. destruct (Row_Get row k) as [value [|]]; [|done].
    apply Index_Remove_Add_wf; [by eapply Hwf|].
    intros Hin. apply (Hc k idx Hidx value) in Hin. apply row_holds_lt in Hin. lia.
Qed.

Lemma deleteRow_addRow_witness :
  reachable users2
  ∧ deleteRow (addRow users2 carol).1 (addRow users2 carol).2 = Some users2.
Proof.
  assert (Hreach : reachable users2) by (do 2 apply reach_addRow; apply reach_new).
  split; [exact Hreach|]. apply (deleteRow_addRow users2 carol Hreach).
Defined.

(** X9.  An [Update] that sets no column changes nothing: whatever the
    condition, and whether or not it reports a constraint error for some row,
    the table it leaves is the table it found. *)
Theorem Update_empty_updates t condition :
  ∃ n e, Update_table t ∅ condition = Some (t, n, e).
Proof.
  destruct (Update_loop_spec ∅ condition (rows t) (S (length (rows t))) t [] 0)
    as (t' & n & e & Hloop & _); [done|lia|].
  change (length (@nil Row)) with 0 in Hloop.
  exists n, e. unfold Update_table. rewrite Hloop. do 3 f_equal.
  apply (Update_loop_inv (λ t0, t0 = t) ∅ condition) in Hloop; [done| |done].
  intros t0 i old t1 -> Hold _. rewrite overlay_empty.
  rewrite updateRow_same_row by done. by intros [= <-].
Qed.

(** ** constraints.go: what validated rows guarantee *)

Section constraints.
Implicit Types (t : Table) (row old new : Row) (c : string) (v : Value).

Lemma value_of_Some c (r : Row) v :
  value_of c r = Some v ↔ r !! c = Some v ∧ v ≠ VNil.
Proof.
  unfold value_of. destruct (r !! c) as [w|]; [|naive_solver].
  case_decide; naive_solver.
Qed.

Lemma value_of_Row_Get c (r : Row) :
  value_of c r = if decide ((Row_Get r c).1 = VNil) then None
                 else Some (Row_Get r c).1.
Proof. unfold value_of, Row_Get. by destruct (r !! c). Qed.

Lemma elem_of_col_values c (rs : list Row) v :
  v ∈ col_values c rs ↔ v ≠ VNil ∧ ∃ r, r ∈ rs ∧ r !! c = Some v.
Proof.
  unfold col_values. rewrite list_elem_of_omap.
  setoid_rewrite value_of_Some. naive_solver.
Qed.

Lemma col_values_filter_NoDup c (P : Row → Prop) `{!∀ r, Decision (P r)}
    (rs : list Row) :
  NoDup (col_values c rs) → NoDup (col_values c (filter P rs)).
Proof.
  unfold col_values. induction rs as [|r rs IH]; [done|].
  simpl. rewrite filter_cons. destruct (value_of c r) as [v|] eqn:Hv.
  - intros [Hnin Hnd]%NoDup_cons. case_decide; [|by apply IH]. simpl. rewrite Hv.
    apply NoDup_cons. split; [|by apply IH].
    intros (r' & Hin & Hr')%list_elem_of_omap. apply Hnin.
    apply list_elem_of_omap. exists r'. split; [|done].
    by apply list_elem_of_filter in Hin as [_ ?].
  - intros Hnd. case_decide; [|by apply IH]. simpl. rewrite Hv. by apply IH.
Qed.

(** Replacing one row keeps the values distinct when the new value is the
    old one or a value that no row held. *)
Lemma col_values_insert_NoDup c (rs : list Row) i old new :
  rs !! i = Some old → NoDup (col_values c rs) →
  (value_of c new = value_of c old
   ∨ ∀ v, value_of c new = Some v → v ∉ col_values c rs) →
  NoDup (col_values c (<[i := new]> rs)).
Proof.
  intros Hold Hnd Hnew.
  pose proof (lookup_lt_Some _ _ _ Hold) as Hlt.
  rewrite insert_take_drop by done.
  rewrite <- (take_drop_middle rs i old Hold) in Hnd, Hnew.
  unfold col_values in *. rewrite !omap_app in *. simpl in *.
  destruct Hnew as [-> | Hfresh]; [done|].
  destruct (value_of c new) as [v|] eqn:Hv.
  - specialize (Hfresh v eq_refl).
    apply NoDup_app in Hnd as (HA & HAB & HB).
    assert (HB' : NoDup (omap (value_of c) (drop (S i) rs)))
      by (destruct (value_of c old); [by apply NoDup_cons in HB as [_ ?]|done]).
    apply NoDup_app. split_and!; [done| |].
    + intros x Hx [->|Hin]%elem_of_cons.
      * apply Hfresh. apply elem_of_app. by left.
      * apply (HAB x Hx). destruct (value_of c old); [by right|done].
    + apply NoDup_cons. split; [|done]. intros Hin. apply Hfresh.
      apply elem_of_app. right. destruct (value_of c old); [by right|done].
  - apply NoDup_app in Hnd as (HA & HAB & HB).
    apply NoDup_app. split_and!; [done| |].
    + intros x Hx Hin. apply (HAB x Hx).
      destruct (value_of c old); [by right|done].
    + destruct (value_of c old); [by apply NoDup_cons in HB as [_ ?]|done].
Qed.

Lemma insert_unique_loop_None t row cols (col : Column) :
  insert_unique_loop t row cols = None →
  col ∈ cols → Unique col = true → Name col ≠ primaryKey t →
  ∀ v, row !! Name col = Some v → hasUniqueValue t (Name col) v = false.
Proof.
  intros Hloop Hin Hun Hne v Hrow. induction cols as [|c0 cols IH];
    [by apply elem_of_nil in Hin|].
  simpl in Hloop. apply elem_of_cons in Hin as [<-|Hin].
  - rewrite Hun, bool_decide_eq_true_2 in Hloop by done. simpl in Hloop.
    unfold Row_Get in Hloop. rewrite Hrow in Hloop. simpl in Hloop.
    by destruct (hasUniqueValue t (Name col) v).
  - apply IH; [|done].
    destruct (Unique c0 && bool_decide (Name c0 ≠ primaryKey t)); [|done].
    destruct (Row_Get row (Name c0)) as [value hasValue].
    by destruct (hasValue && hasUniqueValue t (Name c0) value).
Qed.

Lemma update_unique_loop_None t old new cols (col : Column) :
  update_unique_loop t old new cols = None →
  col ∈ cols → Unique col = true → Name col ≠ primaryKey t →
  (Row_Get old (Name col)).1 = (Row_Get new (Name col)).1
  ∨ ∀ v, new !! Name col = Some v → hasUniqueValue t (Name col) v = false.
Proof.
  intros Hloop Hin Hun Hne. induction cols as [|c0 cols IH];
    [by apply elem_of_nil in Hin|].
  simpl in Hloop. apply elem_of_cons in Hin as [<-|Hin].
  - rewrite Hun, bool_decide_eq_true_2 in Hloop by done. simpl in Hloop.
    destruct (decide ((Row_Get old (Name col)).1 = (Row_Get new (Name col)).1))
      as [Heq|Hneq]; [by left|right].
    intros v Hrow.
    assert (Hg : Row_Get new (Name col) = (v, true))
      by (unfold Row_Get; by rewrite Hrow).
    rewrite Hg in Hloop, Hneq. simpl in Hloop, Hneq.
    rewrite bool_decide_eq_true_2 in Hloop by done.
    simpl in Hloop. by destruct (hasUniqueValue t (Name col) v).
  - apply IH; [|done].
    destruct (Unique c0 && bool_decide (Name c0 ≠ primaryKey t)); [|done].
    destruct (Row_Get new (Name c0)) as [value hasValue].
    by destruct (hasValue && bool_decide ((Row_Get old (Name c0)).1 ≠ value)
                 && hasUniqueValue t (Name c0) value).
Qed.

Lemma not_null_loop_None t row cols (col : Column) :
  not_null_loop t row cols = None →
  col ∈ cols → NotNull col = true ∨ PrimaryKey col = true →
  is_Some (value_of (Name col) row).
Proof.
  intros Hloop Hin Hflag. induction cols as [|c0 cols IH];
    [by apply elem_of_nil in Hin|].
  simpl in Hloop. apply elem_of_cons in Hin as [<-|Hin].
  - assert (NotNull col || PrimaryKey col = true) as Hb
      by (destruct Hflag as [-> | ->]; [done|by rewrite orb_true_r]).
    rewrite Hb in Hloop. unfold value_of. unfold Row_Get in Hloop.
    destruct (row !! Name col) as [v|]; [|done]. simpl in Hloop.
    case_decide as Hv; [|eauto]. by rewrite bool_decide_eq_true_2 in Hloop.
  - apply IH; [|done].
    destruct (NotNull c0 || PrimaryKey c0); [|done].
    destruct (Row_Get row (Name c0)) as [value hasValue].
    by destruct (negb hasValue || bool_decide (value = VNil)).
Qed.

Lemma ValidateInsert_None t row :
  ValidateInsert t row = None →
  insert_pk_check t row = None
  ∧ insert_unique_loop t row (schema t) = None
  ∧ not_null_loop t row (schema t) = None.
Proof.
  unfold ValidateInsert. destruct (insert_pk_check t row); [done|].
  by destruct (insert_unique_loop t row (schema t)).
Qed.

Lemma ValidateUpdate_None t old new :
  ValidateUpdate t old new = None →
  update_pk_check t old new = None
  ∧ update_unique_loop t old new (schema t) = None
  ∧ not_null_loop t new (schema t) = None.
Proof.
  unfold ValidateUpdate. destruct (update_pk_check t old new); [done|].
  by destruct (update_unique_loop t old new (schema t)).
Qed.

(** A row that [ValidateInsert] accepts brings, in an enforced column, no
    non-null value that a stored row holds. *)
Lemma ValidateInsert_fresh t row c v :
  table_consistent t → table_wf t →
  ValidateInsert t row = None → enforced_unique t c →
  value_of c row = Some v → v ∉ col_values c (rows t).
Proof.
  intros Hc Hwf (Hpk & Hun & _)%ValidateInsert_None Henf [Hrow Hv]%value_of_Some.
  rewrite elem_of_col_values. intros [_ Hheld].
  destruct Henf as [[-> Hne]|(Hne & col & Hin & <- & Hflag)].
  - unfold insert_pk_check, Row_Get in Hpk. rewrite decide_True, Hrow in Hpk by done.
    simpl in Hpk.
    destruct (hasPrimaryKeyValue t v) eqn:Hhas; [done|].
    apply (hasPrimaryKeyValue_reachable t v Hc Hwf Hv Hne) in Hheld. congruence.
  - pose proof (insert_unique_loop_None t row _ col Hun Hin Hflag Hne v Hrow) as Hhas.
    apply (hasUniqueValue_reachable t (Name col) v Hc Hwf Hv) in Hheld. congruence.
Qed.

(** A row that [ValidateUpdate] accepts keeps, in an enforced column, its old
    value or takes a value that no stored row holds. *)
Lemma ValidateUpdate_fresh t old new c :
  table_consistent t → table_wf t →
  ValidateUpdate t old new = None → enforced_unique t c →
  value_of c new = value_of c old
  ∨ ∀ v, value_of c new = Some v → v ∉ col_values c (rows t).
Proof.
  intros Hc Hwf (Hpk & Hun & _)%ValidateUpdate_None Henf.
  assert (Hcases : (Row_Get old c).1 = (Row_Get new c).1
                   ∨ ∀ v, new !! c = Some v → v ≠ VNil → hasUniqueValue t c v = false).
  { destruct Henf as [[-> Hne]|(Hne & col & Hin & <- & Hflag)].
    - unfold update_pk_check in Hpk. rewrite decide_True in Hpk by done.
      destruct (decide ((Row_Get old (primaryKey t)).1 = (Row_Get new (primaryKey t)).1))
        as [Heq|Hneq]; [by left|right].
      rewrite bool_decide_eq_true_2 in Hpk by done. simpl in Hpk.
      intros v Hrow Hv.
      assert (Hg : (Row_Get new (primaryKey t)).1 = v)
        by (unfold Row_Get; by rewrite Hrow).
      rewrite Hg in Hpk.
      destruct (hasPrimaryKeyValue t v) eqn:Hhas; [done|].
      unfold hasPrimaryKeyValue in Hhas. by rewrite decide_False in Hhas.
    - destruct (update_unique_loop_None t old new _ col Hun Hin Hflag Hne)
        as [Heq|Hfresh]; [by left|right]. intros v Hrow _. by apply Hfresh. }
  destruct Hcases as [Heq|Hfresh].
  - left. by rewrite !value_of_Row_Get, Heq.
  - right. intros v [Hrow Hv]%value_of_Some. rewrite elem_of_col_values.
    intros [_ Hheld].
    apply (hasUniqueValue_reachable t c v Hc Hwf Hv) in Hheld.
    rewrite (Hfresh v Hrow Hv) in Hheld. done.
Qed.

Lemma updateRow_fields t i new t' :
  updateRow t i new = Some t' →
  schema t' = schema t ∧ primaryKey t' = primaryKey t ∧ name t' = name t
  ∧ rows t' = <[i := new]> (rows t).
Proof.
  unfold updateRow. destruct (rows t !! i); [|done]. by intros [= <-].
Qed.

Lemma deleteRow_fields t i t' :
  deleteRow t i = Some t' →
  schema t' = schema t ∧ primaryKey t' = primaryKey t ∧ name t' = name t.
Proof.
  unfold deleteRow. destruct (rows t !! i); [|done]. case_decide.
  - destruct (rows t !! (length (rows t) - 1)); [|done]. by intros [= <-].
  - by intros [= <-].
Qed.

Lemma constraints_hold_ext t t' :
  schema t' = schema t → primaryKey t' = primaryKey t → rows t' = rows t →
  constraints_hold t → constraints_hold t'.
Proof.
  intros Hs Hp Hr. unfold constraints_hold, enforced_unique, required.
  by rewrite Hs, Hp, Hr.
Qed.

Lemma addRow_constraints t row :
  table_consistent t → table_wf t → constraints_hold t →
  ValidateInsert t row = None → constraints_hold (addRow t row).1.
Proof.
  intros Hc Hwf [Hdist Hreq] Hval. split.
  - intros c Henf. simpl. unfold col_values. rewrite omap_app. simpl.
    destruct (value_of c row) as [v|] eqn:Hv.
    + apply NoDup_app. split_and!; [by apply Hdist| |apply NoDup_singleton].
      intros x Hx Hxv%list_elem_of_singleton. subst x.
      by apply (ValidateInsert_fresh t row c v Hc Hwf Hval Henf Hv).
    + rewrite app_nil_r. by apply Hdist.
  - intros c r (col & Hin & <- & Hflag). simpl.
    intros [Hr|Hr%list_elem_of_singleton]%elem_of_app.
    + apply Hreq; [|done]. by exists col.
    + subst r. apply ValidateInsert_None in Hval as (_ & _ & Hnn).
      by apply (not_null_loop_None t row (schema t) col).
Qed.

Lemma updateRow_constraints t i old new t' :
  table_consistent t → table_wf t → constraints_hold t →
  rows t !! i = Some old → ValidateUpdate t old new = None →
  updateRow t i new = Some t' → constraints_hold t'.
Proof.
  intros Hc Hwf [Hdist Hreq] Hold Hval (Hs & Hp & _ & Hr)%updateRow_fields.
  unfold constraints_hold, enforced_unique, required. rewrite Hs, Hp, Hr. split.
  - intros c Henf. apply (col_values_insert_NoDup c (rows t) i old new Hold).
    + by apply Hdist.
    + by apply (ValidateUpdate_fresh t old new c).
  - intros c r (col & Hin & <- & Hflag) Hr'.
    apply list_elem_of_lookup_1 in Hr' as [j Hj].
    destruct (decide (j = i)) as [->|Hne].
    + rewrite list_lookup_insert_eq in Hj by (by eapply lookup_lt_Some).
      injection Hj as <-. apply ValidateUpdate_None in Hval as (_ & _ & Hnn).
      by apply (not_null_loop_None t new (schema t) col).
    + rewrite list_lookup_insert_ne in Hj by done.
      apply Hreq; [by exists col|]. by eapply list_elem_of_lookup_2.
Qed.

Lemma Delete_table_fields t condition t' n :
  Delete_table t condition = Some (t', n) →
  schema t' = schema t ∧ primaryKey t' = primaryKey t ∧ name t' = name t.
Proof.
  apply (Delete_loop_inv
           (λ t0, schema t0 = schema t ∧ primaryKey t0 = primaryKey t
                  ∧ name t0 = name t)); [|done].
  intros t0 i t1 (Hs & Hp & Hn) (-> & -> & ->)%deleteRow_fields. done.
Qed.

Lemma Delete_table_constraints t condition t' n :
  constraints_hold t → Delete_table t condition = Some (t', n) →
  constraints_hold t'.
Proof.
  intros [Hdist Hreq] Hdel.
  destruct (Delete_table_fields t condition t' n Hdel) as (Hs & Hp & _).
  destruct (Delete_table_spec t condition) as (t1 & Hd & Hperm).
  rewrite Hd in Hdel. injection Hdel as -> _.
  unfold constraints_hold, enforced_unique, required. rewrite Hs, Hp. split.
  - intros c Henf. unfold col_values. rewrite Hperm.
    by apply col_values_filter_NoDup, Hdist.
  - intros c r Hreq' Hin. rewrite Hperm in Hin.
    apply list_elem_of_filter in Hin as [_ Hin]. by apply Hreq.
Qed.

Lemma Update_table_constraints t updates condition t' n e :
  reachable t → constraints_hold t →
  Update_table t updates condition = Some (t', n, e) →
  constraints_hold t' ∧ schema t' = schema t ∧ primaryKey t' = primaryKey t
  ∧ name t' = name t.
Proof.
  intros Hreach Hcon Hupd.
  apply (Update_loop_inv
           (λ t0, reachable t0 ∧ constraints_hold t0 ∧ schema t0 = schema t
                  ∧ primaryKey t0 = primaryKey t ∧ name t0 = name t)
           updates condition) in Hupd; [naive_solver| |done].
  intros t0 i old t1 (Hr0 & Hc0 & Hs0 & Hp0 & Hn0) Hold Hval Hu.
  split; [by eapply reach_updateRow|]. split.
  - eapply updateRow_constraints; [| | |exact Hold|exact Hval|exact Hu]; [..|done].
    + by apply reachable_consistent.
    + by apply reachable_wf.
  - apply updateRow_fields in Hu as (-> & -> & -> & _). done.
Qed.

Lemma api_reachable_constraints t : api_reachable t → constraints_hold t.
Proof.
  induction 1 as [nm sch|t row Hapi IH Hval|t u c t' n e Hapi IH Hu
                 |t c t' n Hapi IH Hd|t c Hapi IH].
  - destruct (NewTable_indexes nm sch "") as (_ & _ & Hrows & _).
    unfold constraints_hold. rewrite Hrows. split.
    + intros c _. constructor.
    + intros c r _ Hin. by apply elem_of_nil in Hin.
  - apply api_reachable_reachable in Hapi.
    apply addRow_constraints; [by apply reachable_consistent
                              |by apply reachable_wf|done..].
  - apply api_reachable_reachable in Hapi.
    by destruct (Update_table_constraints t u c t' n e Hapi IH Hu).
  - by eapply Delete_table_constraints.
  - apply (constraints_hold_ext t); [apply CreateIndex_schema
      |apply CreateIndex_primaryKey|apply CreateIndex_rows|done].
Qed.
End constraints.

Lemma NoDup_omap_lookup {A B} (f : A → option B) (l : list A) p q x y v :
  NoDup (omap f l) → l !! p = Some x → l !! q = Some y →
  f x = Some v → f y = Some v → p = q.
Proof.
  revert p q. induction l as [|a l IH]; intros p q Hnd Hp Hq Hx Hy; [done|].
  assert (Htail : ∀ j z, l !! j = Some z → f z = Some v → v ∈ omap f l).
  { intros j z Hj Hz. apply list_elem_of_omap. exists z.
    split; [by eapply list_elem_of_lookup_2|done]. }
  simpl in Hnd. destruct p as [|p], q as [|q]; simpl in *.
  - done.
  - injection Hp as ->. rewrite Hx in Hnd. apply NoDup_cons in Hnd as [Hnin _].
    destruct Hnin. by eapply Htail.
  - injection Hq as ->. rewrite Hy in Hnd. apply NoDup_cons in Hnd as [Hnin _].
    destruct Hnin. by eapply Htail.
  - f_equal. apply IH; [|done..].
    destruct (f a); [by apply NoDup_cons in Hnd as [_ ?]|done].
Qed.

(** X10.  Uniqueness is an invariant of the entry points: in a table built by
    [NewTable], validated inserts, [Update], [Delete] and [CreateIndex], two
    different positions never hold the same non-null value in the primary-key
    column or in a unique column that the unique loops look at. *)
Theorem enforced_columns_distinct t c p q rp rq v :
  api_reachable t → enforced_unique t c →
  rows t !! p = Some rp → rows t !! q = Some rq →
  rp !! c = Some v → rq !! c = Some v → v ≠ VNil →
  p = q.
Proof.
  intros Hapi Henf Hp Hq Hrp Hrq Hv.
  destruct (api_reachable_constraints t Hapi) as [Hdist _].
  apply (NoDup_omap_lookup (value_of c) (rows t) p q rp rq v);
    [by apply Hdist|done|done|by apply value_of_Some..].
Qed.

Lemma users2_api_reachable : api_reachable users2.
Proof. do 2 (apply api_Insert; [|vm_compute; reflexivity]). apply api_new. Qed.

Lemma enforced_columns_distinct_witness :
  api_reachable users2 ∧ enforced_unique users2 "email"
  ∧ rows users2 !! 1 = Some bob ∧ bob !! "email"%string = Some (VStr "b@x")
  ∧ VStr "b@x" ≠ VNil ∧ 1 = 1.
Proof.
  assert (Henf : enforced_unique users2 "email").
  { right. split; [vm_compute; discriminate|]. exists col_email.
    split; [|done]. do 2 right. left. }
  split; [exact users2_api_reachable|]. split; [exact Henf|].
  split; [reflexivity|]. split; [reflexivity|]. split; [discriminate|].
  apply (enforced_columns_distinct users2 "email" 1 1 bob bob (VStr "b@x")
           users2_api_reachable Henf); (reflexivity || discriminate).
Defined.

(** X11.  Not-null is an invariant of the entry points: every stored row has
    a non-null value in every column declared not-null or primary key. *)
Theorem required_columns_present t c r :
  api_reachable t → required t c → r ∈ rows t →
  ∃ v, r !! c = Some v ∧ v ≠ VNil.
Proof.
  intros Hapi Hreq Hr.
  destruct (api_reachable_constraints t Hapi) as [_ Hpres].
  destruct (Hpres c r Hreq Hr) as [v Hv]. exists v. by apply value_of_Some.
Qed.

Lemma required_columns_present_witness :
  api_reachable users2 ∧ required users2 "name" ∧ bob ∈ rows users2
  ∧ ∃ v, bob !! "name"%string = Some v ∧ v ≠ VNil.
Proof.
  assert (Hreq : required users2 "name").
  { exists col_name. split; [right; left|]. split; [done|by left]. }
  assert (Hin : bob ∈ rows users2) by (right; left).
  split; [exact users2_api_reachable|]. split; [exact Hreq|]. split; [exact Hin|].
  apply (required_columns_present users2 "name" bob users2_api_reachable Hreq Hin).
Defined.

(** X12.  [Insert] refuses a duplicate: when the row's non-null value in an
    enforced column is already held by a stored row, [Insert] returns an error
    and the database is unchanged; when that column is the primary key, the
    error is [PrimaryKeyViolation] naming table, key and value. *)
Theorem Insert_duplicate_rejected db tableName t row c r v :
  GetTable db tableName = Ok t → reachable t → enforced_unique t c →
  r ∈ rows t → r !! c = Some v → row !! c = Some v → v ≠ VNil →
  (∃ e, Insert db tableName row = (db, Some e))
  ∧ (c = primaryKey t →
     Insert db tableName row
     = (db, Some (ErrPrimaryKeyViolation (name t) (primaryKey t) v))).
Proof.
  intros Hget Hreach Henf Hr Hrc Hrow Hv.
  pose proof (reachable_consistent t Hreach) as Hc.
  pose proof (reachable_wf t Hreach) as Hwf.
  unfold Insert. rewrite Hget. split.
  - destruct (ValidateInsert t row) as [e|] eqn:Hval; [eauto|].
    destruct (ValidateInsert_fresh t row c v Hc Hwf Hval Henf).
    + by apply value_of_Some.
    + apply elem_of_col_values. eauto.
  - intros ->. destruct Henf as [[_ Hne]|[Hne _]]; [|done].
    unfold ValidateInsert, insert_pk_check, Row_Get.
    rewrite decide_True, Hrow by done. simpl.
    assert (hasPrimaryKeyValue t v = true) as ->; [|done].
    apply hasPrimaryKeyValue_reachable; eauto.
Qed.

Lemma Insert_duplicate_rejected_witness :
  GetTable sample_db "users" = Ok users3 ∧ reachable users3
  ∧ enforced_unique users3 "id" ∧ alice ∈ rows users3
  ∧ alice !! "id"%string = Some (VInt 1)
  ∧ (<["email"%string := VStr "z@x"]> alice) !! "id"%string = Some (VInt 1)
  ∧ VInt 1 ≠ VNil
  ∧ (∃ e, Insert sample_db "users" (<["email"%string := VStr "z@x"]> alice)
          = (sample_db, Some e)).
Proof.
  assert (Henf : enforced_unique users3 "id") by (left; split; [done|discriminate]).
  assert (Hin : alice ∈ rows users3) by left.
  split_and!; [reflexivity|exact users3_reachable|exact Henf|exact Hin
              |reflexivity|reflexivity|discriminate|].
  apply (Insert_duplicate_rejected sample_db "users" users3 _ "id" alice (VInt 1));
    [reflexivity|exact users3_reachable|exact Henf|exact Hin
    |reflexivity|reflexivity|discriminate].
Defined.

(** X13.  Round trip: after a successful [Insert] into a table with a
    primary key, the row has a non-null key, selecting on that key with [=]
    returns exactly the inserted row, and an unconditional [Select] returns
    the earlier rows followed by it. *)
Theorem Insert_Select_roundtrip db tableName t row :
  GetTable db tableName = Ok t → reachable t → primaryKey t ≠ ""%string →
  (Insert db tableName row).2 = None →
  ∃ v, row !! primaryKey t = Some v ∧ v ≠ VNil
       ∧ Select (Insert db tableName row).1 tableName []
           (Some (mkCondition (primaryKey t) "=" v)) = Ok [row]
       ∧ Select (Insert db tableName row).1 tableName [] None
         = Ok (rows t ++ [row]).
Proof.
  intros Hget Hreach Hpk. unfold Insert. rewrite Hget.
  destruct (ValidateInsert t row) as [e|] eqn:Hval; [done|]. intros _. simpl.
  pose proof (reachable_consistent t Hreach) as Hc.
  pose proof (reachable_wf t Hreach) as Hwf.
  destruct (reachable_pk_declared t Hreach Hpk) as [_ (col & Hin & Hname & Hflag)].
  pose proof Hval as (_ & _ & Hnn)%ValidateInsert_None.
  destruct (not_null_loop_None t row _ col Hnn Hin (or_intror Hflag)) as [v Hv].
  rewrite Hname in Hv. pose proof Hv as [Hrow Hvn]%value_of_Some.
  exists v. split; [done|]. split; [done|].
  unfold Select, GetTable, store. simpl. rewrite lookup_insert_eq. split.
  - f_equal. apply Permutation_singleton_r.
    rewrite (Select_table_eq _ [] (mkCondition (primaryKey t) "=" v));
      [|by apply addRow_consistent|done|done].
    simpl. rewrite filter_app, filter_cons_True, filter_nil by done.
    assert (filter (λ r : Row, r !! primaryKey t = Some v) (rows t) = []) as ->;
      [|done].
    apply filter_drops_all. intros r Hr Hheld.
    apply (ValidateInsert_fresh t row (primaryKey t) v Hc Hwf Hval); [by left|done|].
    apply elem_of_col_values. eauto.
  - by rewrite Select_table_all.
Qed.

Lemma Insert_Select_roundtrip_witness :
  GetTable sample_db "users" = Ok users3 ∧ reachable users3
  ∧ primaryKey users3 ≠ ""%string
  ∧ (Insert sample_db "users" dave).2 = None
  ∧ ∃ v, dave !! primaryKey users3 = Some v ∧ v ≠ VNil
         ∧ Select (Insert sample_db "users" dave).1 "users" []
             (Some (mkCondition (primaryKey users3) "=" v)) = Ok [dave]
         ∧ Select (Insert sample_db "users" dave).1 "users" [] None
           = Ok (rows users3 ++ [dave]).
Proof.
  assert (Hpk : primaryKey users3 ≠ ""%string) by (vm_compute; discriminate).
  split_and!; [reflexivity|exact users3_reachable|exact Hpk|reflexivity|].
  apply (Insert_Select_roundtrip sample_db "users" users3 dave);
    [reflexivity|exact users3_reachable|exact Hpk|reflexivity].
Defined.

(** ** crud.go: conditions that nothing satisfies, repeated deletes *)

Section no_match.
Implicit Types (t : Table) (condition : option Condition).

Lemma Delete_loop_all_skip condition t : ∀ n k,
  (∀ r, r ∈ rows t → skips condition r = true) → n ≤ length (rows t) →
  Delete_loop n t condition k = Some (t, k).
Proof.
  induction n as [|n IH]; intros k Hall Hn; [done|]. simpl.
  destruct (lookup_lt_is_Some_2 (rows t) n) as [row Hrow]; [lia|].
  rewrite Hrow, (Hall row) by (by eapply list_elem_of_lookup_2).
  apply IH; [done|lia].
Qed.

Lemma Update_loop_all_skip updates condition t : ∀ fuel i n,
  (∀ r, r ∈ rows t → skips condition r = true) → length (rows t) - i < fuel →
  Update_loop fuel t updates condition i n = Some (t, n, None).
Proof.
  induction fuel as [|fuel IH]; intros i n Hall Hfuel; [lia|]. simpl.
  destruct (rows t !! i) as [row|] eqn:Hrow; [|done].
  rewrite (Hall row) by (by eapply list_elem_of_lookup_2).
  apply IH; [done|]. apply lookup_lt_Some in Hrow. lia.
Qed.
End no_match.

(** X14.  When no stored row satisfies the condition, [Select] returns no
    row, [Update] returns count 0 without error and [Delete] returns count 0,
    and both leave the table exactly as it was. *)
Theorem nothing_matches t cond columns updates :
  (∀ r, r ∈ rows t → evaluateCondition r cond = false) →
  Select_table t columns (Some cond) = []
  ∧ Update_table t updates (Some cond) = Some (t, 0, None)
  ∧ Delete_table t (Some cond) = Some (t, 0).
Proof.
  intros Hall.
  assert (Hskip : ∀ r, r ∈ rows t → skips (Some cond) r = true)
    by (intros r Hr; simpl; by rewrite Hall).
  split_and!.
  - unfold Select_table. rewrite Select_loop_spec. simpl.
    rewrite filter_drops_all; [done|].
    intros r (p & Hin & Hp)%list_elem_of_omap. unfold matches.
    rewrite Hskip; [done|]. by eapply list_elem_of_lookup_2.
  - apply Update_loop_all_skip; [done|lia].
  - by apply Delete_loop_all_skip.
Qed.

Lemma nothing_matches_witness :
  (∀ r, r ∈ rows users3 → evaluateCondition r cond_age_ne = false)
  ∧ Select_table users3 [] (Some cond_age_ne) = []
  ∧ Update_table users3 email_to_alice (Some cond_age_ne) = Some (users3, 0, None)
  ∧ Delete_table users3 (Some cond_age_ne) = Some (users3, 0).
Proof.
  assert (H : ∀ r, r ∈ rows users3 → evaluateCondition r cond_age_ne = false).
  { intros r Hr. apply evaluateCondition_missing.
    repeat (apply elem_of_cons in Hr as [->|Hr]; [reflexivity|]).
    by apply elem_of_nil in Hr. }
  split; [exact H|].
  apply (nothing_matches users3 cond_age_ne [] email_to_alice H).
Defined.

(** X15.  [Delete] is idempotent: deleting again with the same condition
    removes nothing and leaves the table that the first call produced. *)
Theorem Delete_twice t condition t' n :
  Delete_table t condition = Some (t', n) →
  Delete_table t' condition = Some (t', 0).
Proof.
  intros Hdel. destruct (Delete_table_spec t condition) as (t1 & Hd & Hperm).
  rewrite Hd in Hdel. injection Hdel as -> _.
  apply Delete_loop_all_skip; [|done].
  intros r Hr. rewrite Hperm in Hr. apply list_elem_of_filter in Hr as [Hm _].
  unfold matches in Hm. by destruct (skips condition r).
Qed.

Lemma Delete_twice_witness :
  ∃ t', Delete_table users3 (Some cond_name_bob) = Some (t', 1)
        ∧ Delete_table t' (Some cond_name_bob) = Some (t', 0).
Proof.
  eexists. split; [vm_compute; reflexivity|].
  eapply (Delete_twice users3 (Some cond_name_bob) _ 1). vm_compute. reflexivity.
Defined.

(** X16.  [Delete] without a condition empties the table for good: on a table
    that the mutators produced it removes every row, counts them, and leaves
    every index without a single bucket. *)
Theorem Delete_all_empties t :
  reachable t →
  ∃ t', Delete_table t None = Some (t', length (rows t))
        ∧ rows t' = []
        ∧ ∀ c idx, indexes t' !! c = Some idx → data idx = ∅.
Proof.
  intros Hreach. destruct (Delete_table_spec t None) as (t' & Hdel & Hperm).
  assert (Hall : filter (λ r, matches None r = true) (rows t) = rows t)
    by (by apply filter_keeps_all).
  assert (Hnone : filter (λ r, matches None r = false) (rows t) = [])
    by (by apply filter_drops_all).
  rewrite Hall in Hdel. rewrite Hnone in Hperm. apply Permutation_nil_r in Hperm.
  exists t'. split; [done|]. split; [done|].
  assert (Hreach' : reachable t').
  { eapply (Delete_loop_inv reachable); [|exact Hreach|exact Hdel].
    intros t0 i t1 Ht0 Hd. by eapply reach_deleteRow. }
  intros c idx Hidx.
  destruct (reachable_wf t' Hreach' c idx Hidx) as [Hnil Hne].
  apply map_eq. intros v. rewrite lookup_empty.
  destruct (data idx !! v) as [l|] eqn:Hv; [|done].
  destruct l as [|p l]; [by destruct (Hne v [] Hv)|].
  assert (Hvn : v ≠ VNil) by (intros ->; congruence).
  destruct (reachable_consistent t' Hreach' c idx Hidx v) as [_ Hin].
  assert (Hp : p ∈ Index_Lookup idx v).
  { unfold Index_Lookup. rewrite decide_False, Hv by done. left. }
  apply Hin in Hp. apply row_holds_lt in Hp. rewrite Hperm in Hp. simpl in Hp. lia.
Qed.

Lemma Delete_all_empties_witness :
  reachable users3
  ∧ ∃ t', Delete_table users3 None = Some (t', length (rows users3))
          ∧ rows t' = []
          ∧ ∀ c idx, indexes t' !! c = Some idx → data idx = ∅.
Proof.
  split; [exact users3_reachable|].
  apply (Delete_all_empties users3 users3_reachable).
Defined.

(** ** crud.go, join.go: errors *)

(** X17.  Every entry point that names a missing table answers
    [TableNotFound] with that name and leaves the database as it was;
    [InnerJoin] looks for the left table first. *)
Theorem missing_table_errors db tableName :
  tables db !! tableName = None →
  (∀ row, Insert db tableName row = (db, Some (ErrTableNotFound tableName)))
  ∧ (∀ columns condition,
       Select db tableName columns condition = Err (ErrTableNotFound tableName))
  ∧ (∀ updates condition,
       Update db tableName updates condition
       = Some (db, 0, Some (ErrTableNotFound tableName)))
  ∧ (∀ condition,
       Delete db tableName condition
       = Some (db, 0, Some (ErrTableNotFound tableName)))
  ∧ (∀ other cond cols,
       InnerJoin db tableName other cond cols = Err (ErrTableNotFound tableName))
  ∧ (∀ other cond cols,
       is_Some (tables db !! other) →
       InnerJoin db other tableName cond cols = Err (ErrTableNotFound tableName))
  ∧ DropTable db tableName = (db, Some (ErrTableNotFound tableName)).
Proof.
  intros Hnone.
  assert (Hget : GetTable db tableName = Err (ErrTableNotFound tableName))
    by (unfold GetTable; by rewrite Hnone).
  split_and!; intros; unfold Insert, Select, Update, Delete, InnerJoin, DropTable;
    rewrite ?Hget, ?Hnone; try done.
  destruct H as [t Ht]. unfold GetTable. by rewrite Ht.
Qed.

Lemma missing_table_errors_witness :
  tables sample_db !! "orders"%string = None
  ∧ Delete sample_db "orders" None
    = Some (sample_db, 0, Some (ErrTableNotFound "orders")).
Proof.
  split; [reflexivity|].
  apply (missing_table_errors sample_db "orders"). reflexivity.
Defined.

(** X18.  When both tables exist, [InnerJoin] checks the left join column
    before the right one and reports the first that is not in its table's
    schema as [ColumnNotFound], naming the table as the caller named it. *)
Theorem InnerJoin_column_errors db leftTable rightTable cond cols ltab rtab :
  GetTable db leftTable = Ok ltab → GetTable db rightTable = Ok rtab →
  (hasColumn ltab (LeftColumn cond) = false →
     InnerJoin db leftTable rightTable cond cols
     = Err (ErrColumnNotFound leftTable (LeftColumn cond)))
  ∧ (hasColumn ltab (LeftColumn cond) = true →
     hasColumn rtab (RightColumn cond) = false →
     InnerJoin db leftTable rightTable cond cols
     = Err (ErrColumnNotFound rightTable (RightColumn cond))).
Proof.
  intros Hl Hr. unfold InnerJoin. rewrite Hl, Hr.
  split; [by intros ->|by intros -> ->].
Qed.

Lemma InnerJoin_column_errors_witness :
  GetTable blog_db "posts" = Ok posts3 ∧ GetTable blog_db "users" = Ok users3
  ∧ (hasColumn posts3 "author" = false →
     InnerJoin blog_db "posts" "users" (mkJoinCondition "author" "id") []
     = Err (ErrColumnNotFound "posts" "author")).
Proof.
  split; [reflexivity|]. split; [reflexivity|].
  apply (InnerJoin_column_errors blog_db "posts" "users"
           (mkJoinCondition "author" "id") [] posts3 users3); reflexivity.
Defined.

(** ** crud.go: projection and what Select can return *)

(** X19.  [projectRow] with no column list returns the whole row; with a
    list it returns exactly the listed columns that the row has, with the
    row's values, whatever the order or repetition in the list.  The
    projection inside [InnerJoin] does the same. *)
Theorem projectRow_lookup row columns sch k :
  projectRow row [] sch = row
  ∧ (columns ≠ [] →
     projectRow row columns sch !! k
     = if decide (k ∈ columns) then row !! k else None)
  ∧ (columns ≠ [] →
     project_joined row columns !! k
     = if decide (k ∈ columns) then row !! k else None).
Proof.
  split; [done|].
  assert (Hfold := project_fold_lookup row columns k ∅).
  rewrite lookup_empty in Hfold.
  split; intros Hne.
  - unfold projectRow. rewrite decide_False by (by destruct columns).
    rewrite Hfold. case_decide; [by destruct (row !! k)|done].
  - unfold project_joined. rewrite decide_True by (destruct columns; simpl; [done|lia]).
    rewrite Hfold. case_decide; [by destruct (row !! k)|done].
Qed.

(** X20.  [Select] is sound whatever the state of the indexes: every row it
    returns is the projection of a stored row that passes the condition (any
    stored row when there is none), because the condition is evaluated again
    on every candidate. *)
Theorem Select_sound t columns condition res :
  res ∈ Select_table t columns condition →
  ∃ r, r ∈ rows t ∧ matches condition r = true
       ∧ res = projectRow r columns (schema t).
Proof.
  unfold Select_table. rewrite Select_loop_spec. simpl.
  intros (r & -> & Hr)%list_elem_of_fmap.
  apply list_elem_of_filter in Hr as [Hm (p & _ & Hp)%list_elem_of_omap].
  exists r. split; [by eapply list_elem_of_lookup_2|done].
Qed.

Lemma Select_sound_witness :
  bob ∈ Select_table users3 [] (Some cond_name_bob)
  ∧ ∃ r, r ∈ rows users3 ∧ matches (Some cond_name_bob) r = true
         ∧ bob = projectRow r [] (schema users3).
Proof.
  assert (H : bob ∈ Select_table users3 [] (Some cond_name_bob))
    by (vm_compute; left).
  split; [exact H|].
  apply (Select_sound users3 [] (Some cond_name_bob) bob H).
Defined.

(** X21.  Without an index to use (no condition, an operator other than [=],
    or no index on the condition's column) [Select] returns the projections
    of the matching rows in storage order. *)
Theorem Select_scan_order t columns condition :
  (∀ cond, condition = Some cond → Operator cond = "="%string →
           indexes t !! Cond_Column cond = None) →
  Select_table t columns condition
  = map (λ r, projectRow r columns (schema t))
      (filter (λ r, matches condition r = true) (rows t)).
Proof. apply Select_table_scan. Qed.

Lemma Select_scan_order_witness :
  (∀ cond, Some cond_name_bob = Some cond → Operator cond = "="%string →
           indexes users3 !! Cond_Column cond = None)
  ∧ Select_table users3 [] (Some cond_name_bob)
    = map (λ r, projectRow r [] (schema users3))
        (filter (λ r, matches (Some cond_name_bob) r = true) (rows users3)).
Proof.
  assert (H : ∀ cond, Some cond_name_bob = Some cond → Operator cond = "="%string →
                      indexes users3 !! Cond_Column cond = None)
    by (intros cond [= <-] _; vm_compute; reflexivity).
  split; [exact H|]. apply (Select_scan_order users3 [] (Some cond_name_bob) H).
Defined.

(** ** join.go: merged rows and result order *)

Section merge.
Implicit Types (l r : Row) (T : string).

Lemma qualify_inj T c1 c2 : qualify T c1 = qualify T c2 → c1 = c2.
Proof.
  unfold qualify. induction T as [|a T IH]; simpl.
  - intros H. by injection H.
  - intros H. injection H as H. by apply IH.
Qed.

(** One of the two loops of [mergeRows], started from [init]. *)
Lemma qualify_fold_lookup T (init m : Row) :
  (∀ c, map_fold (λ col val result, Row_Set result (qualify T col) val) init m
          !! qualify T c
        = match m !! c with Some v => Some v | None => init !! qualify T c end)
  ∧ (∀ k, (∀ c, is_Some (m !! c) → qualify T c ≠ k) →
          map_fold (λ col val result, Row_Set result (qualify T col) val) init m !! k
          = init !! k).
Proof.
  unfold Row_Set.
  apply (map_fold_weak_ind (λ result (m : Row),
    (∀ c, result !! qualify T c
          = match m !! c with Some v => Some v | None => init !! qualify T c end)
    ∧ (∀ k, (∀ c, is_Some (m !! c) → qualify T c ≠ k) → result !! k = init !! k))).
  - split; [intros c; by rewrite lookup_empty|done].
  - intros col val m0 result Hcol [IH1 IH2]. split.
    + intros c. destruct (decide (col = c)) as [->|Hne].
      * by rewrite !lookup_insert_eq.
      * rewrite lookup_insert_ne by (intros H%qualify_inj; done).
        rewrite lookup_insert_ne by done. apply IH1.
    + intros k Hk. rewrite lookup_insert_ne.
      * apply IH2. intros c Hc. apply Hk.
        destruct (decide (col = c)) as [->|Hne]; [by rewrite lookup_insert_eq|].
        by rewrite lookup_insert_ne.
      * apply Hk. by rewrite lookup_insert_eq.
Qed.
End merge.

(** X22.  In a merged row every column of the right row is present under its
    qualified name with the right row's value; a column of the left row is
    present with the left row's value unless a right column has the same
    qualified name.  In a join of a table with itself the names do collide:
    the right row's value wins and the left row's value survives only for the
    columns that the right row lacks. *)
Theorem mergeRows_lookup l r leftTable rightTable c :
  (∀ v, r !! c = Some v →
        mergeRows l r leftTable rightTable !! qualify rightTable c = Some v)
  ∧ (∀ v, l !! c = Some v →
          (∀ c', is_Some (r !! c') → qualify rightTable c' ≠ qualify leftTable c) →
          mergeRows l r leftTable rightTable !! qualify leftTable c = Some v)
  ∧ (leftTable = rightTable →
     mergeRows l r leftTable rightTable !! qualify rightTable c
     = match r !! c with Some v => Some v | None => l !! c end).
Proof.
  unfold mergeRows.
  destruct (qualify_fold_lookup rightTable
              (map_fold (λ col val result, Row_Set result (qualify leftTable col) val)
                 ∅ l) r) as [HR1 HR2].
  destruct (qualify_fold_lookup leftTable ∅ l) as [HL1 _].
  split_and!.
  - intros v Hv. by rewrite HR1, Hv.
  - intros v Hv Hfree. rewrite HR2 by done. by rewrite HL1, Hv.
  - intros ->. rewrite HR1. destruct (r !! c); [done|].
    rewrite HL1. by destruct (l !! c).
Qed.

Section join_order.
Implicit Types (l r : Row) (cond : JoinCondition).

Lemma join_loop_scan right cond leftTable rightTable selectColumns leftRows :
  ∀ results,
  join_loop leftRows right None leftTable rightTable cond selectColumns results
  = results
    ++ map (λ lr, project_joined (mergeRows lr.1 lr.2 leftTable rightTable)
                    selectColumns)
         (join_pairs leftRows (rows right) cond).
Proof.
  induction leftRows as [|l leftRows IH]; intros results.
  - simpl. by rewrite app_nil_r.
  - rewrite join_pairs_cons, map_app, map_map. simpl.
    unfold Row_Get. destruct (l !! LeftColumn cond) as [v|] eqn:Hl; simpl.
    + destruct (decide (v = VNil)) as [->|Hv].
      * rewrite bool_decide_eq_true_2 by done. rewrite IH.
        rewrite join_related_no_value by auto. done.
      * rewrite bool_decide_eq_false_2 by done.
        rewrite IH, join_emit_spec.
        rewrite (scan_matching_spec _ _ (rows right) [] []). simpl.
        rewrite (omap_lookup_filter_seq_app _ [] (rows right)).
        rewrite (list_filter_iff (λ r, join_related cond l r = true)
                   (λ r, bool_decide (r !! RightColumn cond = Some v) = true)).
        2:{ intros r. by rewrite (join_related_Some cond l r v). }
        by rewrite <- app_assoc.
    + rewrite IH. rewrite join_related_no_value by auto. done.
Qed.
End join_order.

(** X23.  When the right table has no index on the join column, [InnerJoin]
    returns the merged rows of the related pairs in a fixed order: left rows
    in storage order and, for each of them, the matching right rows in
    storage order.  No assumption on the indexes is needed. *)
Theorem InnerJoin_scan_order db leftTable rightTable cond selectColumns ltab rtab :
  GetTable db leftTable = Ok ltab →
  GetTable db rightTable = Ok rtab →
  hasColumn ltab (LeftColumn cond) = true →
  hasColumn rtab (RightColumn cond) = true →
  indexes rtab !! RightColumn cond = None →
  InnerJoin db leftTable rightTable cond selectColumns
  = Ok (map (λ lr, project_joined (mergeRows lr.1 lr.2 leftTable rightTable)
                     selectColumns)
          (join_pairs (rows ltab) (rows rtab) cond)).
Proof.
  intros Hl Hr Hlc Hrc Hidx. unfold InnerJoin, GetIndex.
  rewrite Hl, Hr, Hlc, Hrc, Hidx. simpl. by rewrite join_loop_scan.
Qed.

Lemma InnerJoin_scan_order_witness :
  GetTable blog_db "users" = Ok users3 ∧ GetTable blog_db "posts" = Ok posts3
  ∧ hasColumn users3 "id" = true ∧ hasColumn posts3 "user_id" = true
  ∧ indexes posts3 !! "user_id"%string = None
  ∧ InnerJoin blog_db "users" "posts" (mkJoinCondition "id" "user_id") []
    = Ok (map (λ lr, project_joined (mergeRows lr.1 lr.2 "users" "posts") [])
            (join_pairs (rows users3) (rows posts3)
               (mkJoinCondition "id" "user_id"))).
Proof.
  split_and!; [reflexivity..|].
  apply (InnerJoin_scan_order blog_db "users" "posts"
           (mkJoinCondition "id" "user_id") [] users3 posts3); reflexivity.
Defined.

(** ** crud.go: the comparator *)

Section comparator.
Implicit Types (a b : Value).

Lemma String_compare_refl (s : string) : String.compare s s = Eq.
Proof.
  pose proof (String.compare_antisym s s) as H.
  by destruct (String.compare s s).
Qed.

Lemma compareValues_antisym a b : compareValues a b = (- compareValues b a)%Z.
Proof.
  destruct a as [|x|s|?], b as [|y|s'|?]; simpl; try done.
  - destruct (Z.ltb_spec x y), (Z.gtb_spec x y), (Z.ltb_spec y x), (Z.gtb_spec y x);
      lia.
  - unfold String.ltb. rewrite (String.compare_antisym s' s).
    by destruct (String.compare s s').
Qed.

Lemma compareValues_zero a b :
  orderable a b = true → compareValues a b = 0%Z ↔ a = b.
Proof.
  destruct a as [|x|s|?], b as [|y|s'|?]; simpl; try done; intros _.
  - destruct (Z.ltb_spec x y) as [Hlt|Hge];
      [split; [done|intros [= ->]; lia]|].
    destruct (Z.gtb_spec x y) as [Hgt|Hle];
      [split; [done|intros [= ->]; lia]|].
    split; [intros _; f_equal; lia|done].
  - unfold String.ltb. rewrite (String.compare_antisym s' s). split.
    + destruct (String.compare s s') eqn:Hc; simpl; try done.
      intros _. f_equal. by apply String.compare_eq_iff.
    + intros [= ->]. by rewrite String_compare_refl.
Qed.
End comparator.

(** X24.  On two integers or two strings the comparator is an order:
    swapping the arguments negates the result, the result is 0 exactly for
    equal values, and so for a row that has the column [>] is the negation of
    [<=], [<] the negation of [>=], and [=] holds exactly when both [>=] and
    [<=] do. *)
Theorem comparator_ordered row column a b :
  row !! column = Some a → orderable a b = true →
  compareValues a b = (- compareValues b a)%Z
  ∧ (compareValues a b = 0%Z ↔ a = b)
  ∧ evaluateCondition row (mkCondition column ">" b)
    = negb (evaluateCondition row (mkCondition column "<=" b))
  ∧ evaluateCondition row (mkCondition column "<" b)
    = negb (evaluateCondition row (mkCondition column ">=" b))
  ∧ evaluateCondition row (mkCondition column "=" b)
    = evaluateCondition row (mkCondition column ">=" b)
      && evaluateCondition row (mkCondition column "<=" b).
Proof.
  intros Hrow Hord. pose proof (compareValues_zero a b Hord) as Hzero.
  split; [apply compareValues_antisym|]. split; [done|].
  unfold evaluateCondition, Row_Get. simpl. rewrite Hrow. simpl.
  destruct (decide (a = b)) as [Heq|Hne].
  - rewrite (proj2 Hzero Heq). by rewrite bool_decide_eq_true_2.
  - rewrite bool_decide_eq_false_2 by done.
    assert (compareValues a b ≠ 0%Z) as Hnz by (by rewrite Hzero).
    destruct (Z.gtb_spec (compareValues a b) 0), (Z.leb_spec (compareValues a b) 0),
      (Z.ltb_spec (compareValues a b) 0), (Z.geb_spec (compareValues a b) 0);
      simpl; try done; lia.
Qed.

Lemma comparator_ordered_witness :
  age30 !! "age"%string = Some (VInt 30) ∧ orderable (VInt 30) (VInt 18) = true
  ∧ evaluateCondition age30 (mkCondition "age" ">" (VInt 18))
    = negb (evaluateCondition age30 (mkCondition "age" "<=" (VInt 18))).
Proof.
  split; [reflexivity|]. split; [reflexivity|].
  apply (comparator_ordered age30 "age" (VInt 30) (VInt 18)); reflexivity.
Defined.

(** ** database.go: the registry *)

(** X25.  Creating a table under a free name registers an empty table that
    [GetTable] and [TableExists] find, makes a second [CreateTable] of that
    name fail with [TableAlreadyExists] without touching the registry, leaves
    every other name as it was, and is undone exactly by [DropTable]. *)
Theorem registry_create_drop db nm sch sch' :
  tables db !! nm = None →
  (CreateTable db nm sch).2 = None
  ∧ GetTable (CreateTable db nm sch).1 nm = Ok (NewTable nm sch)
  ∧ TableExists (CreateTable db nm sch).1 nm = true
  ∧ CreateTable (CreateTable db nm sch).1 nm sch'
    = ((CreateTable db nm sch).1, Some (ErrTableAlreadyExists nm))
  ∧ (∀ other, other ≠ nm →
       GetTable (CreateTable db nm sch).1 other = GetTable db other)
  ∧ DropTable (CreateTable db nm sch).1 nm = (db, None).
Proof.
  intros Hfree. unfold CreateTable. rewrite Hfree. simpl.
  unfold GetTable, TableExists, DropTable. simpl. rewrite lookup_insert_eq.
  split_and!; [done|done|by apply bool_decide_eq_true_2| | |].
  - done.
  - intros other Hne. by rewrite lookup_insert_ne.
  - rewrite delete_insert_eq, delete_id by done. by destruct db.
Qed.

Lemma registry_create_drop_witness :
  tables sample_db !! "posts"%string = None
  ∧ DropTable (CreateTable sample_db "posts" posts_schema).1 "posts"
    = (sample_db, None).
Proof.
  split; [reflexivity|].
  apply (registry_create_drop sample_db "posts" posts_schema []). reflexivity.
Defined.

(** X26.  [ListTables] lists every registered name once and nothing else:
    a name is listed exactly when [TableExists] holds for it, and the length
    of the list is the number of tables. *)
Theorem ListTables_exact db :
  NoDup (ListTables db)
  ∧ (∀ nm, nm ∈ ListTables db ↔ TableExists db nm = true)
  ∧ length (ListTables db) = size (tables db).
Proof.
  unfold ListTables, TableExists.
  setoid_rewrite bool_decide_eq_true.
  apply (map_fold_weak_ind (λ names (m : gmap string Table),
    NoDup names ∧ (∀ nm, nm ∈ names ↔ is_Some (m !! nm))
    ∧ length names = size m)).
  - split; [constructor|]. split; [|by rewrite map_size_empty].
    intros nm. rewrite lookup_empty, elem_of_nil. split; [done|by intros [? ?]].
  - intros nm t m names Hnone (Hnd & Hin & Hlen). split_and!.
    + apply NoDup_app. split_and!; [done| |apply NoDup_singleton].
      intros x Hx ->%list_elem_of_singleton. apply Hin in Hx as [? ?]. congruence.
    + intros x. rewrite elem_of_app, list_elem_of_singleton, Hin.
      destruct (decide (nm = x)) as [->|Hne].
      * rewrite lookup_insert_eq. naive_solver.
      * rewrite lookup_insert_ne by done. naive_solver.
    + rewrite length_app, map_size_insert_None by done. simpl. lia.
Qed.

(** ** constraints.go: a stored row against itself *)

Section self_update.
Implicit Types (t : Table) (row : Row).

Lemma update_unique_loop_same t row cols : update_unique_loop t row row cols = None.
Proof.
  induction cols as [|col cols IH]; [done|]. simpl.
  destruct (Unique col && bool_decide (Name col ≠ primaryKey t)); [|done].
  destruct (Row_Get row (Name col)) as [value hasValue] eqn:Hg. simpl.
  rewrite (bool_decide_eq_false_2 (value ≠ value)) by (intros H; by apply H).
  by rewrite andb_false_r.
Qed.

Lemma not_null_loop_present t row cols :
  (∀ col, col ∈ cols → NotNull col = true ∨ PrimaryKey col = true →
          is_Some (value_of (Name col) row)) →
  not_null_loop t row cols = None.
Proof.
  induction cols as [|col cols IH]; intros Hall; [done|]. simpl.
  assert (IH' : not_null_loop t row cols = None)
    by (apply IH; intros c Hc; apply Hall; by right).
  destruct (NotNull col || PrimaryKey col) eqn:Hflag; [|done].
  destruct (Hall col) as [v [Hrow Hv]%value_of_Some]; [left|..].
  { apply orb_true_iff in Hflag. tauto. }
  unfold Row_Get. rewrite Hrow. simpl. by rewrite bool_decide_eq_false_2.
Qed.
End self_update.

(** X27.  A stored row is compatible with itself: in a table built through
    the entry points, [ValidateUpdate] accepts every stored row as its own
    replacement.  Hence an [Update] that sets no column succeeds on such a
    table, counts the matching rows and leaves the table as it found it. *)
Theorem stored_row_self_compatible t :
  api_reachable t →
  (∀ r, r ∈ rows t → ValidateUpdate t r r = None)
  ∧ (∀ condition,
       Update_table t ∅ condition
       = Some (t, length (filter (λ r, matches condition r = true) (rows t)), None)).
Proof.
  intros Hapi.
  assert (Hself : ∀ r, r ∈ rows t → ValidateUpdate t r r = None).
  { intros r Hr. unfold ValidateUpdate, update_pk_check.
    rewrite (bool_decide_eq_false_2 (_ ≠ _)) by (intros H; by apply H). simpl.
    assert ((if decide (primaryKey t ≠ ""%string) then None else None)
            = @None Error) as -> by (by case_decide).
    rewrite update_unique_loop_same. apply not_null_loop_present.
    intros col Hin Hflag.
    destruct (required_columns_present t (Name col) r Hapi) as (v & Hv & Hvn);
      [by exists col|done|].
    exists v. by apply value_of_Some. }
  split; [done|]. intros condition.
  destruct (Update_empty_updates t condition) as (n & e & Hupd).
  destruct (Update_loop_spec ∅ condition (rows t) (S (length (rows t))) t [] 0)
    as (t' & n' & e' & Hloop & Hres); [done|lia|].
  change (length (@nil Row)) with 0 in Hloop. unfold Update_table in *.
  rewrite Hloop in Hupd. injection Hupd as -> -> ->. rewrite Hloop.
  destruct e as [err|].
  - destruct Hres as (done_ & row & rest & Hrows & _ & Hval & _).
    rewrite overlay_empty, Hself in Hval; [done|].
    rewrite Hrows. apply elem_of_app. right. left.
  - destruct Hres as [_ ->]. done.
Qed.

Lemma stored_row_self_compatible_witness :
  api_reachable users2
  ∧ Update_table users2 ∅ None
    = Some (users2, length (filter (λ r, matches None r = true) (rows users2)), None).
Proof.
  split; [exact users2_api_reachable|].
  apply (stored_row_self_compatible users2 users2_api_reachable).
Defined.

(** ** crud.go: the entry points keep the indexes consistent *)

(** X28.  Index consistency carries over to the entry points: in a table
    built by [NewTable], validated inserts, [Update] (complete or stopped by
    an error), [Delete] and [CreateIndex], every bucket lists, without
    repetition, exactly the positions of the rows that hold its value. *)
Theorem api_index_consistency t c idx v :
  api_reachable t → indexes t !! c = Some idx →
  NoDup (Index_Lookup idx v)
  ∧ ∀ p, p ∈ Index_Lookup idx v ↔
         v ≠ VNil ∧ ∃ r, rows t !! p = Some r ∧ r !! c = Some v.
Proof.
  intros Hapi Hidx.
  apply (reachable_consistent t (api_reachable_reachable t Hapi) c idx Hidx v).
Qed.

Lemma api_index_consistency_witness :
  api_reachable users2
  ∧ indexes users2 !! "id"%string
    = Some (default (NewIndex "") (indexes users2 !! "id"%string))
  ∧ NoDup (Index_Lookup (default (NewIndex "") (indexes users2 !! "id"%string))
             (VInt 2)).
Proof.
  assert (Hidx : indexes users2 !! "id"%string
                 = Some (default (NewIndex "") (indexes users2 !! "id"%string)))
    by (vm_compute; reflexivity).
  split; [exact users2_api_reachable|]. split; [exact Hidx|].
  apply (api_index_consistency users2 "id" _ (VInt 2) users2_api_reachable Hidx).
Defined.
